(** * A shallow embedding of the SQL editor's pipeline

    The repository implements a small SQL dialect in JavaScript:
    - the lexical analyzer [LexicalAnalyzer] of [src/utils/lexer.js]
      (in this tree the second part of [src/sql-editor/src/App.jsx]):
      text to tokens;
    - the parser [SQLParser] of [src/sql-editor/src/utils/parser.js]:
      tokens to a statement AST;
    - [executeAST] and its helpers in [src/components/SQLEditor.js]
      (in this tree [src/unnamed/part_000]): the AST run against the
      in-memory [mockDatabase].
    Line numbers below are those of these three files.

    Each JavaScript function is translated to a Rocq function of the same
    name.  Exceptions become the [Err] branch of a result type, the
    mutable [position] fields become explicit state, and [while] loops
    become recursive functions (structural where the loop walks the
    input, fuelled where it does not; fuelled functions come with a lemma
    that the fuel they are given is never exhausted). *)

From Stdlib Require Import List String Ascii Bool Arith Lia ZArith.
Import ListNotations.

Local Open Scope string_scope.
Local Open Scope list_scope.

Set Implicit Arguments.

(** ** Results of computations that may throw *)

Inductive Res (E A : Type) : Type :=
| Ok (a : A)
| Err (e : E).

Arguments Ok {E A} a.
Arguments Err {E A} e.


(** ** Characters and strings

    A JavaScript string is modelled as a [string] of 8-bit code units.
    [toUpperCase] is the ASCII restriction of the host function. *)

Definition charCode (c : ascii) : nat := nat_of_ascii c.

Definition upperChar (c : ascii) : ascii :=
  let n := charCode c in
  if ((97 <=? n) && (n <=? 122))%nat then ascii_of_nat (n - 32) else c.

Fixpoint toUpperCase (s : string) : string :=
  match s with
  | EmptyString => EmptyString
  | String c r => String (upperChar c) (toUpperCase r)
  end.

Definition strLit (c : ascii) : string := String c EmptyString.

(** ** Tokens ([lexer.js], lines 17-48) *)

Inductive TokenType : Type :=
| KEYWORD | IDENTIFIER | STRING | NUMBER
| OPERATOR | PUNCTUATION | WHITESPACE | ERROR.

Definition TokenType_eqb (a b : TokenType) : bool :=
  match a, b with
  | KEYWORD, KEYWORD | IDENTIFIER, IDENTIFIER | STRING, STRING
  | NUMBER, NUMBER | OPERATOR, OPERATOR | PUNCTUATION, PUNCTUATION
  | WHITESPACE, WHITESPACE | ERROR, ERROR => true
  | _, _ => false
  end.

Record Token : Type := mkToken {
  type : TokenType;
  value : string;
  position : nat
}.

Definition KEYWORDS : list string :=
  [ "SELECT"; "FROM"; "WHERE"; "INSERT"; "INTO"; "VALUES";
    "UPDATE"; "SET"; "DELETE"; "AND"; "OR"; "NOT"; "NULL";
    "CREATE"; "TABLE"; "DROP"; "ALTER"; "INDEX"; "PRIMARY";
    "KEY"; "FOREIGN"; "REFERENCES"; "DEFAULT"; "CONSTRAINT";
    "SHOW"; "TABLES" ].

Definition OPERATORS : list string :=
  [ "="; "<"; ">"; "<="; ">="; "<>"; "+"; "-"; "*"; "/"; "%" ].

(** [Set.prototype.has] on a set of strings. *)
Definition has (set : list string) (s : string) : bool :=
  existsb (String.eqb s) set.

(** ** The lexical analyzer ([lexer.js], lines 50-204)

    The analyzer's state is [this.position] together with the part of
    [this.input] that starts there: [peek()] is the first character of
    that remainder (or [null] when it is empty) and [advance()] drops
    it while incrementing the position. *)

Module Lexer.

Inductive LexError : Type :=
| UnterminatedString (startPos : nat)
    (* Unterminated string at position ${startPos} *)
| InvalidCharacter (char : ascii) (pos : nat)
    (* Invalid character '${char}' at position ${this.position} *)
| LexOutOfFuel.
    (* artefact of the fuelled main loop; see [analyze_fuel] *)

(** [/\s/] on 8-bit code units: TAB, LF, VT, FF, CR, space, NBSP. *)
Definition isWhitespace (c : ascii) : bool :=
  let n := charCode c in
  (((9 <=? n) && (n <=? 13)) || (n =? 32) || (n =? 160))%nat.

Definition isLetter (c : ascii) : bool :=
  let n := charCode c in
  (((97 <=? n) && (n <=? 122)) || ((65 <=? n) && (n <=? 90)))%nat.

Definition isDigit (c : ascii) : bool :=
  let n := charCode c in ((48 <=? n) && (n <=? 57))%nat.

Definition isIdentifierChar (c : ascii) : bool :=
  isLetter c || isDigit c || Ascii.eqb c "_".

Definition isQuote (c : ascii) : bool := Ascii.eqb c "'".
Definition isDot (c : ascii) : bool := Ascii.eqb c ".".

(** The [while] loop of [tokenizeIdentifier]: returns the accumulated
    text, the new position and the remaining input. *)
Fixpoint identifierLoop (rem : string) (val : string) (pos : nat)
  : string * nat * string :=
  match rem with
  | String c rest =>
      if isIdentifierChar c
      then identifierLoop rest (val ++ strLit c)%string (S pos)
      else (val, pos, rem)
  | EmptyString => (val, pos, rem)
  end.

Definition tokenizeIdentifier (rem : string) (pos : nat)
  : Token * nat * string :=
  let startPos := pos in
  let '(val, pos', rem') := identifierLoop rem "" pos in
  let upperValue := toUpperCase val in
  if has KEYWORDS upperValue
  then (mkToken KEYWORD upperValue startPos, pos', rem')
  else (mkToken IDENTIFIER val startPos, pos', rem').

(** The [while] loop of [tokenizeNumber]. *)
Fixpoint numberLoop (rem : string) (val : string) (hasDecimalPoint : bool)
  (pos : nat) : string * nat * string :=
  match rem with
  | String c rest =>
      if isDigit c || isDot c then
        if isDot c then
          if hasDecimalPoint
          then (val, pos, rem)  (* break *)
          else numberLoop rest (val ++ strLit c)%string true (S pos)
        else numberLoop rest (val ++ strLit c)%string hasDecimalPoint (S pos)
      else (val, pos, rem)
  | EmptyString => (val, pos, rem)
  end.

Definition tokenizeNumber (rem : string) (pos : nat)
  : Token * nat * string :=
  let startPos := pos in
  let '(val, pos', rem') := numberLoop rem "" false pos in
  (mkToken NUMBER val startPos, pos', rem').

(** The [while] loop of [tokenizeString], entered after the opening
    quote has been skipped.  [this.input[this.position + 1]] is the
    second character of the remainder. *)
Fixpoint stringLoop (rem : string) (val : string) (pos : nat)
  : string * nat * string :=
  match rem with
  | String c rest =>
      if isQuote c then
        match rest with
        | String c' rest' =>
            if isQuote c'
            then stringLoop rest' (val ++ "'")%string (S (S pos))
            else (val, pos, rem)  (* break *)
        | EmptyString => (val, pos, rem)  (* break *)
        end
      else stringLoop rest (val ++ strLit c)%string (S pos)
  | EmptyString => (val, pos, rem)
  end.

(** [tokenizeString] is called with the opening quote as the first
    character of [rem]. *)
Definition tokenizeString (rem : string) (pos : nat)
  : Res LexError (Token * nat * string) :=
  let startPos := pos in
  let rem1 := match rem with String _ r => r | EmptyString => rem end in
  let '(val, pos', rem') := stringLoop rem1 "" (S pos) in
  match rem' with
  | String c rest =>
      if isQuote c
      then Ok (mkToken STRING val startPos, S pos', rest)
      else Err (UnterminatedString startPos)
  | EmptyString => Err (UnterminatedString startPos)
  end.

(** The [while] loop of [tokenizeOperator]. *)
Fixpoint operatorLoop (rem : string) (val : string) (pos : nat)
  : string * nat * string :=
  match rem with
  | String c rest =>
      if has OPERATORS (val ++ strLit c)%string
      then operatorLoop rest (val ++ strLit c)%string (S pos)
      else (val, pos, rem)
  | EmptyString => (val, pos, rem)
  end.

Definition tokenizeOperator (rem : string) (pos : nat)
  : Token * nat * string :=
  let startPos := pos in
  let '(val, pos', rem') := operatorLoop rem "" pos in
  (mkToken OPERATOR val startPos, pos', rem').

(** The inner whitespace-skipping loop of [analyze]. *)
Fixpoint skipWhitespace (rem : string) (pos : nat) : nat * string :=
  match rem with
  | String c rest =>
      if isWhitespace c then skipWhitespace rest (S pos) else (pos, rem)
  | EmptyString => (pos, rem)
  end.

(** One iteration of the main loop of [analyze]: [None] when the loop
    condition [this.position < this.input.length] fails. *)
Definition analyzeStep (rem : string) (pos : nat) (tokens : list Token)
  : option (Res LexError (string * nat * list Token)) :=
  match rem with
  | EmptyString => None
  | String char rest =>
      Some
        (if isWhitespace char then
           let '(pos', rem') := skipWhitespace rem pos in
           Ok (rem', pos', tokens)
         else if isLetter char then
           let '(t, pos', rem') := tokenizeIdentifier rem pos in
           Ok (rem', pos', tokens ++ [t])
         else if isDigit char then
           let '(t, pos', rem') := tokenizeNumber rem pos in
           Ok (rem', pos', tokens ++ [t])
         else if isQuote char then
           match tokenizeString rem pos with
           | Ok (t, pos', rem') => Ok (rem', pos', tokens ++ [t])
           | Err e => Err e
           end
         else if has OPERATORS (strLit char) then
           let '(t, pos', rem') := tokenizeOperator rem pos in
           Ok (rem', pos', tokens ++ [t])
         else if has ["("; ")"; ","; ";"] (strLit char) then
           Ok (rest, S pos, tokens ++ [mkToken PUNCTUATION (strLit char) pos])
         else Err (InvalidCharacter char pos))
  end.

Fixpoint analyzeLoop (fuel : nat) (rem : string) (pos : nat)
  (tokens : list Token) : Res LexError (list Token) :=
  match analyzeStep rem pos tokens with
  | None => Ok tokens
  | Some (Err e) => Err e
  | Some (Ok (rem', pos', tokens')) =>
      match fuel with
      | O => Err LexOutOfFuel
      | S fuel' => analyzeLoop fuel' rem' pos' tokens'
      end
  end.

(** Every iteration consumes at least one character, so the length of
    the input bounds the number of iterations. *)
Definition analyze (input : string) : Res LexError (list Token) :=
  analyzeLoop (String.length input) input 0 [].

Definition lexicalAnalysis (query : string) : Res LexError (list Token) :=
  analyze query.

End Lexer.

(** ** The abstract syntax tree ([parser.js])

    [parsePrimary] builds [Identifier] and [Literal] nodes, the six
    precedence levels build [BinaryExpression] nodes, and each statement
    parser returns one of the five statement objects.  Value positions of
    INSERT and UPDATE hold the consumed [Token] itself. *)

Inductive Expr : Type :=
| BinaryExpression (operator : string) (left right : Expr)
| Identifier (value : string)
| Literal (value : string) (valueType : TokenType).

Record Assignment : Type := mkAssignment {
  column : string;
  assignedValue : Token   (* the field [value] of the assignment object *)
}.

Inductive Statement : Type :=
| SELECT (columns : list string) (table : string) (where_ : option Expr)
| INSERT (table : string) (columns : list string)
         (valuesList : list (list Token))
| UPDATE (table : string) (assignments : list Assignment)
         (where_ : option Expr)
| DELETE (table : string) (where_ : option Expr)
| SHOW_TABLES.

(** ** The parser ([parser.js], class [SQLParser])

    [this.tokens] is read-only and [this.position] is the state, so a
    parsing method is a function from the token array and the position to
    a result and the new position. *)

Module Parser.

Inductive ParseError : Type :=
| ExpectedButEnd (ty : TokenType) (val : option string)
    (* Expected ${type} (${value}), but got end of input *)
| ExpectedButGot (ty : TokenType) (val : option string) (got : Token)
    (* Expected ${type} (${value}), but got ${token.type} (${token.value}) *)
| EmptyQuery
    (* Empty query *)
| UnsupportedCommand (val : string)
    (* Unsupported command: ${token.value} *)
| UnexpectedEndOfInput
    (* Unexpected end of input *)
| UnexpectedToken (got : Token) (pos : nat)
    (* Unexpected token ${token.type} (${token.value}) at position ${this.position} *)
| ExpectedTablesAfterShow (val : string)
    (* Expected TABLES after SHOW, but got ${this.peek().value} *)
| NullDereference
    (* the host's TypeError for [this.peek().value] when [peek()] is null *)
| ParseOutOfFuel.
    (* artefact of the fuelled loops; see [parseSQL_fuel] *)

Definition M (A : Type) : Type :=
  list Token -> nat -> Res ParseError (A * nat).

Definition ret {A} (a : A) : M A := fun _ pos => Ok (a, pos).

Definition throw {A} (e : ParseError) : M A := fun _ _ => Err e.

Definition bind {A B} (p : M A) (f : A -> M B) : M B :=
  fun toks pos =>
    match p toks pos with
    | Ok (a, pos') => f a toks pos'
    | Err e => Err e
    end.

Notation "x <- p ;; q" := (bind p (fun x => q))
  (at level 61, p at next level, right associativity).
Notation "p ;;; q" := (bind p (fun _ => q))
  (at level 61, right associativity).

(** [this.tokens[this.position] || null] *)
Definition peek : M (option Token) :=
  fun toks pos => Ok (nth_error toks pos, pos).

(** [this.tokens[this.position++] || null] *)
Definition consume : M (option Token) :=
  fun toks pos => Ok (nth_error toks pos, S pos).

Definition getPosition : M nat := fun _ pos => Ok (pos, pos).

(** The test shared by [match] and [expect]: an absent or empty [value]
    is falsy and disables the comparison of the texts. *)
Definition valueAgrees (val : option string) (token : Token) : bool :=
  match val with
  | None => true
  | Some "" => true
  | Some v => String.eqb (toUpperCase (value token)) (toUpperCase v)
  end.

Definition tokenIs (ty : TokenType) (val : option string) (token : Token)
  : bool :=
  TokenType_eqb (type token) ty && valueAgrees val token.

(** [match(type, value)]; the name [match] is a keyword here. *)
Definition matchToken (ty : TokenType) (val : option string) : M bool :=
  token <- peek ;;
  match token with
  | Some t => if tokenIs ty val t then consume ;;; ret true else ret false
  | None => ret false
  end.

Definition expect (ty : TokenType) (val : option string) : M Token :=
  token <- peek ;;
  match token with
  | None => throw (ExpectedButEnd ty val)
  | Some t =>
      if tokenIs ty val t
      then consume ;;; ret t
      else throw (ExpectedButGot ty val t)
  end.

(** The loop shape [do { acc.push(item) } while (match(PUNCTUATION, ','))],
    used by [parseColumnList], [parseIdentifierList], [parseValuesList]
    (twice) and [parseAssignments]. *)
Fixpoint doWhileComma {A} (fuel : nat) (item : M A) (acc : list A)
  : M (list A) :=
  match fuel with
  | O => throw ParseOutOfFuel
  | S fuel' =>
      x <- item ;;
      let acc' := acc ++ [x] in
      more <- matchToken PUNCTUATION (Some ",") ;;
      if more then doWhileComma fuel' item acc' else ret acc'
  end.

Definition parseColumnList (fuel : nat) : M (list string) :=
  doWhileComma fuel
    (star <- matchToken OPERATOR (Some "*") ;;
     if star then ret "*"
     else (col <- expect IDENTIFIER None ;; ret (value col)))
    [].

Definition parseIdentifierList (fuel : nat) : M (list string) :=
  doWhileComma fuel
    (identifier <- expect IDENTIFIER None ;; ret (value identifier))
    [].

Definition parseValue : M Token :=
  token <- peek ;;
  match token with
  | None => throw UnexpectedEndOfInput
  | Some t =>
      match type t with
      | STRING | NUMBER | IDENTIFIER => consume ;;; ret t
      | _ => pos <- getPosition ;; throw (UnexpectedToken t pos)
      end
  end.

Definition parseValuesList (fuel : nat) : M (list (list Token)) :=
  doWhileComma fuel
    (expect PUNCTUATION (Some "(") ;;;
     values <- doWhileComma fuel parseValue [] ;;
     expect PUNCTUATION (Some ")") ;;;
     ret values)
    [].

Definition parseAssignments (fuel : nat) : M (list Assignment) :=
  doWhileComma fuel
    (col <- expect IDENTIFIER None ;;
     expect OPERATOR (Some "=") ;;;
     v <- parseValue ;;
     ret (mkAssignment (value col) v))
    [].

(** *** Expressions ([parser.js], lines 231-428)

    The six binary levels share one loop shape: try [this.match] on each
    operator of the level in the order of the source's [if]/[else if]
    chain; on a match parse the right operand with the next level and
    wrap; otherwise [break].  [operators] lists the level's operators in
    that order. *)

Fixpoint matchAny (operators : list (TokenType * string))
  : M (option string) :=
  match operators with
  | [] => ret None
  | (ty, op) :: others =>
      matched <- matchToken ty (Some op) ;;
      if matched then ret (Some op) else matchAny others
  end.

Fixpoint binaryLoop (operators : list (TokenType * string))
  (operand : M Expr) (fuel : nat) (left : Expr) : M Expr :=
  match fuel with
  | O => throw ParseOutOfFuel
  | S fuel' =>
      matched <- matchAny operators ;;
      match matched with
      | Some op =>
          right <- operand ;;
          binaryLoop operators operand fuel' (BinaryExpression op left right)
      | None => ret left  (* break *)
      end
  end.

Section Levels.

(** [this.parseExpression], as called from [parsePrimary] for a
    parenthesised expression. *)
Variable parseExpression : M Expr.
Variable fuel : nat.

Definition parsePrimary : M Expr :=
  token <- peek ;;
  match token with
  | None => throw UnexpectedEndOfInput
  | Some t =>
      match type t with
      | IDENTIFIER => consume ;;; ret (Identifier (value t))
      | NUMBER | STRING => consume ;;; ret (Literal (value t) (type t))
      | _ =>
          paren <- matchToken PUNCTUATION (Some "(") ;;
          if paren then
            expression <- parseExpression ;;
            expect PUNCTUATION (Some ")") ;;;
            ret expression
          else
            pos <- getPosition ;; throw (UnexpectedToken t pos)
      end
  end.

Definition parseMultiplicative : M Expr :=
  left <- parsePrimary ;;
  binaryLoop [(OPERATOR, "*"); (OPERATOR, "/")] parsePrimary fuel left.

Definition parseAdditive : M Expr :=
  left <- parseMultiplicative ;;
  binaryLoop [(OPERATOR, "+"); (OPERATOR, "-")] parseMultiplicative
    fuel left.

Definition parseRelational : M Expr :=
  left <- parseAdditive ;;
  binaryLoop
    [(OPERATOR, "<"); (OPERATOR, ">"); (OPERATOR, "<="); (OPERATOR, ">=")]
    parseAdditive fuel left.

Definition parseEquality : M Expr :=
  left <- parseRelational ;;
  binaryLoop [(OPERATOR, "="); (OPERATOR, "<>")] parseRelational fuel left.

Definition parseLogicalAnd : M Expr :=
  left <- parseEquality ;;
  binaryLoop [(KEYWORD, "AND")] parseEquality fuel left.

Definition parseLogicalOr : M Expr :=
  left <- parseLogicalAnd ;;
  binaryLoop [(KEYWORD, "OR")] parseLogicalAnd fuel left.

End Levels.

(** [parseExpression] ties the knot; the fuel bounds both the nesting
    of parentheses and the iterations of each level's loop. *)
Fixpoint parseExpression (fuel : nat) : M Expr :=
  match fuel with
  | O => throw ParseOutOfFuel
  | S fuel' => parseLogicalOr (parseExpression fuel') fuel
  end.

(** *** Statements ([parser.js], lines 48-229) *)

(** [if (this.match(KEYWORD, 'WHERE')) where = this.parseExpression()] *)
Definition parseWhere (fuel : nat) : M (option Expr) :=
  hasWhere <- matchToken KEYWORD (Some "WHERE") ;;
  if hasWhere
  then (e <- parseExpression fuel ;; ret (Some e))
  else ret None.

Definition parseSelect (fuel : nat) : M Statement :=
  expect KEYWORD (Some "SELECT") ;;;
  columns <- parseColumnList fuel ;;
  expect KEYWORD (Some "FROM") ;;;
  table <- expect IDENTIFIER None ;;
  where_ <- parseWhere fuel ;;
  ret (SELECT columns (value table) where_).

Definition parseInsert (fuel : nat) : M Statement :=
  expect KEYWORD (Some "INSERT") ;;;
  expect KEYWORD (Some "INTO") ;;;
  table <- expect IDENTIFIER None ;;
  paren <- matchToken PUNCTUATION (Some "(") ;;
  columns <- (if paren
              then (cs <- parseIdentifierList fuel ;;
                    expect PUNCTUATION (Some ")") ;;;
                    ret cs)
              else ret []) ;;
  expect KEYWORD (Some "VALUES") ;;;
  valuesList <- parseValuesList fuel ;;
  ret (INSERT (value table) columns valuesList).

Definition parseUpdate (fuel : nat) : M Statement :=
  expect KEYWORD (Some "UPDATE") ;;;
  table <- expect IDENTIFIER None ;;
  expect KEYWORD (Some "SET") ;;;
  assignments <- parseAssignments fuel ;;
  where_ <- parseWhere fuel ;;
  ret (UPDATE (value table) assignments where_).

Definition parseDelete (fuel : nat) : M Statement :=
  expect KEYWORD (Some "DELETE") ;;;
  expect KEYWORD (Some "FROM") ;;;
  table <- expect IDENTIFIER None ;;
  where_ <- parseWhere fuel ;;
  ret (DELETE (value table) where_).

Definition parseShow : M Statement :=
  expect KEYWORD (Some "SHOW") ;;;
  tables <- matchToken KEYWORD (Some "TABLES") ;;
  if tables then
    matchToken PUNCTUATION (Some ";") ;;;   (* optional semicolon *)
    ret SHOW_TABLES
  else
    token <- peek ;;
    match token with
    | Some t => throw (ExpectedTablesAfterShow (value t))
    | None => throw NullDereference
    end.

Definition parse (fuel : nat) : M Statement :=
  token <- peek ;;
  match token with
  | None => throw EmptyQuery
  | Some t =>
      let command := toUpperCase (value t) in
      if String.eqb command "SELECT" then parseSelect fuel
      else if String.eqb command "INSERT" then parseInsert fuel
      else if String.eqb command "UPDATE" then parseUpdate fuel
      else if String.eqb command "DELETE" then parseDelete fuel
      else if String.eqb command "SHOW" then parseShow
      else throw (UnsupportedCommand (value t))
  end.

(** The parser object after [new SQLParser(tokens)] and [parse()]: the
    AST together with the final [position].  Every loop iteration and
    every nested parenthesis consumes a token, so one more than the
    number of tokens is fuel enough. *)
Definition run (tokens : list Token) : Res ParseError (Statement * nat) :=
  parse (S (List.length tokens)) tokens 0.

Definition parseSQL (tokens : list Token) : Res ParseError Statement :=
  match run tokens with
  | Ok (ast, _) => Ok ast
  | Err e => Err e
  end.

End Parser.

(** ** Scalars of the host language

    Row cells are JavaScript scalars.  Numbers are IEEE doubles and the
    comparison operators coerce their operands; both belong to the host,
    not to the repository, so they are taken as an interface. *)

Class HostNumber : Type := {
  number : Type;
  (** the global [parseFloat] *)
  parseFloat : string -> number;
  (** [ToBoolean] on numbers: false exactly for zeros and NaN *)
  numberToBoolean : number -> bool
}.

Inductive Value `{HostNumber} : Type :=
| VUndefined
| VNull
| VBoolean (b : bool)
| VNumber (n : number)
| VString (s : string).

Class HostCompare `{HostNumber} : Type := {
  (** [x == y] *)
  looseEquals : Value -> Value -> bool;
  (** the abstract relational comparison [x < y]; [None] is [undefined] *)
  lessThan : Value -> Value -> option bool
}.

(** ** The statement executor ([SQLEditor.js], lines 46-252) *)

Module Executor.

Inductive ExecError : Type :=
| TableNotFound (tableName : string)
    (* Table '${tableName}' not found *)
| ColumnCountMismatch
    (* Column count does not match value count *)
| UnsupportedOperator (operator : string)
    (* Unsupported operator in WHERE clause: ${expression.operator} *)
| UnsupportedOperandType (ty : string)
    (* Unsupported operand type: ${operand.type} *)
| UnsupportedTokenType (ty : string)
    (* Unsupported token type: ${token.type} *)
| HostTypeError (message : string).
    (* a TypeError raised by the host, not by a [throw] of the source *)

(** The errors the executor raises itself with [throw new Error(...)]. *)
Definition raisedByExecutor (e : ExecError) : bool :=
  match e with
  | HostTypeError _ => false
  | _ => true
  end.

Definition R (A : Type) : Type := Res ExecError A.

Definition rbind {A B} (r : R A) (f : A -> R B) : R B :=
  match r with
  | Ok a => f a
  | Err e => Err e
  end.

Notation "x <~ r ;; k" := (rbind r (fun x => k))
  (at level 61, r at next level, right associativity).

Section WithHost.

Context `{HostCompare}.

(** *** Rows, tables and the store

    A row is an object literal: its own properties in insertion order.
    A table is an array of rows and the store maps table names to
    tables.  Column and table names that collide with properties
    inherited from [Object.prototype] are outside the model. *)

Definition Row : Type := list (string * Value).
Definition Table : Type := list Row.
Definition Store : Type := list (string * Table).

Fixpoint lookup {A} (key : string) (obj : list (string * A)) : option A :=
  match obj with
  | [] => None
  | (k, v) :: rest => if String.eqb k key then Some v else lookup key rest
  end.

(** [obj[key] = v]: overwrite in place, or add a new last property. *)
Fixpoint assign {A} (obj : list (string * A)) (key : string) (v : A)
  : list (string * A) :=
  match obj with
  | [] => [(key, v)]
  | (k, w) :: rest =>
      if String.eqb k key then (k, v) :: rest
      else (k, w) :: assign rest key v
  end.

(** [Object.keys(obj)] *)
Definition keys {A} (obj : list (string * A)) : list string :=
  map fst obj.

(** [row[col]] *)
Definition getProperty (row : Row) (col : string) : Value :=
  match lookup col row with
  | Some v => v
  | None => VUndefined
  end.

(** [row.hasOwnProperty(col)] *)
Definition hasOwnProperty (row : Row) (col : string) : bool :=
  match lookup col row with
  | Some _ => true
  | None => false
  end.

(** [ToBoolean] *)
Definition toBoolean (v : Value) : bool :=
  match v with
  | VUndefined | VNull => false
  | VBoolean b => b
  | VNumber n => numberToBoolean n
  | VString s => negb (String.eqb s "")
  end.

Definition typeName (ty : TokenType) : string :=
  match ty with
  | KEYWORD => "KEYWORD" | IDENTIFIER => "IDENTIFIER" | STRING => "STRING"
  | NUMBER => "NUMBER" | OPERATOR => "OPERATOR"
  | PUNCTUATION => "PUNCTUATION" | WHITESPACE => "WHITESPACE"
  | ERROR => "ERROR"
  end.

(** *** [parseValue] (lines 241-252)

    The argument is either a [Token] or a [Literal] node; the switch is
    on [token.valueType || token.type], and the message of the default
    branch shows [token.type]. *)
Definition parseValueOf (kind : TokenType) (text : string)
  (typeField : string) : R Value :=
  match kind with
  | NUMBER => Ok (VNumber (parseFloat text))
  | STRING => Ok (VString text)
  | IDENTIFIER => Ok (VString text)
  | _ => Err (UnsupportedTokenType typeField)
  end.

Definition parseValue (token : Token) : R Value :=
  parseValueOf (type token) (value token) (typeName (type token)).

Definition parseValueLiteral (text : string) (valueType : TokenType)
  : R Value :=
  parseValueOf valueType text "Literal".

(** *** [getValue] and [evaluateExpression] (lines 184-239) *)

Definition getValue (row : Row) (operand : Expr) : R Value :=
  match operand with
  | Literal text valueType => parseValueLiteral text valueType
  | Identifier name => Ok (getProperty row name)
  | BinaryExpression _ _ _ =>
      Err (UnsupportedOperandType "BinaryExpression")
  end.

Definition isTrue (o : option bool) : bool :=
  match o with Some true => true | _ => false end.

Definition isFalse (o : option bool) : bool :=
  match o with Some false => true | _ => false end.

Fixpoint evaluateExpression (row : Row) (expression : Expr) : R Value :=
  match expression with
  | BinaryExpression operator l r =>
      left <~ getValue row l ;;
      right <~ getValue row r ;;
      if String.eqb operator "=" then
        Ok (VBoolean (looseEquals left right))
      else if String.eqb operator "<>" then
        Ok (VBoolean (negb (looseEquals left right)))
      else if String.eqb operator ">" then
        Ok (VBoolean (isTrue (lessThan right left)))
      else if String.eqb operator "<" then
        Ok (VBoolean (isTrue (lessThan left right)))
      else if String.eqb operator ">=" then
        Ok (VBoolean (isFalse (lessThan left right)))
      else if String.eqb operator "<=" then
        Ok (VBoolean (isFalse (lessThan right left)))
      else if String.eqb operator "AND" then
        a <~ evaluateExpression row l ;;
        if toBoolean a then evaluateExpression row r else Ok a
      else if String.eqb operator "OR" then
        a <~ evaluateExpression row l ;;
        if toBoolean a then Ok a else evaluateExpression row r
      else Err (UnsupportedOperator operator)
  | Literal text valueType => parseValueLiteral text valueType
  | Identifier name => Ok (getProperty row name)
  end.

(** *** Results *)

Inductive ExecutionResult : Type :=
| RowSet (columns : list string) (rows : list (list Value))
    (* { columns, rows } *)
| Inserted (count : nat) (tableName : string)
    (* Inserted ${count} record(s) into '${tableName}' table *)
| Updated (count : nat) (tableName : string)
    (* Updated ${count} record(s) in '${tableName}' table *)
| Deleted (count : nat) (tableName : string).
    (* Deleted ${count} record(s) from '${tableName}' table *)

(** A statement's outcome together with the store as it is once the
    call has returned or thrown: [setDB]'s update when it was reached,
    and any row object that was written to in place. *)
Definition Outcome : Type := (R ExecutionResult * Store)%type.

(** [rows.filter(callback)] for a callback that may throw. *)
Fixpoint filterRows (callback : Row -> R bool) (rows : Table) : R Table :=
  match rows with
  | [] => Ok []
  | row :: rest =>
      keep <~ callback row ;;
      kept <~ filterRows callback rest ;;
      Ok (if keep then row :: kept else kept)
  end.

(** *** [executeSelect] (lines 71-96) *)

Definition includes (xs : list string) (x : string) : bool :=
  existsb (String.eqb x) xs.

Definition executeSelect (columns : list string) (tableName : string)
  (where_ : option Expr) (db : Store) : R ExecutionResult :=
  match lookup tableName db with
  | None => Err (TableNotFound tableName)
  | Some tableData =>
      rows <~ match where_ with
              | Some w =>
                  filterRows
                    (fun row => v <~ evaluateExpression row w ;;
                                Ok (toBoolean v))
                    tableData
              | None => Ok tableData
              end ;;
      cols <~ (if includes columns "*" then
                 match tableData with
                 | first :: _ => Ok (keys first)
                 | [] =>
                     (* Object.keys(undefined) *)
                     Err (HostTypeError
                            "Cannot convert undefined or null to object")
                 end
               else Ok columns) ;;
      Ok (RowSet cols
            (map (fun row =>
                    map (fun col =>
                           if hasOwnProperty row col
                           then getProperty row col else VNull)
                        cols)
                 rows))
  end.

(** *** [executeInsert] (lines 98-126) *)

(** [ast.columns.forEach((col, index) => record[col] = parseValue(values[index]))] *)
Fixpoint fillRecord (columns : list string) (values : list Token)
  (index : nat) (record : Row) : R Row :=
  match columns with
  | [] => Ok record
  | col :: others =>
      match nth_error values index with
      | Some token =>
          v <~ parseValue token ;;
          fillRecord others values (S index) (assign record col v)
      | None =>
          (* parseValue(undefined) *)
          Err (HostTypeError "Cannot read properties of undefined")
      end
  end.

Definition buildRecord (columns : list string) (values : list Token)
  : R Row :=
  if Nat.eqb (List.length columns) (List.length values)
  then fillRecord columns values 0 []
  else Err ColumnCountMismatch.

(** [ast.valuesList.map(...)] *)
Fixpoint buildRecords (columns : list string)
  (valuesList : list (list Token)) : R (list Row) :=
  match valuesList with
  | [] => Ok []
  | values :: others =>
      record <~ buildRecord columns values ;;
      records <~ buildRecords columns others ;;
      Ok (record :: records)
  end.

Definition executeInsert (tableName : string) (columns : list string)
  (valuesList : list (list Token)) (db : Store) : Outcome :=
  match lookup tableName db with
  | None => (Err (TableNotFound tableName), db)
  | Some tableData =>
      match buildRecords columns valuesList with
      | Err e => (Err e, db)
      | Ok newRecords =>
          (Ok (Inserted (List.length valuesList) tableName),
           assign db tableName (tableData ++ newRecords))
      end
  end.

(** *** [executeUpdate] (lines 128-156)

    The callback of [tableData.map] writes to the row object it is
    given, so an exception leaves the rows visited so far as they were
    written.  The functions below return the rows as they are in memory
    next to what the loop computed. *)

(** [ast.assignments.forEach(assign => row[assign.column] = parseValue(assign.value))] *)
Fixpoint applyAssignments (assignments : list Assignment) (row : Row)
  : option ExecError * Row :=
  match assignments with
  | [] => (None, row)
  | a :: others =>
      match parseValue (assignedValue a) with
      | Ok v => applyAssignments others (assign row (column a) v)
      | Err e => (Some e, row)
      end
  end.

(** [!ast.where || evaluateExpression(row, ast.where)] *)
Definition selects (where_ : option Expr) (row : Row) : R bool :=
  match where_ with
  | None => Ok true
  | Some w => v <~ evaluateExpression row w ;; Ok (toBoolean v)
  end.

Fixpoint updateRows (assignments : list Assignment) (where_ : option Expr)
  (rows : Table) (rowsAffected : nat) : R nat * Table :=
  match rows with
  | [] => (Ok rowsAffected, [])
  | row :: rest =>
      match selects where_ row with
      | Err e => (Err e, row :: rest)
      | Ok false =>
          let '(r, rest') := updateRows assignments where_ rest rowsAffected in
          (r, row :: rest')
      | Ok true =>
          match applyAssignments assignments row with
          | (Some e, row') => (Err e, row' :: rest)
          | (None, row') =>
              let '(r, rest') :=
                updateRows assignments where_ rest (S rowsAffected) in
              (r, row' :: rest')
          end
      end
  end.

Definition executeUpdate (tableName : string)
  (assignments : list Assignment) (where_ : option Expr) (db : Store)
  : Outcome :=
  match lookup tableName db with
  | None => (Err (TableNotFound tableName), db)
  | Some tableData =>
      match updateRows assignments where_ tableData 0 with
      | (Err e, written) => (Err e, assign db tableName written)
      | (Ok rowsAffected, updatedTableData) =>
          (Ok (Updated rowsAffected tableName),
           assign db tableName updatedTableData)
      end
  end.

(** *** [executeDelete] (lines 158-182) *)

(** [ast.where ? !evaluateExpression(row, ast.where) : false] *)
Definition retains (where_ : option Expr) (row : Row) : R bool :=
  match where_ with
  | Some w => v <~ evaluateExpression row w ;; Ok (negb (toBoolean v))
  | None => Ok false
  end.

Definition executeDelete (tableName : string) (where_ : option Expr)
  (db : Store) : Outcome :=
  match lookup tableName db with
  | None => (Err (TableNotFound tableName), db)
  | Some tableData =>
      let initialLength := List.length tableData in
      match filterRows (retains where_) tableData with
      | Err e => (Err e, db)
      | Ok updatedTableData =>
          let rowsDeleted := initialLength - List.length updatedTableData in
          (Ok (Deleted rowsDeleted tableName),
           assign db tableName updatedTableData)
      end
  end.

(** *** [executeAST] (lines 46-69) *)

Definition executeAST (ast : Statement) (db : Store) : Outcome :=
  match ast with
  | SHOW_TABLES =>
      (Ok (RowSet ["Tables_in_database"]
             (map (fun t => [VString t]) (keys db))),
       db)
  | SELECT columns tableName where_ =>
      (executeSelect columns tableName where_ db, db)
  | INSERT tableName columns valuesList =>
      executeInsert tableName columns valuesList db
  | UPDATE tableName assignments where_ =>
      executeUpdate tableName assignments where_ db
  | DELETE tableName where_ =>
      executeDelete tableName where_ db
  end.

End WithHost.

End Executor.

(** ** An integer host for running examples

    The theorems below hold for every host.  To run the executor on
    concrete stores the interface is instantiated with integers:
    [parseFloat] reads the leading decimal digits, and comparisons
    coerce numeric text like the host does on integer numerals. *)

Module IntHost.

Definition digitValue (c : ascii) : option Z :=
  if Lexer.isDigit c then Some (Z.of_nat (charCode c) - 48)%Z else None.

Fixpoint leadingDigits (s : string) (acc : Z) : Z :=
  match s with
  | String c rest =>
      match digitValue c with
      | Some d => leadingDigits rest (10 * acc + d)%Z
      | None => acc
      end
  | EmptyString => acc
  end.

#[export] Instance hostNumber : HostNumber := {|
  number := Z;
  parseFloat := fun s => leadingDigits s 0%Z;
  numberToBoolean := fun n => negb (Z.eqb n 0)
|}.

Definition looseEqualsZ (x y : Value) : bool :=
  match x, y with
  | VNumber a, VNumber b => Z.eqb a b
  | VString a, VString b => String.eqb a b
  | VNumber a, VString b => Z.eqb a (parseFloat b)
  | VString a, VNumber b => Z.eqb (parseFloat a) b
  | VBoolean a, VBoolean b => Bool.eqb a b
  | (VUndefined | VNull), (VUndefined | VNull) => true
  | _, _ => false
  end.

Definition lessThanZ (x y : Value) : option bool :=
  match x, y with
  | VNumber a, VNumber b => Some (Z.ltb a b)
  | VString a, VString b => Some (String.ltb a b)
  | VNumber a, VString b => Some (Z.ltb a (parseFloat b))
  | VString a, VNumber b => Some (Z.ltb (parseFloat a) b)
  | _, _ => None
  end.

#[export] Instance hostCompare : HostCompare := {|
  looseEquals := looseEqualsZ;
  lessThan := lessThanZ
|}.

(** The initial [mockDatabase] of [SQLEditor.js] (lines 22-29). *)
Definition mockDatabase : Executor.Store :=
  [ ("users",
     [ [("id", VNumber 1%Z); ("name", VString "Alice");
        ("email", VString "alice@example.com")];
       [("id", VNumber 2%Z); ("name", VString "Bob");
        ("email", VString "bob@example.com")] ]);
    ("orders", []);
    ("products", []) ].

(** [lexicalAnalysis], [parseSQL] and [executeAST] in sequence, as in
    [executeQuery]; errors of the three stages are kept apart. *)
Inductive QueryError : Type :=
| LexicalFailure (e : Lexer.LexError)
| SyntaxFailure (e : Parser.ParseError)
| RuntimeFailure (e : Executor.ExecError).

Definition executeQuery (query : string) (db : Executor.Store)
  : Res QueryError Executor.ExecutionResult * Executor.Store :=
  match Lexer.lexicalAnalysis query with
  | Err e => (Err (LexicalFailure e), db)
  | Ok tokens =>
      match Parser.parseSQL tokens with
      | Err e => (Err (SyntaxFailure e), db)
      | Ok ast =>
          match Executor.executeAST ast db with
          | (Ok r, db') => (Ok r, db')
          | (Err e, db') => (Err (RuntimeFailure e), db')
          end
      end
  end.

End IntHost.

(** ** Vocabulary of the statements below *)

(** The token kinds that [parseValue] of the parser lets into value
    positions, which are the kinds [parseValue] of the executor
    converts. *)
Definition isValueToken (token : Token) : bool :=
  match type token with
  | STRING | NUMBER | IDENTIFIER => true
  | _ => false
  end.

(** A statement whose UPDATE assignments hold value tokens only, as the
    grammar's [value] production guarantees. *)
Definition assignsValues (ast : Statement) : bool :=
  match ast with
  | UPDATE _ assignments _ =>
      forallb (fun a => isValueToken (assignedValue a)) assignments
  | _ => true
  end.

(** What the statement parsers guarantee about value positions: UPDATE
    assigns value tokens, and INSERT has at least one tuple, each with
    at least one value token and nothing else. *)
Definition Grammatical (ast : Statement) : Prop :=
  match ast with
  | UPDATE _ assignments _ =>
      Forall (fun a => isValueToken (assignedValue a) = true) assignments
  | INSERT _ _ valuesList =>
      valuesList <> []
      /\ Forall (fun values =>
                   values <> []
                   /\ Forall (fun t => isValueToken t = true) values)
           valuesList
  | _ => True
  end.

(** The scalar a value token stands for. *)
Definition converted `{HostNumber} (token : Token) : Value :=
  match type token with
  | NUMBER => VNumber (parseFloat (value token))
  | _ => VString (value token)
  end.

(** The node types [getValue] has a case for. *)
Definition isOperand (e : Expr) : bool :=
  match e with
  | Identifier _ | Literal _ _ => true
  | BinaryExpression _ _ _ => false
  end.

(** The operators the six levels of the expression grammar build. *)
Definition grammarOperators : list string :=
  [ "OR"; "AND"; "="; "<>"; "<"; ">"; "<="; ">="; "+"; "-"; "*"; "/" ].

(** What every tree built by [parsePrimary] and the six levels
    satisfies: literals are of kind NUMBER or STRING and operators are
    the grammar's. *)
Fixpoint grammarTree (e : Expr) : bool :=
  match e with
  | Identifier _ => true
  | Literal _ (NUMBER | STRING) => true
  | Literal _ _ => false
  | BinaryExpression op l r =>
      has grammarOperators op && grammarTree l && grammarTree r
  end.

Definition comparisonOrLogical : list string :=
  [ "="; "<>"; ">"; "<"; ">="; "<="; "AND"; "OR" ].

Definition arithmetic : list string := [ "+"; "-"; "*"; "/" ].

(** An expression the evaluator handles: an operand, or one supported
    operator applied to two operands. *)
Definition isShallow (e : Expr) : bool :=
  match e with
  | BinaryExpression op l r =>
      has comparisonOrLogical op && isOperand l && isOperand r
  | _ => isOperand e
  end.

(** An arithmetic operator applied to two operands. *)
Definition isArithmetic (e : Expr) : bool :=
  match e with
  | BinaryExpression op l r =>
      has arithmetic op && isOperand l && isOperand r
  | _ => false
  end.

Definition rootOperator (e : Expr) : string :=
  match e with
  | BinaryExpression op _ _ => op
  | _ => ""
  end.

(** *** The expression grammar, as the specification writes it

    Level 0 is [or], level 5 is [multiplicative] and level 6 is
    [primary]; [levelOperators k] lists the operator tokens of level
    [k] in the order the parser tries them. *)

Definition levelOperators (k : nat) : list (TokenType * string) :=
  match k with
  | 0 => [(KEYWORD, "OR")]
  | 1 => [(KEYWORD, "AND")]
  | 2 => [(OPERATOR, "="); (OPERATOR, "<>")]
  | 3 => [(OPERATOR, "<"); (OPERATOR, ">"); (OPERATOR, "<="); (OPERATOR, ">=")]
  | 4 => [(OPERATOR, "+"); (OPERATOR, "-")]
  | 5 => [(OPERATOR, "*"); (OPERATOR, "/")]
  | _ => []
  end.

(** The parsing method of level [k], with [fuel'] the fuel of the
    enclosing [parseExpression (S fuel')]. *)
Definition level (k : nat) (fuel' : nat) : Parser.M Expr :=
  let rec := Parser.parseExpression fuel' in
  match k with
  | 0 => Parser.parseLogicalOr rec (S fuel')
  | 1 => Parser.parseLogicalAnd rec (S fuel')
  | 2 => Parser.parseEquality rec (S fuel')
  | 3 => Parser.parseRelational rec (S fuel')
  | 4 => Parser.parseAdditive rec (S fuel')
  | 5 => Parser.parseMultiplicative rec (S fuel')
  | _ => Parser.parsePrimary rec
  end.

(** [Derives k tokens e]: the tokens are a level-[k] phrase of the
    grammar and [e] is the tree the grammar assigns to it.  The rules
    are the productions [level_k := level_(k+1) (op_k level_(k+1))*]
    read left-associatively, and
    [primary := identifier | literal | "(" expr ")"], where the
    parentheses add no node. *)
Inductive Derives : nat -> list Token -> Expr -> Prop :=
| DerivesIdentifier (t : Token) :
    type t = IDENTIFIER ->
    Derives 6 [t] (Identifier (value t))
| DerivesLiteral (t : Token) :
    type t = NUMBER \/ type t = STRING ->
    Derives 6 [t] (Literal (value t) (type t))
| DerivesParenthesised (open close : Token) (tokens : list Token) (e : Expr) :
    type open = PUNCTUATION -> value open = "(" ->
    type close = PUNCTUATION -> value close = ")" ->
    Derives 0 tokens e ->
    Derives 6 (open :: tokens ++ [close]) e
| DerivesHigher (k : nat) (tokens : list Token) (e : Expr) :
    k < 6 ->
    Derives (S k) tokens e ->
    Derives k tokens e
| DerivesBinary (k : nat) (ty : TokenType) (op : string) (t : Token)
    (ltokens rtokens : list Token) (l r : Expr) :
    In (ty, op) (levelOperators k) ->
    type t = ty -> value t = op ->
    Derives k ltokens l ->
    Derives (S k) rtokens r ->
    Derives k (ltokens ++ t :: rtokens) (BinaryExpression op l r).

(** The next token, if any, is no operator of level [k] or above, so a
    level-[k] phrase cannot be continued by it. *)
Definition continues (k : nat) (t : Token) : bool :=
  existsb (fun j =>
             (k <=? j)%nat
             && existsb (fun o => Parser.tokenIs (fst o) (Some (snd o)) t)
                  (levelOperators j))
    [0; 1; 2; 3; 4; 5].

Definition stops (k : nat) (more : list Token) : bool :=
  match more with
  | [] => true
  | t :: _ => negb (continues k t)
  end.

(** *** Tokens a statement never consumes

    The end of the input and a semicolon are treated alike by every
    [match] and [expect] of the four data statements. *)
Definition inert (o : option Token) : bool :=
  match o with
  | None => true
  | Some t => Parser.tokenIs PUNCTUATION (Some ";") t
  end.

(** Two token arrays that agree up to index [n], a semicolon in one
    standing for a semicolon or the end of the other. *)
Definition agree (tokens tokens' : list Token) (n : nat) : Prop :=
  forall i, i <= n ->
    nth_error tokens i = nth_error tokens' i
    \/ (inert (nth_error tokens i) = true
        /\ inert (nth_error tokens' i) = true).

(** *** Properties of parsing methods *)

(** [Post P p]: every value [p] returns satisfies [P]. *)
Definition Post {A} (P : A -> Prop) (p : Parser.M A) : Prop :=
  forall toks pos a pos', p toks pos = Ok (a, pos') -> P a.

(** [Local p]: [p] moves forwards and stays within the array, and a
    successful run reads nothing beyond the position it stops at, where
    it does not tell a semicolon from the end of the input. *)
Definition Local {A} (p : Parser.M A) : Prop :=
  forall toks pos a pos',
    p toks pos = Ok (a, pos') ->
    pos <= pos' <= Nat.max pos (List.length toks)
    /\ forall toks', agree toks toks' pos' -> p toks' pos = Ok (a, pos').

(** A token test that a semicolon does not pass. *)
Definition plain (ty : TokenType) (val : option string) : Prop :=
  forall t, Parser.tokenIs ty val t = true ->
            Parser.tokenIs PUNCTUATION (Some ";") t = false.


(** [Safe n p]: started inside the array with more than the number of
    remaining tokens as [n], [p] does not run out of fuel. *)
Definition Safe {A} (n : nat) (p : Parser.M A) : Prop :=
  forall toks pos,
    pos <= List.length toks -> List.length toks < n + pos ->
    p toks pos <> Err Parser.ParseOutOfFuel.

(** The operator [matchAny] finds when the next token is [t]. *)
Fixpoint firstMatch (operators : list (TokenType * string)) (t : Token)
  : option string :=
  match operators with
  | [] => None
  | (ty, op) :: others =>
      if Parser.tokenIs ty (Some op) t then Some op else firstMatch others t
  end.

(** *** Lexemes *)

Fixpoint forallChars (f : ascii -> bool) (s : string) : bool :=
  match s with
  | EmptyString => true
  | String c r => f c && forallChars f r
  end.

Fixpoint countChars (f : ascii -> bool) (s : string) : nat :=
  match s with
  | EmptyString => 0
  | String c r => (if f c then 1 else 0) + countChars f r
  end.

Definition startsWith (f : ascii -> bool) (s : string) : bool :=
  match s with
  | EmptyString => false
  | String c _ => f c
  end.

(** The body of a string literal that denotes [s]: every quote of [s]
    written twice. *)
Fixpoint escapeQuotes (s : string) : string :=
  match s with
  | EmptyString => EmptyString
  | String c r =>
      if Lexer.isQuote c
      then String c (String c (escapeQuotes r))
      else String c (escapeQuotes r)
  end.

(** What may follow the body of a literal: nothing, or the closing
    quote and a remainder that does not start with a quote. *)
Definition closes (tail : string) : Prop :=
  tail = ""
  \/ exists rest,
       tail = String "'" rest /\ startsWith Lexer.isQuote rest = false.

(** ** Sample inputs *)

Module Samples.

Import IntHost.

(** The tokens of a query that the analyzer accepts. *)
Definition tokensOf (query : string) : list Token :=
  match Lexer.lexicalAnalysis query with
  | Ok tokens => tokens
  | Err _ => []
  end.

Definition usersRows : Executor.Table :=
  [ [("id", VNumber 1%Z); ("name", VString "Alice");
     ("email", VString "alice@example.com")];
    [("id", VNumber 2%Z); ("name", VString "Bob");
     ("email", VString "bob@example.com")] ].

Definition aliceRow : Executor.Row :=
  [("id", VNumber 1%Z); ("name", VString "Alice");
   ("email", VString "alice@example.com")].

(** [id = 1 AND (name = 'Alice' OR name = 'Bob')] *)
Definition nestedCondition : Expr :=
  BinaryExpression "AND"
    (BinaryExpression "=" (Identifier "id") (Literal "1" NUMBER))
    (BinaryExpression "OR"
       (BinaryExpression "=" (Identifier "name") (Literal "Alice" STRING))
       (BinaryExpression "=" (Identifier "name") (Literal "Bob" STRING))).

(** The value tuple of the INSERT template. *)
Definition charlie : list Token :=
  [ mkToken NUMBER "3" 44; mkToken STRING "Charlie" 47;
    mkToken STRING "charlie@example.com" 58 ].

(** An UPDATE that no query text parses to: its second value is a
    KEYWORD token. *)
Definition updateWithKeywordValue : Statement :=
  UPDATE "users"
    [ mkAssignment "email" (mkToken STRING "x@example.com" 0);
      mkAssignment "id" (mkToken KEYWORD "NULL" 0) ]
    None.

End Samples.

(** ** The editor's [executeQuery] ([SQLEditor.js], lines 31-44)

    The three stages in sequence for any host.  The component keeps the
    result, the parse tree and the error message in React state; here
    the function returns the result or the error of the stage that threw,
    next to the store. *)

Module Editor.

Inductive QueryError : Type :=
| LexicalFailure (e : Lexer.LexError)
| SyntaxFailure (e : Parser.ParseError)
| RuntimeFailure (e : Executor.ExecError).

Section WithHost.

Context `{HostCompare}.

Definition executeQuery (query : string) (db : Executor.Store)
  : Res QueryError Executor.ExecutionResult * Executor.Store :=
  match Lexer.lexicalAnalysis query with
  | Err e => (Err (LexicalFailure e), db)
  | Ok tokens =>
      match Parser.parseSQL tokens with
      | Err e => (Err (SyntaxFailure e), db)
      | Ok ast =>
          match Executor.executeAST ast db with
          | (Ok r, db') => (Ok r, db')
          | (Err e, db') => (Err (RuntimeFailure e), db')
          end
      end
  end.

End WithHost.

End Editor.

(** ** Vocabulary of the executor's properties *)

Section ExecutorVocabulary.

Context `{HostCompare}.

(** The WHERE expression is truthy on the row. *)
Definition holds (w : Expr) (row : Executor.Row) : bool :=
  match Executor.evaluateExpression row w with
  | Ok v => Executor.toBoolean v
  | Err _ => false
  end.


(** The WHERE clause, if any, evaluates without throwing on every row of
    the table. *)
Definition evaluable (where_ : option Expr) (table : Executor.Table)
  : Prop :=
  forall w row, where_ = Some w -> In row table ->
    exists v, Executor.evaluateExpression row w = Ok v.



End ExecutorVocabulary.

(** The table a statement names. *)
Definition tableOf (ast : Statement) : option string :=
  match ast with
  | SELECT _ t _ | INSERT t _ _ | UPDATE t _ _ | DELETE t _ => Some t
  | SHOW_TABLES => None
  end.

(** The expressions on which the evaluator does not throw: an operand
    [parseValue] converts, or a comparison, AND or OR of two of them. *)
Definition isConvertible (e : Expr) : bool :=
  match e with
  | Identifier _ => true
  | Literal _ (NUMBER | STRING | IDENTIFIER) => true
  | _ => false
  end.

Definition isSupported (e : Expr) : bool :=
  match e with
  | BinaryExpression op l r =>
      has comparisonOrLogical op && isConvertible l && isConvertible r
  | _ => isConvertible e
  end.

(** ** Vocabulary of the analyzer's properties *)

(** The token kinds the analyzer produces. *)
Definition isLexicalKind (ty : TokenType) : bool :=
  match ty with
  | WHITESPACE | ERROR => false
  | _ => true
  end.

(** Strictly increasing numbers. *)
Fixpoint increasing (l : list nat) : Prop :=
  match l with
  | a :: (b :: _) as rest => a < b /\ increasing rest
  | _ => True
  end.

(** ** Writing statements as tokens

    A printer for the parser to be checked against: the tokens of an
    expression with the parentheses its tree needs, and the tokens of a
    statement.  Positions play no part in parsing and are set to zero;
    value positions of INSERT and UPDATE keep the tokens they hold. *)

Module Printer.

Definition keyword (text : string) : Token := mkToken KEYWORD text 0.
Definition identifier (text : string) : Token := mkToken IDENTIFIER text 0.
Definition punctuation (text : string) : Token := mkToken PUNCTUATION text 0.
Definition operator (text : string) : Token := mkToken OPERATOR text 0.

Definition comma : Token := punctuation ",".

(** The level of the grammar that builds a node with this operator. *)
Definition levelOf (op : string) : nat :=
  if String.eqb op "OR" then 0
  else if String.eqb op "AND" then 1
  else if String.eqb op "=" || String.eqb op "<>" then 2
  else if String.eqb op "<" || String.eqb op ">"
          || String.eqb op "<=" || String.eqb op ">=" then 3
  else if String.eqb op "+" || String.eqb op "-" then 4
  else 5.

Definition operatorToken (op : string) : Token :=
  if (levelOf op <? 2)%nat then keyword op else operator op.

(** The tokens of [e] where a phrase of level [lvl] is expected:
    parentheses are written around a node of a lower level. *)
Fixpoint unparseExpression (lvl : nat) (e : Expr) : list Token :=
  match e with
  | Identifier name => [identifier name]
  | Literal text valueType => [mkToken valueType text 0]
  | BinaryExpression op l r =>
      let k := levelOf op in
      let body :=
        unparseExpression k l ++ operatorToken op :: unparseExpression (S k) r
      in
      if (lvl <=? k)%nat then body
      else punctuation "(" :: body ++ [punctuation ")"]
  end.

(** Items with a comma between each two. *)
Fixpoint separate (items : list (list Token)) : list Token :=
  match items with
  | [] => []
  | [item] => item
  | item :: others => item ++ comma :: separate others
  end.

Definition unparseWhere (where_ : option Expr) : list Token :=
  match where_ with
  | Some e => keyword "WHERE" :: unparseExpression 0 e
  | None => []
  end.

Definition columnToken (col : string) : Token :=
  if String.eqb col "*" then operator "*" else identifier col.

Definition tuple (values : list Token) : list Token :=
  punctuation "(" :: separate (map (fun v => [v]) values)
    ++ [punctuation ")"].

Definition assignment (a : Assignment) : list Token :=
  [identifier (column a); operator "="; assignedValue a].

Definition unparse (ast : Statement) : list Token :=
  match ast with
  | SELECT columns table where_ =>
      keyword "SELECT"
        :: separate (map (fun c => [columnToken c]) columns)
        ++ [keyword "FROM"; identifier table] ++ unparseWhere where_
  | INSERT table columns valuesList =>
      [keyword "INSERT"; keyword "INTO"; identifier table]
        ++ match columns with
           | [] => []
           | _ => punctuation "("
                    :: separate (map (fun c => [identifier c]) columns)
                    ++ [punctuation ")"]
           end
        ++ keyword "VALUES" :: separate (map tuple valuesList)
  | UPDATE table assignments where_ =>
      [keyword "UPDATE"; identifier table; keyword "SET"]
        ++ separate (map assignment assignments) ++ unparseWhere where_
  | DELETE table where_ =>
      [keyword "DELETE"; keyword "FROM"; identifier table]
        ++ unparseWhere where_
  | SHOW_TABLES => [keyword "SHOW"; keyword "TABLES"]
  end.

End Printer.

(** The statements the grammar can build: a WHERE expression is a
    grammar tree, a SELECT lists at least one column, and value
    positions are as [Grammatical] says, with at least one assignment in
    an UPDATE. *)
Definition whereFromGrammar (where_ : option Expr) : Prop :=
  forall e, where_ = Some e -> grammarTree e = true.

Definition FromGrammar (ast : Statement) : Prop :=
  Grammatical ast
  /\ match ast with
     | SELECT columns _ where_ => columns <> [] /\ whereFromGrammar where_
     | UPDATE _ assignments where_ =>
         assignments <> [] /\ whereFromGrammar where_
     | DELETE _ where_ => whereFromGrammar where_
     | _ => True
     end.

(** [Reads n P p tokens x]: wherever [tokens] stand in an array, followed
    by a remainder that satisfies [P], with [n] more than the number of
    tokens from there on, [p] returns [x] and stops after [tokens]. *)
Definition Reads {A} (n : nat) (P : list Token -> Prop) (p : Parser.M A)
  (tokens : list Token) (x : A) : Prop :=
  forall pre rest,
    P rest ->
    List.length (pre ++ tokens ++ rest) < n + List.length pre ->
    p (pre ++ tokens ++ rest) (List.length pre)
      = Ok (x, List.length pre + List.length tokens).

(** The remainder does not start with a token that passes the test. *)
Definition notNext (ty : TokenType) (val : option string)
  (rest : list Token) : Prop :=
  match rest with
  | t :: _ => Parser.tokenIs ty val t = false
  | [] => True
  end.

(** ** More sample inputs *)

Module MoreSamples.

Import IntHost.

(** [id = 1] *)
Definition idIsOne : Expr :=
  BinaryExpression "=" (Identifier "id") (Literal "1" NUMBER).

Definition bobRow : Executor.Row :=
  [("id", VNumber 2%Z); ("name", VString "Bob");
   ("email", VString "bob@example.com")].

(** [SET name = 'Al'] *)
Definition renameToAl : list Assignment :=
  [ mkAssignment "name" (mkToken STRING "Al" 0) ].

(** [(a + b) * c = d AND e < 1], which needs its parentheses. *)
Definition productCondition : Expr :=
  BinaryExpression "AND"
    (BinaryExpression "="
       (BinaryExpression "*"
          (BinaryExpression "+" (Identifier "a") (Identifier "b"))
          (Identifier "c"))
       (Identifier "d"))
    (BinaryExpression "<" (Identifier "e") (Literal "1" NUMBER)).

End MoreSamples.

(** * Properties *)

Import Executor.

(** ** Objects as association lists *)

Lemma lookup_assign_same {A} (obj : list (string * A)) key v :
  lookup key (assign obj key v) = Some v.
Proof.
  induction obj as [|[k w] rest IH]; simpl.
  - now rewrite String.eqb_refl.
  - destruct (String.eqb k key) eqn:E; simpl; rewrite E; auto.
Qed.

Lemma lookup_assign_other {A} (obj : list (string * A)) key key' v :
  key' <> key -> lookup key' (assign obj key v) = lookup key' obj.
Proof.
  intros Hne. induction obj as [|[k w] rest IH]; simpl.
  - destruct (String.eqb key key') eqn:E; auto.
    apply String.eqb_eq in E. congruence.
  - destruct (String.eqb k key) eqn:E; simpl.
    + apply String.eqb_eq in E. subst k.
      destruct (String.eqb key key') eqn:E'; auto.
      apply String.eqb_eq in E'. congruence.
    + now rewrite IH.
Qed.

(** Writing back the value a property already has changes nothing. *)
Lemma assign_same {A} (obj : list (string * A)) key v :
  lookup key obj = Some v -> assign obj key v = obj.
Proof.
  induction obj as [|[k w] rest IH]; simpl; [discriminate|].
  destruct (String.eqb k key) eqn:E.
  - now intros [= ->].
  - intros Hl. now rewrite IH.
Qed.

Section ExecutorProperties.

Context `{HostCompare}.

(** ** DELETE *)

Lemma filterRows_never (rows : Table) :
  filterRows (retains None) rows = Ok [].
Proof.
  induction rows as [|row rest IH]; simpl; auto.
  now rewrite IH.
Qed.

(** C1 (as amended): a DELETE without a WHERE clause, run against a store
    that has the table, removes every row: the table is left empty and
    the reported count is the number of rows the table had. *)
Theorem delete_without_where_removes_all
  (tableName : string) (db : Store) (rows : Table) :
  lookup tableName db = Some rows ->
  executeAST (DELETE tableName None) db
    = (Ok (Deleted (List.length rows) tableName), assign db tableName [])
  /\ lookup tableName (assign db tableName []) = Some [].
Proof.
  intros Hl. split.
  - simpl. unfold executeDelete. rewrite Hl, filterRows_never.
    simpl. now rewrite Nat.sub_0_r.
  - apply lookup_assign_same.
Qed.

(** ** SELECT *)

(** C2 (as amended): a SELECT whose column list contains ['*'], run
    against a store in which the table exists with no rows, fails and
    returns no result; the error is the host's TypeError for
    [Object.keys(undefined)], whatever the WHERE clause. *)
Theorem select_star_empty_table_fails
  (columns : list string) (tableName : string) (where_ : option Expr)
  (db : Store) :
  lookup tableName db = Some [] ->
  includes columns "*" = true ->
  executeAST (SELECT columns tableName where_) db
    = (Err (HostTypeError "Cannot convert undefined or null to object"), db).
Proof.
  intros Hl Hstar. simpl. unfold executeSelect. rewrite Hl, Hstar.
  destruct where_; reflexivity.
Qed.

(** ** INSERT *)

Lemma parseValue_converted (token : Token) (v : Value) :
  parseValue token = Ok v -> v = converted token.
Proof.
  unfold parseValue, parseValueOf, converted.
  destruct (type token); intros [= <-] || discriminate; reflexivity.
Qed.

Lemma parseValue_value_token (token : Token) :
  isValueToken token = true -> parseValue token = Ok (converted token).
Proof.
  unfold parseValue, parseValueOf, converted, isValueToken.
  destruct (type token); intros; reflexivity || discriminate.
Qed.

(** Columns that [fillRecord] does not visit keep what the record had. *)
Lemma fillRecord_other columns : forall values index record row c,
  fillRecord columns values index record = Ok row ->
  ~ In c columns -> lookup c row = lookup c record.
Proof.
  induction columns as [|col others IH]; simpl; intros values index record row c.
  - now intros [= ->].
  - destruct (nth_error values index) as [token|]; [|discriminate].
    destruct (parseValue token) as [v|]; simpl; [|discriminate].
    intros Hfill Hnot. rewrite (IH _ _ _ _ _ Hfill) by tauto.
    apply lookup_assign_other. intros ->. tauto.
Qed.

Lemma fillRecord_keys columns : forall values index record row c v,
  fillRecord columns values index record = Ok row ->
  lookup c row = Some v -> In c columns \/ lookup c record = Some v.
Proof.
  induction columns as [|col others IH]; simpl; intros values index record row c v.
  - intros [= ->]. auto.
  - destruct (nth_error values index) as [token|]; [|discriminate].
    destruct (parseValue token) as [w|]; simpl; [|discriminate].
    intros Hfill Hl. destruct (IH _ _ _ _ _ _ Hfill Hl) as [Hin|Hrec]; auto.
    destruct (string_dec col c) as [->|Hne]; auto.
    right. rewrite lookup_assign_other in Hrec; auto.
Qed.

(** The cell of a column is the converted value at the column's
    position, the last position winning when a name is repeated. *)
Lemma fillRecord_cell columns : forall values index record row j col token,
  fillRecord columns values index record = Ok row ->
  nth_error columns j = Some col ->
  nth_error values (index + j) = Some token ->
  (forall j', j < j' -> nth_error columns j' <> Some col) ->
  lookup col row = Some (converted token).
Proof.
  induction columns as [|c others IH]; simpl;
    intros values index record row j col token Hfill Hj Hv Hlast.
  - destruct j; discriminate.
  - destruct (nth_error values index) as [t0|] eqn:E0; [|discriminate].
    destruct (parseValue t0) as [w|] eqn:Ew; simpl in Hfill; [|discriminate].
    destruct j as [|j]; simpl in Hj.
    + injection Hj as ->. rewrite Nat.add_0_r in Hv.
      assert (t0 = token) by congruence. subst t0.
      rewrite (fillRecord_other _ _ _ _ _ Hfill).
      * rewrite lookup_assign_same. f_equal.
        now apply parseValue_converted.
      * intros Hin. apply In_nth_error in Hin as [n Hn].
        apply (Hlast (S n)); [lia | exact Hn].
    + apply (IH _ _ _ _ j col token Hfill Hj).
      * now rewrite Nat.add_succ_comm.
      * intros j' Hlt. apply (Hlast (S j')). lia.
Qed.

Lemma fillRecord_total columns : forall values index record,
  Forall (fun t => isValueToken t = true) values ->
  index + List.length columns <= List.length values ->
  exists row, fillRecord columns values index record = Ok row.
Proof.
  induction columns as [|c others IH]; simpl; intros values index record Hall Hlen.
  - eauto.
  - destruct (nth_error values index) as [t0|] eqn:E0.
    + rewrite parseValue_value_token; simpl.
      * apply IH; auto. lia.
      * rewrite Forall_forall in Hall. apply Hall.
        eapply nth_error_In; eauto.
    + apply nth_error_None in E0. lia.
Qed.

Lemma buildRecord_total columns values :
  Forall (fun t => isValueToken t = true) values ->
  List.length values = List.length columns ->
  exists row, buildRecord columns values = Ok row.
Proof.
  intros Hall Hlen. unfold buildRecord.
  rewrite Hlen, Nat.eqb_refl. apply fillRecord_total; auto. simpl. lia.
Qed.

Lemma buildRecord_mismatch columns values :
  List.length values <> List.length columns ->
  buildRecord columns values = Err ColumnCountMismatch.
Proof.
  intros Hne. unfold buildRecord.
  destruct (Nat.eqb_spec (List.length columns) (List.length values)); congruence.
Qed.

Lemma buildRecords_mismatch columns valuesList :
  Forall (Forall (fun t => isValueToken t = true)) valuesList ->
  (exists values, In values valuesList
                  /\ List.length values <> List.length columns) ->
  buildRecords columns valuesList = Err ColumnCountMismatch.
Proof.
  induction valuesList as [|values others IH]; intros Hall [bad [Hin Hbad]].
  - destruct Hin.
  - inversion Hall as [|? ? Hhead Htail]; subst. simpl.
    destruct (Nat.eq_dec (List.length values) (List.length columns)) as [Heq|Hne].
    + destruct (buildRecord_total columns Hhead Heq) as [row ->]. simpl.
      rewrite IH; auto. destruct Hin as [->|Hin]; [tauto | eauto].
    + now rewrite buildRecord_mismatch.
Qed.

Lemma buildRecords_total columns valuesList :
  Forall (Forall (fun t => isValueToken t = true)) valuesList ->
  Forall (fun values => List.length values = List.length columns) valuesList ->
  exists newRecords,
    buildRecords columns valuesList = Ok newRecords
    /\ Forall2 (fun values row => buildRecord columns values = Ok row)
         valuesList newRecords.
Proof.
  induction valuesList as [|values others IH]; intros Hall Hlen; simpl.
  - eauto.
  - inversion Hall; inversion Hlen; subst.
    destruct (buildRecord_total columns) with (values := values)
      as [row Hrow]; auto.
    destruct IH as [rows [Hrows Hall2]]; auto.
    rewrite Hrow, Hrows. simpl. eauto.
Qed.

Lemma Forall2_nth_error {A B} (P : A -> B -> Prop) xs ys :
  Forall2 P xs ys ->
  forall i x y, nth_error xs i = Some x -> nth_error ys i = Some y -> P x y.
Proof.
  induction 1 as [|x0 y0 xs ys Hp Hrest IH]; intros [|i] x y; simpl;
    try discriminate.
  - now intros [= <-] [= <-].
  - apply IH.
Qed.

(** C5: an INSERT with a column list, run against a store that has the
    table, with value tokens in its tuples.  A tuple whose length differs
    from the column list's makes the statement fail with the column-count
    mismatch.  Otherwise there is one new row per tuple, in the tuples'
    order, appended after the table's rows; the reported count is the
    number of tuples; every key of a new row is one of the columns, and
    the cell of a column is the converted token at the column's position
    (a NUMBER token becomes the number [parseFloat] reads from it). *)
Theorem insert_with_column_list
  (tableName : string) (columns : list string)
  (valuesList : list (list Token)) (db : Store) (rows : Table) :
  lookup tableName db = Some rows ->
  Forall (Forall (fun t => isValueToken t = true)) valuesList ->
  ((exists values, In values valuesList
                   /\ List.length values <> List.length columns) ->
   executeAST (INSERT tableName columns valuesList) db
     = (Err ColumnCountMismatch, db))
  /\
  (Forall (fun values => List.length values = List.length columns)
     valuesList ->
   exists newRecords,
     executeAST (INSERT tableName columns valuesList) db
       = (Ok (Inserted (List.length valuesList) tableName),
          assign db tableName (rows ++ newRecords))
     /\ lookup tableName (assign db tableName (rows ++ newRecords))
          = Some (rows ++ newRecords)
     /\ List.length newRecords = List.length valuesList
     /\ forall i values row,
          nth_error valuesList i = Some values ->
          nth_error newRecords i = Some row ->
          (forall c v, lookup c row = Some v -> In c columns)
          /\ (forall j col token,
                nth_error columns j = Some col ->
                nth_error values j = Some token ->
                (forall j', j < j' -> nth_error columns j' <> Some col) ->
                lookup col row = Some (converted token)
                /\ (type token = NUMBER ->
                    lookup col row
                      = Some (VNumber (parseFloat (value token)))))).
Proof.
  intros Hl Hall. split.
  - intros Hbad. simpl. unfold executeInsert.
    now rewrite Hl, buildRecords_mismatch.
  - intros Hlen.
    destruct (buildRecords_total columns Hall Hlen) as [newRecords [Hb Hall2]].
    exists newRecords. simpl. unfold executeInsert. rewrite Hl, Hb.
    split; [reflexivity|]. split; [apply lookup_assign_same|].
    split; [symmetry; eapply Forall2_length; eauto|].
    intros i values row Hvalues Hrow.
    pose proof (Forall2_nth_error Hall2 _ Hvalues Hrow) as Hbuild.
    unfold buildRecord in Hbuild.
    destruct (Nat.eqb _ _); [|discriminate].
    split.
    + intros c v Hc.
      destruct (fillRecord_keys _ _ _ _ _ Hbuild Hc) as [Hin|Hnil]; auto.
      discriminate.
    + intros j col token Hcol Htoken Hlast.
      assert (Hcell : lookup col row = Some (converted token))
        by (eapply fillRecord_cell; eauto).
      split; [exact Hcell|].
      intros Hnum. rewrite Hcell. unfold converted. now rewrite Hnum.
Qed.

Lemma buildRecords_no_columns valuesList :
  (exists values, In values valuesList /\ values <> []) ->
  buildRecords [] valuesList = Err ColumnCountMismatch.
Proof.
  induction valuesList as [|values others IH]; intros [bad [Hin Hbad]].
  - destruct Hin.
  - simpl. destruct values as [|t ts].
    + cbn. rewrite IH; auto.
      destruct Hin as [<-|Hin]; [congruence | eauto].
    + reflexivity.
Qed.

(** C9: an INSERT whose column list is empty (the parenthesised list was
    omitted) and which has at least one non-empty tuple, run against a
    store that has the table, fails with the column-count mismatch and
    leaves the store as it was. *)
Theorem insert_without_column_list_fails
  (tableName : string) (valuesList : list (list Token)) (db : Store)
  (rows : Table) :
  lookup tableName db = Some rows ->
  (exists values, In values valuesList /\ values <> []) ->
  executeAST (INSERT tableName [] valuesList) db
    = (Err ColumnCountMismatch, db).
Proof.
  intros Hl Hne. simpl. unfold executeInsert.
  now rewrite Hl, buildRecords_no_columns.
Qed.

(** ** The evaluator

    Whether [getValue] and [evaluateExpression] throw depends on the
    expression only, never on the row. *)

Lemma getValue_uniform (operand : Expr) :
  (forall row, exists v, getValue row operand = Ok v
                         /\ evaluateExpression row operand = Ok v)
  \/ (exists x, forall row, getValue row operand = Err x).
Proof.
  destruct operand as [op l r|name|text ty]; simpl.
  - right. eauto.
  - left. eauto.
  - destruct (parseValueLiteral text ty) eqn:E; [left|right]; eauto.
Qed.

Lemma evaluateExpression_uniform (expression : Expr) :
  (forall row, exists v, evaluateExpression row expression = Ok v)
  \/ (exists x, forall row, evaluateExpression row expression = Err x).
Proof.
  destruct expression as [op l r|name|text ty]; simpl.
  - destruct (getValue_uniform l) as [Hl|[x Hl]];
      [|right; exists x; intros row; now rewrite Hl].
    destruct (getValue_uniform r) as [Hr|[x Hr]].
    + destruct (has comparisonOrLogical op) eqn:Hop.
      * left. intros row.
        destruct (Hl row) as [vl [-> El]], (Hr row) as [vr [-> Er]]. simpl.
        rewrite El, Er. simpl.
        revert Hop. unfold has, comparisonOrLogical. simpl.
        repeat (destruct (String.eqb op _)); simpl; intros Hop;
          try discriminate; try destruct (toBoolean vl); eauto.
      * right. exists (UnsupportedOperator op). intros row.
        destruct (Hl row) as [vl [-> El]], (Hr row) as [vr [-> Er]]. simpl.
        revert Hop. unfold has, comparisonOrLogical. simpl.
        repeat (destruct (String.eqb op _)); simpl; intros Hop;
          try discriminate; reflexivity.
    + right. exists x. intros row.
      destruct (Hl row) as [vl [-> El]]. simpl. now rewrite Hr.
  - left. eauto.
  - destruct (parseValueLiteral text ty) eqn:E; [left|right]; eauto.
Qed.

Lemma selects_uniform (where_ : option Expr) :
  (forall row, exists b, selects where_ row = Ok b)
  \/ (exists x, forall row, selects where_ row = Err x).
Proof.
  destruct where_ as [w|]; simpl; [|left; eauto].
  destruct (evaluateExpression_uniform w) as [Hw|[x Hw]].
  - left. intros row. destruct (Hw row) as [v ->]. simpl. eauto.
  - right. exists x. intros row. now rewrite Hw.
Qed.

(** ** UPDATE *)

Lemma applyAssignments_value_tokens assignments : forall row,
  forallb (fun a => isValueToken (assignedValue a)) assignments = true ->
  fst (applyAssignments assignments row) = None.
Proof.
  induction assignments as [|a others IH]; simpl; intros row Hall; auto.
  apply andb_true_iff in Hall as [Ha Hothers].
  rewrite parseValue_value_token; auto.
Qed.

Lemma updateRows_total assignments where_ :
  forallb (fun a => isValueToken (assignedValue a)) assignments = true ->
  (forall row, exists b, selects where_ row = Ok b) ->
  forall rows n, exists k,
    fst (updateRows assignments where_ rows n) = Ok k.
Proof.
  intros Hall Hsel. induction rows as [|row rest IH]; simpl; intros n.
  - eauto.
  - destruct (Hsel row) as [b ->]. destruct b.
    + pose proof (applyAssignments_value_tokens assignments row Hall) as Ha.
      destruct (applyAssignments assignments row) as [o row'].
      simpl in Ha. subst o.
      destruct (IH (S n)) as [k Hk].
      destruct (updateRows assignments where_ rest (S n)). simpl in *. eauto.
    + destruct (IH n) as [k Hk].
      destruct (updateRows assignments where_ rest n). simpl in *. eauto.
Qed.

Lemma updateRows_where_throws assignments where_ x :
  (forall row, selects where_ row = Err x) ->
  forall rows n, snd (updateRows assignments where_ rows n) = rows.
Proof.
  intros Hsel [|row rest] n; simpl; auto. now rewrite Hsel.
Qed.

(** With value tokens in the assignments, an UPDATE that throws has
    written to no row. *)
Lemma updateRows_error_unwritten assignments where_ rows n x written :
  forallb (fun a => isValueToken (assignedValue a)) assignments = true ->
  updateRows assignments where_ rows n = (Err x, written) ->
  written = rows.
Proof.
  intros Hall Hu. destruct (selects_uniform where_) as [Hsel|[y Hsel]].
  - destruct (updateRows_total _ _ Hall Hsel rows n) as [k Hk].
    rewrite Hu in Hk. discriminate.
  - pose proof (updateRows_where_throws assignments where_ Hsel rows n) as Hs.
    now rewrite Hu in Hs.
Qed.

(** C3: for every statement whose UPDATE assignments hold value tokens
    (what the grammar builds) and every store, if execution throws,
    whatever the error, the store afterwards is the store before. *)
Theorem failing_statement_leaves_store
  (ast : Statement) (db : Store) (e : ExecError) (db' : Store) :
  assignsValues ast = true ->
  executeAST ast db = (Err e, db') ->
  db' = db.
Proof.
  intros Hwf. destruct ast as [cols t w|t cols vl|t asg w|t w|]; simpl.
  - now intros [= _ <-].
  - unfold executeInsert. destruct (lookup t db); [|now intros [= _ <-]].
    destruct (buildRecords cols vl); [discriminate | now intros [= _ <-]].
  - unfold executeUpdate.
    destruct (lookup t db) as [tableData|] eqn:Hl; [|now intros [= _ <-]].
    destruct (updateRows asg w tableData 0) as [[k|x] written] eqn:Hu;
      [discriminate|].
    intros [= _ <-].
    apply updateRows_error_unwritten in Hu; auto. subst written.
    now apply assign_same.
  - unfold executeDelete. destruct (lookup t db); [|now intros [= _ <-]].
    destruct (filterRows _ _); [discriminate | now intros [= _ <-]].
  - discriminate.
Qed.

(** ** Expressions the evaluator supports *)

Lemma getValue_grammar_operand row (operand : Expr) :
  isOperand operand = true -> grammarTree operand = true ->
  exists v, getValue row operand = Ok v
            /\ evaluateExpression row operand = Ok v.
Proof.
  destruct operand as [op l r|name|text ty]; simpl; try discriminate; eauto.
  intros _. destruct ty; try discriminate; cbn; eauto.
Qed.

Lemma shallow_evaluates row (e : Expr) :
  grammarTree e = true -> isShallow e = true ->
  exists v, evaluateExpression row e = Ok v.
Proof.
  destruct e as [op l r|name|text ty].
  - simpl. intros Hg Hs.
    apply andb_true_iff in Hg as [Hg Hgr]. apply andb_true_iff in Hg as [_ Hgl].
    apply andb_true_iff in Hs as [Hs Hr]. apply andb_true_iff in Hs as [Hop Hl].
    destruct (getValue_grammar_operand row l Hl Hgl) as [vl [-> El]].
    destruct (getValue_grammar_operand row r Hr Hgr) as [vr [-> Er]].
    simpl. rewrite El, Er. simpl.
    revert Hop. unfold has, comparisonOrLogical. simpl.
    repeat (destruct (String.eqb op _)); simpl; intros Hop;
      try discriminate; try destruct (toBoolean vl); eauto.
  - simpl. eauto.
  - intros Hg _.
    destruct (getValue_grammar_operand row (Literal text ty) eq_refl Hg)
      as [v [_ Hv]]. eauto.
Qed.

Lemma arithmetic_unsupported row (e : Expr) :
  grammarTree e = true -> isArithmetic e = true ->
  evaluateExpression row e = Err (UnsupportedOperator (rootOperator e)).
Proof.
  destruct e as [op l r|name|text ty]; simpl; try discriminate.
  intros Hg Hs.
  apply andb_true_iff in Hg as [Hg Hgr]. apply andb_true_iff in Hg as [_ Hgl].
  apply andb_true_iff in Hs as [Hs Hr]. apply andb_true_iff in Hs as [Hop Hl].
  destruct (getValue_grammar_operand row l Hl Hgl) as [vl [-> El]].
  destruct (getValue_grammar_operand row r Hr Hgr) as [vr [-> Er]].
  simpl. unfold has, arithmetic in Hop. simpl in Hop.
  repeat (apply orb_true_iff in Hop as [Hop|Hop]); try discriminate;
    apply String.eqb_eq in Hop; subst op; reflexivity.
Qed.

End ExecutorProperties.

(** ** What the parser returns *)

Import Parser.

Lemma Post_ret {A} (P : A -> Prop) a : P a -> Post P (ret a).
Proof. intros Ha toks pos b pos' [= <- _]. exact Ha. Qed.

Lemma Post_throw {A} (P : A -> Prop) e : Post P (throw e).
Proof. intros toks pos b pos'. discriminate. Qed.

Lemma Post_bind {A B} (Q : A -> Prop) (P : B -> Prop) p f :
  Post Q p -> (forall a, Q a -> Post P (f a)) -> Post P (bind p f).
Proof.
  intros Hp Hf toks pos b pos'. unfold bind.
  destruct (p toks pos) as [[a pos1]|] eqn:E; [|discriminate].
  intros Hb. eapply Hf; eauto.
Qed.

Lemma Post_any {A} (p : M A) : Post (fun _ => True) p.
Proof. intros toks pos a pos' _. exact I. Qed.

Lemma Post_matchAny operators :
  Post (fun o => forall op, o = Some op -> In op (map snd operators))
    (matchAny operators).
Proof.
  induction operators as [|[ty op] others IH]; simpl.
  - apply Post_ret. discriminate.
  - eapply Post_bind; [apply Post_any|]. intros [|] _.
    + apply Post_ret. intros op' [= <-]. now left.
    + intros toks pos o pos' Ho op' Hop. right. eapply IH; eauto.
Qed.

Lemma Post_binaryLoop operators operand :
  (forall op, In op (map snd operators) -> has grammarOperators op = true) ->
  Post (fun e => grammarTree e = true) operand ->
  forall fuel left, grammarTree left = true ->
    Post (fun e => grammarTree e = true)
      (binaryLoop operators operand fuel left).
Proof.
  intros Hops Hoperand. induction fuel as [|fuel IH]; simpl; intros left Hleft.
  - apply Post_throw.
  - eapply Post_bind; [apply Post_matchAny|]. intros [op|] Hop.
    + eapply Post_bind; [exact Hoperand|]. intros right Hright.
      apply IH. cbn [grammarTree]. rewrite Hops, Hleft, Hright; auto.
    + now apply Post_ret.
Qed.

Lemma Post_parsePrimary rec :
  Post (fun e => grammarTree e = true) rec ->
  Post (fun e => grammarTree e = true) (parsePrimary rec).
Proof.
  intros Hrec. unfold parsePrimary.
  eapply Post_bind; [apply Post_any|]. intros [t|] _; [|apply Post_throw].
  destruct (type t) eqn:Et;
    try (eapply Post_bind; [apply Post_any|]; intros _ _; apply Post_ret;
         simpl; now rewrite ?Et);
    (eapply Post_bind; [apply Post_any|]; intros [|] _;
     [ eapply Post_bind; [exact Hrec|]; intros e He;
       eapply Post_bind; [apply Post_any|]; intros _ _; now apply Post_ret
     | eapply Post_bind; [apply Post_any|]; intros; apply Post_throw ]).
Qed.

Lemma Post_level_step k operand fuel :
  k < 6 ->
  Post (fun e => grammarTree e = true) operand ->
  Post (fun e => grammarTree e = true)
    (left <- operand ;; binaryLoop (levelOperators k) operand fuel left).
Proof.
  intros Hk Hop. eapply Post_bind; [exact Hop|]. intros left Hleft.
  apply Post_binaryLoop; auto.
  intros op Hin.
  do 6 (destruct k as [|k]; [simpl in Hin; intuition (subst; reflexivity)|]).
  lia.
Qed.

Lemma Post_parseExpression fuel :
  Post (fun e => grammarTree e = true) (parseExpression fuel).
Proof.
  induction fuel as [|fuel IH]; simpl; [apply Post_throw|].
  unfold parseLogicalOr, parseLogicalAnd, parseEquality, parseRelational,
    parseAdditive, parseMultiplicative.
  apply (@Post_level_step 0); [lia|].
  apply (@Post_level_step 1); [lia|].
  apply (@Post_level_step 2); [lia|].
  apply (@Post_level_step 3); [lia|].
  apply (@Post_level_step 4); [lia|].
  apply (@Post_level_step 5); [lia|].
  now apply Post_parsePrimary.
Qed.

(** *** Value positions *)

Lemma Post_parseValue : Post (fun t => isValueToken t = true) parseValue.
Proof.
  intros toks pos t pos'.
  unfold parseValue, bind, peek, consume, ret, throw, getPosition.
  destruct (nth_error toks pos) as [t0|]; [|discriminate].
  unfold isValueToken.
  destruct (type t0) eqn:Ety; try discriminate;
    intros [= <- _]; now rewrite Ety.
Qed.

Lemma Post_doWhileComma {A} (P : A -> Prop) (item : M A) :
  Post P item ->
  forall fuel acc, Forall P acc ->
    Post (fun l => l <> [] /\ Forall P l) (doWhileComma fuel item acc).
Proof.
  intros Hitem. induction fuel as [|fuel IH]; simpl; intros acc Hacc.
  - apply Post_throw.
  - eapply Post_bind; [exact Hitem|]. intros x Hx.
    assert (Hacc' : Forall P (acc ++ [x]))
      by (apply Forall_app; split; [exact Hacc | now constructor]).
    eapply Post_bind; [apply Post_any|]. intros [|] _.
    + now apply IH.
    + apply Post_ret. split; [|exact Hacc'].
      destruct acc; discriminate.
Qed.

Lemma Post_parseValuesList fuel :
  Post (fun valuesList =>
          valuesList <> []
          /\ Forall (fun values =>
                       values <> []
                       /\ Forall (fun t => isValueToken t = true) values)
               valuesList)
    (parseValuesList fuel).
Proof.
  unfold parseValuesList. apply Post_doWhileComma; [|constructor].
  eapply Post_bind; [apply Post_any|]. intros _ _.
  eapply Post_bind;
    [apply Post_doWhileComma; [apply Post_parseValue | constructor]|].
  intros values Hvalues.
  eapply Post_bind; [apply Post_any|]. intros _ _. now apply Post_ret.
Qed.

Lemma Post_parseAssignments fuel :
  Post (Forall (fun a => isValueToken (assignedValue a) = true))
    (parseAssignments fuel).
Proof.
  intros toks pos l pos' Hrun.
  apply (@Post_doWhileComma _
           (fun a => isValueToken (assignedValue a) = true)) in Hrun;
    [tauto | | constructor].
  eapply Post_bind; [apply Post_any|]. intros col _.
  eapply Post_bind; [apply Post_any|]. intros _ _.
  eapply Post_bind; [apply Post_parseValue|]. intros v Hv.
  now apply Post_ret.
Qed.

Lemma parseShow_result toks pos ast pos' :
  parseShow toks pos = Ok (ast, pos') -> ast = SHOW_TABLES.
Proof.
  revert toks pos ast pos'.
  change (Post (fun ast => ast = SHOW_TABLES) parseShow).
  unfold parseShow.
  eapply Post_bind; [apply Post_any|]. intros _ _.
  eapply Post_bind; [apply Post_any|]. intros [|] _.
  - eapply Post_bind; [apply Post_any|]. intros _ _. now apply Post_ret.
  - eapply Post_bind; [apply Post_any|]. intros [t|] _; apply Post_throw.
Qed.

Lemma Post_parse fuel : Post Grammatical (parse fuel).
Proof.
  unfold parse. eapply Post_bind; [apply Post_any|].
  intros [t|] _; [|apply Post_throw].
  repeat match goal with
         | |- Post _ (if ?b then _ else _) => destruct b
         end.
  - unfold parseSelect.
    repeat (eapply Post_bind; [apply Post_any|]; intros ? _).
    now apply Post_ret.
  - unfold parseInsert.
    do 5 (eapply Post_bind; [apply Post_any|]; intros ? _).
    eapply Post_bind; [apply Post_any|]. intros _ _.
    eapply Post_bind; [apply Post_parseValuesList|]. intros vl Hvl.
    now apply Post_ret.
  - unfold parseUpdate.
    do 3 (eapply Post_bind; [apply Post_any|]; intros ? _).
    eapply Post_bind; [apply Post_parseAssignments|]. intros asg Hasg.
    eapply Post_bind; [apply Post_any|]. intros w _. now apply Post_ret.
  - unfold parseDelete.
    repeat (eapply Post_bind; [apply Post_any|]; intros ? _).
    now apply Post_ret.
  - intros toks pos ast pos' Hrun. apply parseShow_result in Hrun.
    now subst ast.
  - apply Post_throw.
Qed.

(** Every statement [parseSQL] returns is grammatical. *)
Lemma parseSQL_grammatical tokens ast :
  parseSQL tokens = Ok ast -> Grammatical ast.
Proof.
  unfold parseSQL, run.
  destruct (parse _ tokens 0) as [[ast' n]|e] eqn:E; [|discriminate].
  intros [= <-]. eapply Post_parse; eauto.
Qed.

(** In particular the assignments of a parsed UPDATE hold value
    tokens. *)
Lemma parseSQL_assigns_values tokens ast :
  parseSQL tokens = Ok ast -> assignsValues ast = true.
Proof.
  intros Hparse. apply parseSQL_grammatical in Hparse.
  destruct ast; simpl in *; auto.
  apply forallb_forall. rewrite Forall_forall in Hparse. exact Hparse.
Qed.

(** ** Parsing is local *)

Lemma agree_le toks toks' n m : agree toks toks' n -> m <= n -> agree toks toks' m.
Proof. intros Hag Hle i Hi. apply Hag. lia. Qed.

Lemma nth_error_lt {A} (l : list A) n x :
  nth_error l n = Some x -> n < List.length l.
Proof. intros E. apply nth_error_Some. congruence. Qed.

Lemma plain_other_type ty val : ty <> PUNCTUATION -> plain ty val.
Proof.
  intros Hty t. unfold tokenIs.
  destruct (type t), ty; simpl; congruence.
Qed.

Lemma plain_punctuation v :
  v <> "" -> String.eqb (toUpperCase v) ";" = false ->
  plain PUNCTUATION (Some v).
Proof.
  intros Hne Hv t. unfold tokenIs, valueAgrees.
  destruct (TokenType_eqb (type t) PUNCTUATION); simpl; auto.
  destruct v as [|c v]; [congruence|].
  intros Heq. apply String.eqb_eq in Heq.
  change (toUpperCase ";") with ";". now rewrite Heq.
Qed.

Ltac solve_plain :=
  first [ apply plain_other_type; discriminate
        | apply plain_punctuation; [discriminate | reflexivity] ].

Lemma Local_ret {A} (a : A) : Local (ret a).
Proof. intros toks pos b pos' [= <- <-]. split; [lia | reflexivity]. Qed.

Lemma Local_throw {A} e : Local (@throw A e).
Proof. intros toks pos b pos'. discriminate. Qed.

Lemma Local_bind {A B} (p : M A) (f : A -> M B) :
  Local p -> (forall a, Local (f a)) -> Local (bind p f).
Proof.
  intros Hp Hf toks pos b pos'. unfold bind.
  destruct (p toks pos) as [[a pos1]|] eqn:E; [|discriminate].
  intros Hb. destruct (Hp _ _ _ _ E) as [Hle1 Hp'].
  destruct (Hf a _ _ _ _ Hb) as [Hle2 Hf']. split; [lia|].
  intros toks' Hag. rewrite Hp'; [|eapply agree_le; eauto; lia]. now apply Hf'.
Qed.

(** What a test sees at a position where the two arrays may differ. *)
Lemma agree_test toks toks' n pos ty val :
  plain ty val -> agree toks toks' n -> pos <= n ->
  match nth_error toks pos with
  | Some t => tokenIs ty val t = true -> nth_error toks' pos = Some t
  | None => True
  end
  /\ ((forall t, nth_error toks pos = Some t -> tokenIs ty val t = false) ->
      forall t', nth_error toks' pos = Some t' -> tokenIs ty val t' = false).
Proof.
  intros Hplain Hag Hle. destruct (Hag pos Hle) as [Heq|[Hi Hi']]; split.
  - destruct (nth_error toks pos); intros; auto.
  - intros Hno t' Ht'. rewrite <- Heq in Ht'. auto.
  - destruct (nth_error toks pos) as [t|]; auto. simpl in Hi.
    intros Ht. apply Hplain in Ht. congruence.
  - intros _ t' Ht'. rewrite Ht' in Hi'. simpl in Hi'.
    destruct (tokenIs ty val t') eqn:E; auto.
    apply Hplain in E. congruence.
Qed.

Lemma Local_matchToken ty val : plain ty val -> Local (matchToken ty val).
Proof.
  intros Hplain toks pos b pos'.
  unfold matchToken, bind, peek, consume, ret.
  destruct (nth_error toks pos) as [t|] eqn:Et.
  - pose proof (nth_error_lt _ _ Et) as Hlt.
    destruct (tokenIs ty val t) eqn:Em; intros [= <- <-]; (split; [lia|]);
      intros toks' Hag.
    + destruct (@agree_test toks toks' (S pos) pos ty val) as [Hyes _];
        auto. rewrite Et in Hyes. rewrite (Hyes Em), Em. reflexivity.
    + destruct (@agree_test toks toks' pos pos ty val) as [_ Hno]; auto.
      destruct (nth_error toks' pos) as [t'|] eqn:Et'; auto.
      rewrite (Hno (fun t0 H0 => ltac:(congruence)) t' eq_refl). reflexivity.
  - intros [= <- <-]. split; [lia|]. intros toks' Hag.
    destruct (@agree_test toks toks' pos pos ty val) as [_ Hno]; auto.
    destruct (nth_error toks' pos) as [t'|] eqn:Et'; auto.
    rewrite (Hno (fun t0 H0 => ltac:(congruence)) t' eq_refl). reflexivity.
Qed.

Lemma Local_expect ty val : plain ty val -> Local (expect ty val).
Proof.
  intros Hplain toks pos b pos'.
  unfold expect, bind, peek, consume, ret, throw.
  destruct (nth_error toks pos) as [t|] eqn:Et; [|discriminate].
  pose proof (nth_error_lt _ _ Et) as Hlt.
  destruct (tokenIs ty val t) eqn:Em; [|discriminate].
  intros [= <- <-]. split; [lia|]. intros toks' Hag.
  destruct (@agree_test toks toks' (S pos) pos ty val) as [Hyes _]; auto.
  rewrite Et in Hyes. rewrite (Hyes Em), Em. reflexivity.
Qed.

(** A token that is not punctuation is the same in both arrays. *)
Lemma agree_not_punctuation toks toks' n pos t :
  agree toks toks' n -> pos <= n ->
  nth_error toks pos = Some t -> type t <> PUNCTUATION ->
  nth_error toks' pos = Some t.
Proof.
  intros Hag Hle Et Hty. destruct (Hag pos Hle) as [Heq|[Hi _]].
  - congruence.
  - rewrite Et in Hi. simpl in Hi. unfold tokenIs in Hi.
    destruct (type t); simpl in Hi; congruence.
Qed.

Lemma Local_parseValue : Local parseValue.
Proof.
  intros toks pos b pos'.
  unfold parseValue, bind, peek, consume, ret, throw, getPosition.
  destruct (nth_error toks pos) as [t|] eqn:Et; [|discriminate].
  pose proof (nth_error_lt _ _ Et) as Hlt.
  destruct (type t) eqn:Ety; try discriminate;
    intros [= <- <-]; (split; [lia|]); intros toks' Hag;
    rewrite (@agree_not_punctuation toks toks' (S pos) pos t), Ety;
    auto; congruence.
Qed.

Lemma Local_doWhileComma {A} (item : M A) :
  Local item -> forall fuel acc, Local (doWhileComma fuel item acc).
Proof.
  intros Hitem. induction fuel as [|fuel IH]; simpl; intros acc.
  - apply Local_throw.
  - apply Local_bind; [exact Hitem|]. intros x.
    apply Local_bind; [apply Local_matchToken; solve_plain|].
    intros [|]; [apply IH | apply Local_ret].
Qed.

Lemma Local_matchAny operators :
  Forall (fun o => plain (fst o) (Some (snd o))) operators ->
  Local (matchAny operators).
Proof.
  induction 1 as [|[ty op] others Hp Hrest IH]; simpl.
  - apply Local_ret.
  - apply Local_bind; [now apply Local_matchToken|].
    intros [|]; [apply Local_ret | exact IH].
Qed.

Lemma Local_binaryLoop operators operand :
  Forall (fun o => plain (fst o) (Some (snd o))) operators ->
  Local operand ->
  forall fuel left, Local (binaryLoop operators operand fuel left).
Proof.
  intros Hops Hoperand. induction fuel as [|fuel IH]; simpl; intros left.
  - apply Local_throw.
  - apply Local_bind; [now apply Local_matchAny|]. intros [op|].
    + apply Local_bind; [exact Hoperand|]. intros right. apply IH.
    + apply Local_ret.
Qed.

Lemma plain_levelOperators k :
  Forall (fun o => plain (fst o) (Some (snd o))) (levelOperators k).
Proof.
  do 6 (destruct k as [|k]; [repeat constructor; solve_plain|]).
  constructor.
Qed.

(** [parsePrimary] with its [peek] and its switch on the token type
    spelled out. *)
Lemma parsePrimary_unfold rec toks pos :
  parsePrimary rec toks pos =
  match nth_error toks pos with
  | None => Err UnexpectedEndOfInput
  | Some t =>
      match type t with
      | IDENTIFIER => Ok (Identifier (value t), S pos)
      | NUMBER | STRING => Ok (Literal (value t) (type t), S pos)
      | _ =>
          (paren <- matchToken PUNCTUATION (Some "(") ;;
           if paren then
             expression <- rec ;;
             expect PUNCTUATION (Some ")") ;;;
             ret expression
           else
             pos <- getPosition ;; throw (UnexpectedToken t pos)) toks pos
      end
  end.
Proof.
  unfold parsePrimary at 1. unfold bind at 1. unfold peek.
  destruct (nth_error toks pos) as [t|]; [|reflexivity].
  destruct (type t); reflexivity.
Qed.

Lemma Local_parenthesised rec t :
  Local rec ->
  @Local Expr
        (paren <- matchToken PUNCTUATION (Some "(") ;;
         if paren then
           expression <- rec ;;
           expect PUNCTUATION (Some ")") ;;;
           ret expression
         else
           pos <- getPosition ;; throw (UnexpectedToken t pos)).
Proof.
  intros Hrec. apply Local_bind; [apply Local_matchToken; solve_plain|].
  intros [|].
  - apply Local_bind; [exact Hrec|]. intros e.
    apply Local_bind; [apply Local_expect; solve_plain|]. intros _.
    apply Local_ret.
  - intros toks pos a pos'. discriminate.
Qed.

Lemma Local_parsePrimary rec : Local rec -> Local (parsePrimary rec).
Proof.
  intros Hrec toks pos e pos' Hrun.
  rewrite parsePrimary_unfold in Hrun.
  destruct (nth_error toks pos) as [t|] eqn:Et; [|discriminate].
  pose proof (nth_error_lt _ _ Et) as Hlt.
  assert (Hsimple : type t <> PUNCTUATION ->
            forall toks', agree toks toks' pos' -> pos <= pos' ->
            nth_error toks' pos = Some t)
    by (intros; eapply agree_not_punctuation; eauto).
  destruct (type t) eqn:Ety;
    try (injection Hrun as <- <-; (split; [lia|]); intros toks' Hag;
         rewrite parsePrimary_unfold, Hsimple, Ety;
         [reflexivity | discriminate | exact Hag | lia]);
    (pose proof (@Local_parenthesised rec t Hrec _ _ _ _ Hrun) as [Hle Hloc];
     split; [exact Hle|]; intros toks' Hag;
     assert (Hopen : tokenIs PUNCTUATION (Some "(") t = true)
       by (pose proof Hrun as Hc; unfold matchToken, bind, peek in Hc;
           rewrite Et in Hc;
           destruct (tokenIs PUNCTUATION (Some "(") t);
           [reflexivity | cbn in Hc; discriminate Hc]);
     unfold tokenIs in Hopen; rewrite Ety in Hopen; try discriminate).
  rewrite parsePrimary_unfold.
  destruct (@agree_test toks toks' pos' pos PUNCTUATION (Some "("))
    as [Hyes _]; auto; [solve_plain | lia |].
  rewrite Et in Hyes. rewrite Hyes, Ety; auto.
  unfold tokenIs. now rewrite Ety.
Qed.

Lemma Local_level_step k operand fuel :
  Local operand ->
  Local (left <- operand ;; binaryLoop (levelOperators k) operand fuel left).
Proof.
  intros Hop. apply Local_bind; [exact Hop|]. intros left.
  apply Local_binaryLoop; auto. apply plain_levelOperators.
Qed.

Lemma Local_parseExpression fuel : Local (parseExpression fuel).
Proof.
  induction fuel as [|fuel IH]; simpl; [apply Local_throw|].
  apply (@Local_level_step 0), (@Local_level_step 1), (@Local_level_step 2),
    (@Local_level_step 3), (@Local_level_step 4), (@Local_level_step 5).
  now apply Local_parsePrimary.
Qed.

Ltac local_step :=
  first
    [ apply Local_ret
    | apply Local_throw
    | apply Local_matchToken; solve_plain
    | apply Local_expect; solve_plain
    | apply Local_parseValue
    | apply Local_parseExpression
    | apply Local_doWhileComma
    | apply Local_bind; [|intros ?]
    | match goal with
      | |- Local (if ?b then _ else _) => destruct b
      end ].

Ltac local := repeat local_step.








(** ** More fuel changes nothing *)










(** ** The fuel given by [run] is never exhausted *)

Lemma Safe_weaken {A} (p : M A) n m : n <= m -> Safe m p -> Safe n p.
Proof. intros Hle Hp toks pos Hb Hlen. apply Hp; lia. Qed.

Lemma Safe_never {A} (p : M A) n :
  (forall toks pos, p toks pos <> Err ParseOutOfFuel) -> Safe n p.
Proof. intros Hp toks pos _ _. apply Hp. Qed.

Lemma Safe_ret {A} (a : A) n : Safe n (ret a).
Proof. apply Safe_never. discriminate. Qed.

Lemma Safe_bind {A B} (p : M A) (f : A -> M B) n :
  Local p -> Safe n p -> (forall a, Safe n (f a)) -> Safe n (bind p f).
Proof.
  intros Hloc Hp Hf toks pos Hb Hlen. unfold bind.
  destruct (p toks pos) as [[a pos1]|e] eqn:E.
  - destruct (Hloc _ _ _ _ E) as [Hle _]. apply Hf; lia.
  - intros [= ->]. now apply (Hp toks pos).
Qed.

Lemma matchToken_cases ty val toks pos :
  matchToken ty val toks pos = Ok (false, pos)
  \/ (matchToken ty val toks pos = Ok (true, S pos)
      /\ pos < List.length toks).
Proof.
  unfold matchToken, bind, peek, consume, ret.
  destruct (nth_error toks pos) as [t|] eqn:Et; auto.
  destruct (tokenIs ty val t); auto.
  right. split; auto. eapply nth_error_lt; eauto.
Qed.

Lemma expect_never ty val toks pos :
  expect ty val toks pos <> Err ParseOutOfFuel.
Proof.
  unfold expect, bind, peek, consume, ret, throw.
  destruct (nth_error toks pos) as [t|]; [|discriminate].
  destruct (tokenIs ty val t); discriminate.
Qed.

Lemma parseValue_never toks pos : parseValue toks pos <> Err ParseOutOfFuel.
Proof.
  unfold parseValue, bind, peek, consume, ret, throw, getPosition.
  destruct (nth_error toks pos) as [t|]; [|discriminate].
  destruct (type t); discriminate.
Qed.

(** A successful [match] has consumed a token, which pays for one unit
    of fuel. *)
Lemma Safe_match {A} ty val (k : bool -> M A) n :
  Safe n (k true) -> Safe (S n) (k false) ->
  Safe (S n) (bind (matchToken ty val) k).
Proof.
  intros Htrue Hfalse toks pos Hb Hlen. unfold bind.
  destruct (matchToken_cases ty val toks pos) as [->|[-> Hlt]].
  - now apply Hfalse.
  - apply Htrue; lia.
Qed.

Lemma Safe_doWhileComma {A} (item : M A) n :
  Local item -> Safe n item ->
  forall fuel acc, fuel <= n -> Safe fuel (doWhileComma fuel item acc).
Proof.
  intros Hloc Hitem. induction fuel as [|fuel IH]; intros acc Hle.
  - intros toks pos Hb Hlen. lia.
  - simpl. apply Safe_bind; auto.
    + eapply Safe_weaken; eauto.
    + intros x. apply Safe_match; [apply IH; lia | apply Safe_ret].
Qed.

Lemma matchAny_cases operators toks pos :
  matchAny operators toks pos = Ok (None, pos)
  \/ (exists op, matchAny operators toks pos = Ok (Some op, S pos)
                 /\ pos < List.length toks).
Proof.
  induction operators as [|[ty op] others IH]; simpl; auto.
  unfold bind. destruct (matchToken_cases ty (Some op) toks pos) as [->|[-> Hlt]].
  - exact IH.
  - right. exists op. auto.
Qed.

Lemma Safe_binaryLoop operators operand n :
  Local operand -> Safe n operand ->
  forall fuel left, fuel <= n ->
    Safe fuel (binaryLoop operators operand fuel left).
Proof.
  intros Hloc Hop. induction fuel as [|fuel IH]; intros left Hle.
  - intros toks pos Hb Hlen. lia.
  - intros toks pos Hb Hlen. simpl. unfold bind at 1.
    destruct (matchAny_cases operators toks pos) as [->|[op [-> Hlt]]].
    + discriminate.
    + unfold bind.
      destruct (operand toks (S pos)) as [[right pos2]|e] eqn:E.
      * destruct (Hloc _ _ _ _ E) as [Hle2 _]. apply IH; lia.
      * intros [= ->]. apply (Hop toks (S pos)); auto; lia.
Qed.

Lemma Safe_parsePrimary rec n :
  Local rec -> Safe n rec -> Safe (S n) (parsePrimary rec).
Proof.
  intros Hloc Hrec toks pos Hb Hlen. rewrite parsePrimary_unfold.
  destruct (nth_error toks pos) as [t|]; [|discriminate].
  assert (Hparen : @Safe Expr (S n)
            (paren <- matchToken PUNCTUATION (Some "(") ;;
             if paren then
               expression <- rec ;;
               expect PUNCTUATION (Some ")") ;;;
               ret expression
             else
               pos <- getPosition ;; throw (UnexpectedToken t pos))).
  { apply Safe_match.
    - apply Safe_bind; auto. intros e. apply Safe_bind.
      + apply Local_expect; solve_plain.
      + apply Safe_never, expect_never.
      + intros _. apply Safe_ret.
    - apply Safe_never. discriminate. }
  destruct (type t); try discriminate; now apply Hparen.
Qed.

Lemma Safe_level_step k operand n :
  Local operand -> Safe n operand ->
  Safe n (left <- operand ;; binaryLoop (levelOperators k) operand n left).
Proof.
  intros Hloc Hop. apply Safe_bind; auto. intros left.
  apply Safe_binaryLoop with (n := n); auto.
Qed.

(** Each level of [parseExpression (S fuel)] is local. *)
Lemma Local_level k fuel : Local (level k fuel).
Proof.
  assert (H6 : Local (parsePrimary (parseExpression fuel)))
    by apply Local_parsePrimary, Local_parseExpression.
  assert (H5 := @Local_level_step 5 _ (S fuel) H6).
  assert (H4 := @Local_level_step 4 _ (S fuel) H5).
  assert (H3 := @Local_level_step 3 _ (S fuel) H4).
  assert (H2 := @Local_level_step 2 _ (S fuel) H3).
  assert (H1 := @Local_level_step 1 _ (S fuel) H2).
  assert (H0 := @Local_level_step 0 _ (S fuel) H1).
  do 6 (destruct k as [|k]; [assumption|]). exact H6.
Qed.

Lemma Safe_parseExpression fuel : Safe fuel (parseExpression fuel).
Proof.
  induction fuel as [|fuel IH].
  - intros toks pos Hb Hlen. lia.
  - change (parseExpression (S fuel)) with (level 0 fuel).
    assert (H6 : Safe (S fuel) (level 6 fuel))
      by (apply Safe_parsePrimary; auto using Local_parseExpression).
    assert (H5 := @Safe_level_step 5 _ _ (Local_level 6 fuel) H6).
    assert (H4 := @Safe_level_step 4 _ _ (Local_level 5 fuel) H5).
    assert (H3 := @Safe_level_step 3 _ _ (Local_level 4 fuel) H4).
    assert (H2 := @Safe_level_step 2 _ _ (Local_level 3 fuel) H3).
    assert (H1 := @Safe_level_step 1 _ _ (Local_level 2 fuel) H2).
    exact (@Safe_level_step 0 _ _ (Local_level 1 fuel) H1).
Qed.

Lemma matchToken_never ty val toks pos :
  matchToken ty val toks pos <> Err ParseOutOfFuel.
Proof.
  destruct (matchToken_cases ty val toks pos) as [->|[-> _]]; discriminate.
Qed.

Ltac safe_step :=
  first
    [ apply Safe_ret
    | apply Safe_never, expect_never
    | apply Safe_never, parseValue_never
    | apply Safe_never, matchToken_never
    | apply Safe_parseExpression
    | match goal with
      | |- Safe ?n (doWhileComma ?n _ _) =>
          apply Safe_doWhileComma with (n := n); [now local | | lia]
      | |- Safe _ (if ?b then _ else _) => destruct b
      end
    | apply Safe_bind; [now local | | intros ?]
    | apply Safe_never; discriminate ].

Ltac safe := repeat safe_step.

Lemma Safe_parseSelect n : Safe n (parseSelect n).
Proof. unfold parseSelect, parseColumnList, parseWhere. safe. Qed.

Lemma Safe_parseInsert n : Safe n (parseInsert n).
Proof. unfold parseInsert, parseIdentifierList, parseValuesList. safe. Qed.

Lemma Safe_parseUpdate n : Safe n (parseUpdate n).
Proof. unfold parseUpdate, parseAssignments, parseWhere. safe. Qed.

Lemma Safe_parseDelete n : Safe n (parseDelete n).
Proof. unfold parseDelete, parseWhere. safe. Qed.

Lemma parseShow_never toks pos : parseShow toks pos <> Err ParseOutOfFuel.
Proof.
  unfold parseShow. unfold bind at 1.
  destruct (expect KEYWORD (Some "SHOW") toks pos) as [[s pos1]|e] eqn:E;
    [|intros [= ->]; now apply (@expect_never KEYWORD (Some "SHOW") toks pos)].
  unfold bind at 1.
  destruct (matchToken_cases KEYWORD (Some "TABLES") toks pos1)
    as [->|[-> _]].
  - unfold bind, peek, throw. destruct (nth_error toks pos1); discriminate.
  - unfold bind.
    destruct (matchToken_cases PUNCTUATION (Some ";") toks (S pos1))
      as [->|[-> _]]; discriminate.
Qed.

Lemma Safe_parse n : Safe n (parse n).
Proof.
  intros toks pos Hb Hlen. unfold parse, bind at 1, peek.
  destruct (nth_error toks pos) as [t|]; [|discriminate].
  repeat match goal with
         | |- (if ?b then _ else _) _ _ <> _ => destruct b
         end.
  - now apply Safe_parseSelect.
  - now apply Safe_parseInsert.
  - now apply Safe_parseUpdate.
  - now apply Safe_parseDelete.
  - apply parseShow_never.
  - discriminate.
Qed.

(** [run] and [parseSQL] never report the artefact: the fuel they give
    to [parse] is enough for every token array. *)
Lemma run_fuel tokens : run tokens <> Err ParseOutOfFuel.
Proof. unfold run. apply Safe_parse; lia. Qed.

Lemma parseSQL_fuel tokens : parseSQL tokens <> Err ParseOutOfFuel.
Proof.
  unfold parseSQL. pose proof (run_fuel tokens) as Hrun.
  destruct (run tokens) as [[ast n]|e]; [discriminate|].
  intros [= ->]. now apply Hrun.
Qed.



(** ** Tokens after a statement *)





(** ** The parser against the grammar *)

Lemma level_unfold k fuel :
  k < 6 ->
  level k fuel
  = (left <- level (S k) fuel ;;
     binaryLoop (levelOperators k) (level (S k) fuel) (S fuel) left).
Proof.
  intros Hk. do 6 (destruct k as [|k]; [reflexivity|]). lia.
Qed.

Lemma nth_error_middle {A} (pre : list A) x rest :
  nth_error (pre ++ x :: rest) (List.length pre) = Some x.
Proof. rewrite nth_error_app2, Nat.sub_diag by lia. reflexivity. Qed.

(** The token at the position where [more] starts. *)
Lemma nth_error_more {A} (consumed more : list A) :
  nth_error (consumed ++ more) (List.length consumed) = nth_error more 0.
Proof. rewrite nth_error_app2, Nat.sub_diag by lia. reflexivity. Qed.

Lemma matchToken_false ty val toks pos :
  (forall t, nth_error toks pos = Some t -> tokenIs ty val t = false) ->
  matchToken ty val toks pos = Ok (false, pos).
Proof.
  intros Hno. unfold matchToken, bind, peek, consume, ret.
  destruct (nth_error toks pos) as [t|]; auto.
  now rewrite (Hno t eq_refl).
Qed.

Lemma matchAny_none operators toks pos :
  (forall t, nth_error toks pos = Some t ->
     existsb (fun o => tokenIs (fst o) (Some (snd o)) t) operators = false) ->
  matchAny operators toks pos = Ok (None, pos).
Proof.
  induction operators as [|[ty op] others IH]; simpl; intros Hno; auto.
  unfold bind. rewrite matchToken_false.
  - apply IH. intros t Ht. apply Hno in Ht.
    now apply orb_false_iff in Ht as [_ Hrest].
  - intros t Ht. apply Hno in Ht. now apply orb_false_iff in Ht as [Hhere _].
Qed.

Lemma continues_false k j t :
  continues k t = false -> k <= j -> j < 6 ->
  existsb (fun o => tokenIs (fst o) (Some (snd o)) t) (levelOperators j)
    = false.
Proof.
  intros Hc Hkj Hj.
  destruct (existsb _ (levelOperators j)) eqn:E; auto.
  assert (Hyes : continues k t = true); [|congruence].
  unfold continues. apply existsb_exists. exists j. split.
  - do 6 (destruct j as [|j]; [simpl; tauto|]). lia.
  - rewrite E. apply andb_true_iff. split; auto. now apply Nat.leb_le.
Qed.

Lemma stops_le k k' more : stops k more = true -> k <= k' -> stops k' more = true.
Proof.
  destruct more as [|t rest]; simpl; auto. intros Hs Hle.
  apply negb_true_iff in Hs. apply negb_true_iff.
  destruct (continues k' t) eqn:E; auto.
  unfold continues in E. apply existsb_exists in E as [j [Hin Hj]].
  apply andb_true_iff in Hj as [Hle' Hex]. apply Nat.leb_le in Hle'.
  rewrite <- Hs. symmetry. unfold continues. apply existsb_exists.
  exists j. split; auto. rewrite Hex. apply andb_true_iff. split; auto.
  apply Nat.leb_le. lia.
Qed.

Lemma matchAny_stop j k more toks pos :
  stops k more = true -> k <= j -> j < 6 ->
  nth_error toks pos = nth_error more 0 ->
  matchAny (levelOperators j) toks pos = Ok (None, pos).
Proof.
  intros Hs Hkj Hj Hhead. apply matchAny_none. intros t Ht.
  rewrite Hhead in Ht. destruct more as [|t' rest]; [discriminate|].
  simpl in Ht, Hs. injection Ht as ->.
  apply negb_true_iff in Hs. eapply continues_false; eauto.
Qed.

Lemma matchAny_firstMatch operators toks pos t :
  nth_error toks pos = Some t ->
  matchAny operators toks pos
  = Ok (match firstMatch operators t with
        | Some op => (Some op, S pos)
        | None => (None, pos)
        end).
Proof.
  intros Et. induction operators as [|[ty op] others IH]; simpl; auto.
  unfold bind. unfold matchToken at 1. unfold bind, peek, consume, ret.
  rewrite Et. destruct (tokenIs ty (Some op) t); auto.
Qed.

Lemma matchAny_hit k ty op t toks pos :
  In (ty, op) (levelOperators k) -> type t = ty -> value t = op ->
  nth_error toks pos = Some t ->
  matchAny (levelOperators k) toks pos = Ok (Some op, S pos).
Proof.
  intros Hin Hty Hval Et. rewrite (@matchAny_firstMatch _ toks pos t Et).
  destruct t as [ty' v' p']. simpl in Hty, Hval. subst ty' v'.
  do 6 (destruct k as [|k];
        [simpl in Hin;
         repeat (destruct Hin as [[= <- <-]|Hin]; [reflexivity|]);
         destruct Hin|]).
  destruct Hin.
Qed.

(** An operator of level [k] is none of a higher level. *)
Lemma operator_stops k ty op t rest :
  In (ty, op) (levelOperators k) -> type t = ty -> value t = op ->
  stops (S k) (t :: rest) = true.
Proof.
  intros Hin Hty Hval. destruct t as [ty' v' p']. simpl in Hty, Hval.
  subst ty' v'.
  do 6 (destruct k as [|k];
        [simpl in Hin;
         repeat (destruct Hin as [[= <- <-]|Hin]; [reflexivity|]);
         destruct Hin|]).
  destruct Hin.
Qed.

Lemma close_stops close rest :
  type close = PUNCTUATION -> stops 0 (close :: rest) = true.
Proof.
  intros Hty. destruct close as [ty' v' p']. simpl in Hty. subst ty'.
  reflexivity.
Qed.

Lemma levelOperators_lt k o : In o (levelOperators k) -> k < 6.
Proof.
  intros Hin. do 6 (destruct k as [|k]; [lia|]). destruct Hin.
Qed.

Lemma binaryLoop_exit operators operand fuel left toks pos :
  matchAny operators toks pos = Ok (None, pos) ->
  binaryLoop operators operand (S fuel) left toks pos = Ok (left, pos).
Proof. intros Hm. simpl. unfold bind. now rewrite Hm. Qed.

Lemma binaryLoop_step operators operand fuel left toks pos op right pos2 :
  matchAny operators toks pos = Ok (Some op, S pos) ->
  operand toks (S pos) = Ok (right, pos2) ->
  binaryLoop operators operand (S fuel) left toks pos
  = binaryLoop operators operand fuel (BinaryExpression op left right)
      toks pos2.
Proof. intros Hm Hop. simpl. unfold bind. now rewrite Hm, Hop. Qed.

Lemma tokenIs_exact ty v t :
  type t = ty -> value t = v -> tokenIs ty (Some v) t = true.
Proof.
  intros Hty Hv. unfold tokenIs, valueAgrees. rewrite Hty, Hv.
  destruct ty; simpl; destruct v; auto using String.eqb_refl.
Qed.

Lemma matchToken_true_at ty val toks pos t :
  nth_error toks pos = Some t -> tokenIs ty val t = true ->
  matchToken ty val toks pos = Ok (true, S pos).
Proof.
  intros Et Hm. unfold matchToken, bind, peek, consume, ret.
  now rewrite Et, Hm.
Qed.

Lemma expect_at ty val toks pos t :
  nth_error toks pos = Some t -> tokenIs ty val t = true ->
  expect ty val toks pos = Ok (t, S pos).
Proof.
  intros Et Hm. unfold expect, bind, peek, consume, ret.
  now rewrite Et, Hm.
Qed.

Ltac assoc :=
  repeat first [rewrite <- app_assoc | progress simpl app]; reflexivity.

(** The parser computes the tree the grammar assigns.  The second part
    is the invariant of a level's loop: after a level-[k] phrase the
    loop holds its tree as [left], whatever follows. *)
Lemma derives_parses k tokens e :
  Derives k tokens e ->
  forall fuel pre more T,
    T = pre ++ tokens ++ more ->
    List.length T < S fuel + List.length pre ->
    (stops k more = true ->
     level k fuel T (List.length pre)
       = Ok (e, List.length pre + List.length tokens))
    /\ (k < 6 -> stops (S k) more = true ->
        exists phi,
          S fuel + List.length pre
            <= phi + (List.length pre + List.length tokens)
          /\ level k fuel T (List.length pre)
             = binaryLoop (levelOperators k) (level (S k) fuel) phi e T
                 (List.length pre + List.length tokens)).
Proof.
  induction 1 as
    [ t Hty
    | t Hty
    | open close tokens e Hopen Hopenv Hclose Hclosev Hd IH
    | k tokens e Hk Hd IH
    | k ty op t ltokens rtokens l r Hin Hty Hval Hl IHl Hr IHr ];
    intros fuel pre more T HT Hlen.
  - split; [|lia]. intros _.
    change (level 6 fuel) with (parsePrimary (parseExpression fuel)).
    rewrite parsePrimary_unfold. subst T. simpl app.
    rewrite nth_error_middle, Hty. simpl. do 2 f_equal. lia.
  - split; [|lia]. intros _.
    change (level 6 fuel) with (parsePrimary (parseExpression fuel)).
    rewrite parsePrimary_unfold. subst T. simpl app.
    rewrite nth_error_middle.
    destruct Hty as [Hty|Hty]; rewrite Hty; simpl; do 2 f_equal; lia.
  - split; [|lia]. intros _.
    assert (HT1 : T = pre ++ open :: (tokens ++ close :: more))
      by (subst T; assoc).
    assert (HT2 : T = (pre ++ [open]) ++ tokens ++ close :: more)
      by (subst T; assoc).
    assert (HT3 : T = ((pre ++ [open]) ++ tokens) ++ close :: more)
      by (subst T; assoc).
    assert (Hlen1 : List.length (pre ++ [open]) = S (List.length pre))
      by (rewrite length_app; simpl; lia).
    assert (Hlen2 : List.length ((pre ++ [open]) ++ tokens)
                    = S (List.length pre) + List.length tokens)
      by (rewrite length_app, Hlen1; lia).
    assert (HlenT : List.length T
                    = S (List.length pre) + List.length tokens
                      + S (List.length more))
      by (rewrite HT3, length_app, Hlen2; simpl; lia).
    destruct fuel as [|fuel]; [lia|].
    change (level 6 (S fuel))
      with (parsePrimary (parseExpression (S fuel))).
    rewrite parsePrimary_unfold.
    assert (Eo : nth_error T (List.length pre) = Some open)
      by (rewrite HT1; apply nth_error_middle).
    rewrite Eo, Hopen. unfold bind at 1.
    rewrite (@matchToken_true_at _ _ _ _ _ Eo (@tokenIs_exact _ _ _ Hopen Hopenv)).
    unfold bind at 1. change (parseExpression (S fuel)) with (level 0 fuel).
    destruct (IH fuel (pre ++ [open]) (close :: more) T HT2) as [Hfull _];
      [rewrite Hlen1; lia|].
    rewrite Hlen1 in Hfull. rewrite Hfull by now apply close_stops.
    assert (Ec : nth_error T (S (List.length pre) + List.length tokens)
                 = Some close)
      by (rewrite <- Hlen2, HT3; apply nth_error_middle).
    unfold bind.
    rewrite (@expect_at _ _ _ _ _ Ec (@tokenIs_exact _ _ _ Hclose Hclosev)).
    unfold ret. do 2 f_equal. simpl. rewrite length_app. simpl. lia.
  - assert (Hloop : stops (S k) more = true ->
              level k fuel T (List.length pre)
              = binaryLoop (levelOperators k) (level (S k) fuel) (S fuel) e
                  T (List.length pre + List.length tokens)).
    { intros Hs. rewrite level_unfold by exact Hk. unfold bind.
      destruct (IH fuel pre more T HT Hlen) as [Hfull _].
      now rewrite Hfull. }
    split.
    + intros Hs. rewrite Hloop by (eapply stops_le; eauto).
      apply binaryLoop_exit.
      apply matchAny_stop with (k := k) (more := more); auto.
      subst T. rewrite app_assoc, <- length_app. apply nth_error_more.
    + intros _ Hs. exists (S fuel). split; [lia | now apply Hloop].
  - pose proof (@levelOperators_lt _ _ Hin) as Hk.
    assert (HT1 : T = pre ++ ltokens ++ t :: (rtokens ++ more))
      by (subst T; assoc).
    assert (HT2 : T = (pre ++ ltokens) ++ t :: (rtokens ++ more))
      by (subst T; assoc).
    assert (HT3 : T = (pre ++ ltokens ++ [t]) ++ rtokens ++ more)
      by (subst T; assoc).
    assert (Hlen3 : List.length (pre ++ ltokens ++ [t])
                    = S (List.length pre + List.length ltokens))
      by (rewrite !length_app; simpl; lia).
    assert (HlenT : List.length T
                    = S (List.length pre + List.length ltokens)
                      + List.length rtokens + List.length more)
      by (rewrite HT3, length_app, Hlen3, length_app; lia).
    assert (Hend : List.length pre + List.length (ltokens ++ t :: rtokens)
                   = S (List.length pre + List.length ltokens)
                     + List.length rtokens)
      by (rewrite length_app; simpl; lia).
    assert (Hloop : stops (S k) more = true ->
              exists phi,
                S fuel + List.length pre
                  <= phi + (List.length pre
                            + List.length (ltokens ++ t :: rtokens))
                /\ level k fuel T (List.length pre)
                   = binaryLoop (levelOperators k) (level (S k) fuel) phi
                       (BinaryExpression op l r) T
                       (List.length pre
                        + List.length (ltokens ++ t :: rtokens))).
    { intros Hs.
      destruct (IHl fuel pre (t :: rtokens ++ more) T HT1 Hlen)
        as [_ Hleft].
      destruct Hleft as [phi [Hphi Hrun]];
        [exact Hk | eapply operator_stops; eauto|].
      destruct phi as [|phi]; [lia|].
      assert (Et : nth_error T (List.length pre + List.length ltokens)
                   = Some t)
        by (rewrite <- length_app, HT2; apply nth_error_middle).
      destruct (IHr fuel (pre ++ ltokens ++ [t]) more T HT3) as [Hright _];
        [rewrite Hlen3; lia|].
      rewrite Hlen3 in Hright. specialize (Hright Hs).
      exists phi. split; [lia|].
      rewrite Hrun, Hend.
      apply binaryLoop_step; [eapply matchAny_hit; eauto | exact Hright]. }
    split.
    + intros Hs.
      destruct Hloop as [phi [Hphi Hrun]]; [eapply stops_le; eauto|].
      rewrite Hrun. destruct phi as [|phi]; [lia|].
      apply binaryLoop_exit.
      apply matchAny_stop with (k := k) (more := more); auto.
      rewrite Hend. subst T.
      replace (S (List.length pre + List.length ltokens)
               + List.length rtokens)
        with (List.length (pre ++ ltokens ++ t :: rtokens))
        by (rewrite !length_app; simpl; lia).
      rewrite <- (app_assoc ltokens), (app_assoc pre).
      simpl. rewrite <- app_assoc. simpl.
      replace (pre ++ ltokens ++ t :: rtokens ++ more)
        with ((pre ++ ltokens ++ t :: rtokens) ++ more)
        by (rewrite <- !app_assoc; reflexivity).
      apply nth_error_more.
    + intros _ Hs. now apply Hloop.
Qed.

Lemma parseExpression_derives pre tokens more e fuel :
  Derives 0 tokens e -> stops 0 more = true ->
  List.length (pre ++ tokens ++ more) < fuel + List.length pre ->
  parseExpression fuel (pre ++ tokens ++ more) (List.length pre)
    = Ok (e, List.length pre + List.length tokens).
Proof.
  intros Hd Hs Hlen. destruct fuel as [|fuel].
  - rewrite !length_app in Hlen. lia.
  - change (parseExpression (S fuel)) with (level 0 fuel).
    now apply (@derives_parses 0 tokens e Hd fuel pre more _ eq_refl Hlen).
Qed.

(** C6: the parser computes the tree of the precedence grammar.  For
    every token sequence that the grammar derives as an expression with
    tree [e] (levels OR, AND, equality, relational, additive,
    multiplicative, each left-associative; parentheses grouping without
    a node), followed by a token that is no binary operator or by the
    end of the input, [parseExpression] returns [e] and stops after the
    sequence, and so does the WHERE clause of a DELETE statement.  The
    query with [id = 1 AND (name = 'Alice' OR name = 'Bob')] parses to
    the AND node of the comparison and the OR node. *)
Theorem parser_builds_the_grammar_tree
  (pre tokens more : list Token) (e : Expr) (fuel : nat) :
  Derives 0 tokens e ->
  stops 0 more = true ->
  List.length (pre ++ tokens ++ more) < fuel + List.length pre ->
  parseExpression fuel (pre ++ tokens ++ more) (List.length pre)
    = Ok (e, List.length pre + List.length tokens)
  /\ (forall kwDelete kwFrom tableName kwWhere,
        tokenIs KEYWORD (Some "DELETE") kwDelete = true ->
        tokenIs KEYWORD (Some "FROM") kwFrom = true ->
        type tableName = IDENTIFIER ->
        tokenIs KEYWORD (Some "WHERE") kwWhere = true ->
        parseSQL ([kwDelete; kwFrom; tableName; kwWhere] ++ tokens ++ more)
          = Ok (DELETE (value tableName) (Some e)))
  /\ (exists toks,
        Lexer.lexicalAnalysis
          "SELECT * FROM users WHERE id = 1 AND (name = 'Alice' OR name = 'Bob');"
          = Ok toks
        /\ parseSQL toks
           = Ok (SELECT ["*"] "users"
                   (Some
                      (BinaryExpression "AND"
                         (BinaryExpression "=" (Identifier "id")
                            (Literal "1" NUMBER))
                         (BinaryExpression "OR"
                            (BinaryExpression "=" (Identifier "name")
                               (Literal "Alice" STRING))
                            (BinaryExpression "=" (Identifier "name")
                               (Literal "Bob" STRING))))))).
Proof.
  intros Hd Hs Hlen. split; [now apply parseExpression_derives|]. split.
  - intros kwDelete kwFrom tableName kwWhere Hdel Hfrom Htable Hwhere.
    set (T := [kwDelete; kwFrom; tableName; kwWhere] ++ tokens ++ more).
    assert (Hcmd : toUpperCase (value kwDelete) = "DELETE").
    { unfold tokenIs in Hdel. apply andb_true_iff in Hdel as [_ Hv].
      now apply String.eqb_eq in Hv. }
    assert (Htab : tokenIs IDENTIFIER None tableName = true)
      by (unfold tokenIs; rewrite Htable; reflexivity).
    unfold parseSQL, run, parse, bind at 1, peek.
    change (nth_error T 0) with (Some kwDelete). cbv beta iota.
    rewrite Hcmd. cbv [String.eqb Ascii.eqb Bool.eqb].
    change (parseDelete (S (List.length T)) T 0) with
      ((expect KEYWORD (Some "DELETE") ;;;
        expect KEYWORD (Some "FROM") ;;;
        table <- expect IDENTIFIER None ;;
        where_ <- parseWhere (S (List.length T)) ;;
        ret (DELETE (value table) where_)) T 0).
    unfold bind at 1.
    rewrite (@expect_at KEYWORD (Some "DELETE") T 0 kwDelete eq_refl Hdel).
    unfold bind at 1.
    rewrite (@expect_at KEYWORD (Some "FROM") T 1 kwFrom eq_refl Hfrom).
    unfold bind at 1.
    rewrite (@expect_at IDENTIFIER None T 2 tableName eq_refl Htab).
    unfold bind at 1. unfold parseWhere. unfold bind at 1.
    rewrite (@matchToken_true_at KEYWORD (Some "WHERE") T 3 kwWhere
               eq_refl Hwhere).
    unfold bind at 1.
    change 4 with (List.length [kwDelete; kwFrom; tableName; kwWhere]).
    unfold T. rewrite (@parseExpression_derives _ tokens more e _ Hd Hs).
    + reflexivity.
    + rewrite !length_app. simpl. lia.
  - eexists. split; reflexivity.
Qed.

(** ** Grammar trees and the evaluator *)

Section EvaluatingParsedExpressions.

Context `{HostCompare}.

(** C4 (as amended): for a tree returned by [parseExpression] and any
    row: if the tree is an identifier, a literal, or one comparison, AND
    or OR whose two operands are identifiers or literals, evaluation
    returns a value, so neither defensive branch is reached; if it is an
    arithmetic operator over two such operands, evaluation throws the
    unsupported-operator error naming that operator. *)
Theorem parsed_expression_evaluation
  (fuel : nat) (toks : list Token) (pos : nat) (e : Expr) (pos' : nat)
  (row : Row) :
  parseExpression fuel toks pos = Ok (e, pos') ->
  (isShallow e = true -> exists v, evaluateExpression row e = Ok v)
  /\ (isArithmetic e = true ->
      evaluateExpression row e
        = Err (UnsupportedOperator (rootOperator e))).
Proof.
  intros Hparse.
  pose proof (@Post_parseExpression fuel toks pos e pos' Hparse) as Hg.
  split; intros Hshape.
  - now apply shallow_evaluates.
  - now apply arithmetic_unsupported.
Qed.

(** A parsed INSERT that has no column list never succeeds: the parser
    builds no empty tuple and no empty list of tuples. *)
Lemma parsed_insert_without_columns_fails
  (tokens : list Token) (tableName : string)
  (valuesList : list (list Token)) (db : Store) (rows : Table) :
  parseSQL tokens = Ok (INSERT tableName [] valuesList) ->
  lookup tableName db = Some rows ->
  executeAST (INSERT tableName [] valuesList) db
    = (Err ColumnCountMismatch, db).
Proof.
  intros Hparse Hl. apply parseSQL_grammatical in Hparse as [Hne Hall].
  simpl. unfold executeInsert. rewrite Hl, buildRecords_no_columns; auto.
  destruct valuesList as [|values others]; [congruence|].
  exists values. split; [now left|].
  inversion Hall as [|? ? [Hvalues _] _]; subst. exact Hvalues.
Qed.

End EvaluatingParsedExpressions.

(** ** The lexical analyzer *)

Import Lexer.

Lemma string_app_assoc (a b c : string) :
  ((a ++ b) ++ c = a ++ (b ++ c))%string.
Proof. induction a as [|x a IH]; simpl; [reflexivity | now rewrite IH]. Qed.

Lemma string_app_nil_r (a : string) : (a ++ "" = a)%string.
Proof. induction a as [|x a IH]; simpl; [reflexivity | now rewrite IH]. Qed.

Lemma string_length_app (a b : string) :
  String.length (a ++ b) = String.length a + String.length b.
Proof. induction a as [|x a IH]; simpl; [reflexivity | now rewrite IH]. Qed.

Lemma isDot_eq c : isDot c = true -> c = "."%char.
Proof. apply Ascii.eqb_eq. Qed.

Lemma isQuote_eq c : isQuote c = true -> c = "'"%char.
Proof. apply Ascii.eqb_eq. Qed.

Lemma isDot_not_digit c : isDot c = true -> isDigit c = false.
Proof. intros Hc. apply isDot_eq in Hc. now subst c. Qed.

(** *** Numbers *)

Lemma numberLoop_spec rem : forall val hasDecimalPoint pos,
  exists lex rem',
    numberLoop rem val hasDecimalPoint pos
      = ((val ++ lex)%string, pos + String.length lex, rem')
    /\ rem = (lex ++ rem')%string
    /\ forallChars (fun c => isDigit c || isDot c) lex = true
    /\ countChars isDot lex + (if hasDecimalPoint then 1 else 0) <= 1
    /\ startsWith isDigit rem' = false
    /\ (startsWith isDot rem' = true ->
        countChars isDot lex + (if hasDecimalPoint then 1 else 0) = 1).
Proof.
  induction rem as [|c rest IH]; intros val hdp pos.
  - exists "", "". simpl. rewrite string_app_nil_r, Nat.add_0_r.
    repeat split; auto; try discriminate. destruct hdp; lia.
  - simpl. destruct (isDigit c) eqn:Hd; simpl.
    + assert (Hnd : isDot c = false).
      { destruct (isDot c) eqn:E; auto. apply isDot_not_digit in E. congruence. }
      rewrite Hnd.
      destruct (IH (val ++ strLit c)%string hdp (S pos))
        as [lex [rem' [Hrun [Hrem [Hall [Hcount [Hstop Hdot]]]]]]].
      exists (String c lex), rem'. rewrite Hrun. simpl.
      rewrite string_app_assoc, Hd, Hnd, <- Hrem. simpl.
      repeat split; auto. f_equal. f_equal. lia.
    + destruct (isDot c) eqn:Hdot.
      * destruct hdp.
        -- exists "", (String c rest). simpl.
           rewrite string_app_nil_r, Nat.add_0_r, Hd, Hdot.
           repeat split; auto.
        -- destruct (IH (val ++ strLit c)%string true (S pos))
             as [lex [rem' [Hrun [Hrem [Hall [Hcount [Hstop Hdot']]]]]]].
           exists (String c lex), rem'. rewrite Hrun. simpl.
           rewrite string_app_assoc, Hd, Hdot, <- Hrem. simpl.
           repeat split; auto; try lia;
             try (f_equal; f_equal; lia);
             try (intros Hs; specialize (Hdot' Hs); lia).
      * exists "", (String c rest). simpl.
        rewrite string_app_nil_r, Nat.add_0_r, Hd, Hdot.
        repeat split; auto; try discriminate. destruct hdp; lia.
Qed.

Lemma digit_dispatch c :
  isDigit c = true -> isWhitespace c = false /\ isLetter c = false.
Proof.
  unfold isDigit, isWhitespace, isLetter. generalize (charCode c). intros n Hd.
  apply andb_true_iff in Hd as [H1 H2].
  apply Nat.leb_le in H1. apply Nat.leb_le in H2.
  split; repeat (apply orb_false_iff; split);
    try (apply andb_false_iff;
         first [ left; apply Nat.leb_gt; lia | right; apply Nat.leb_gt; lia ]);
    apply Nat.eqb_neq; lia.
Qed.

Lemma analyzeStep_invalid_dot rest pos tokens :
  analyzeStep (String "." rest) pos tokens
    = Some (Err (InvalidCharacter "." pos)).
Proof. reflexivity. Qed.

Lemma analyzeLoop_error fuel rem pos tokens e :
  analyzeStep rem pos tokens = Some (Err e) ->
  analyzeLoop fuel rem pos tokens = Err e.
Proof. intros Hs. destruct fuel; simpl; now rewrite Hs. Qed.

(** C7: whenever the analyzer's loop is at a digit, [tokenizeNumber]
    takes the longest run of digits and decimal points that has at most
    one decimal point, as one NUMBER token placed at the position of the
    digit.  What remains starts with no digit, and it starts with a
    decimal point only if the lexeme already has one; that second point
    is not consumed, and the analysis then fails on it with the
    invalid-character error at the point's position. *)
Theorem number_lexeme
  (c : ascii) (rest : string) (pos : nat) (tokens : list Token) :
  isDigit c = true ->
  exists lex rem',
    tokenizeNumber (String c rest) pos
      = (mkToken NUMBER lex pos, pos + String.length lex, rem')
    /\ String c rest = (lex ++ rem')%string
    /\ startsWith (Ascii.eqb c) lex = true
    /\ forallChars (fun c => isDigit c || isDot c) lex = true
    /\ countChars isDot lex <= 1
    /\ startsWith isDigit rem' = false
    /\ analyzeStep (String c rest) pos tokens
       = Some (Ok (rem', pos + String.length lex,
                   tokens ++ [mkToken NUMBER lex pos]))
    /\ (startsWith isDot rem' = true ->
        countChars isDot lex = 1
        /\ (forall fuel, String.length (String c rest) <= fuel ->
              analyzeLoop fuel (String c rest) pos tokens
                = Err (InvalidCharacter "." (pos + String.length lex)))
        /\ (pos = 0 -> tokens = [] ->
            lexicalAnalysis (String c rest)
              = Err (InvalidCharacter "." (String.length lex)))).
Proof.
  intros Hd.
  destruct (numberLoop_spec (String c rest) "" false pos)
    as [lex [rem' [Hrun [Hrem [Hall [Hcount [Hstop Hdot]]]]]]].
  simpl append in Hrun.
  assert (Htok : tokenizeNumber (String c rest) pos
                 = (mkToken NUMBER lex pos, pos + String.length lex, rem'))
    by (unfold tokenizeNumber; now rewrite Hrun).
  assert (Hstep : analyzeStep (String c rest) pos tokens
                  = Some (Ok (rem', pos + String.length lex,
                              tokens ++ [mkToken NUMBER lex pos]))).
  { destruct (digit_dispatch c Hd) as [Hw Hl].
    unfold analyzeStep. now rewrite Hw, Hl, Hd, Htok. }
  assert (Hloop : startsWith isDot rem' = true ->
            forall fuel, String.length (String c rest) <= fuel ->
              analyzeLoop fuel (String c rest) pos tokens
                = Err (InvalidCharacter "." (pos + String.length lex))).
  { intros Hs fuel Hfuel. destruct fuel as [|fuel]; [simpl in Hfuel; lia|].
    cbn [analyzeLoop]. rewrite Hstep.
    destruct rem' as [|c' r]; [discriminate|]. simpl in Hs.
    apply isDot_eq in Hs. subst c'.
    apply analyzeLoop_error, analyzeStep_invalid_dot. }
  assert (Hhead : startsWith (Ascii.eqb c) lex = true).
  { destruct lex as [|c0 lex0].
    - simpl in Hrem. subst rem'. simpl in Hstop. congruence.
    - simpl in Hrem. injection Hrem as <- _. simpl. apply Ascii.eqb_refl. }
  exists lex, rem'.
  split; [exact Htok|]. split; [exact Hrem|]. split; [exact Hhead|].
  split; [exact Hall|]. split; [lia|]. split; [exact Hstop|].
  split; [exact Hstep|].
  intros Hs. split; [specialize (Hdot Hs); lia|].
  split; [now apply Hloop|].
  intros -> ->. unfold lexicalAnalysis, analyze. now apply Hloop.
Qed.

(** *** Strings *)

Lemma stringLoop_tail tail val pos :
  closes tail -> stringLoop tail val pos = (val, pos, tail).
Proof.
  intros [->|[rest [-> Hrest]]]; [reflexivity|].
  simpl. destruct rest as [|c' r]; [reflexivity|].
  simpl in Hrest. now rewrite Hrest.
Qed.

Lemma stringLoop_body v : forall tail val pos,
  closes tail ->
  stringLoop (escapeQuotes v ++ tail) val pos
    = ((val ++ v)%string, pos + String.length (escapeQuotes v), tail).
Proof.
  induction v as [|c v IH]; intros tail val pos Htail.
  - simpl. rewrite string_app_nil_r, Nat.add_0_r.
    now apply stringLoop_tail.
  - simpl escapeQuotes. destruct (isQuote c) eqn:Hq.
    + simpl. rewrite Hq. rewrite IH by exact Htail.
      apply isQuote_eq in Hq. subst c.
      rewrite string_app_assoc. simpl. do 2 f_equal. lia.
    + simpl. rewrite Hq. rewrite IH by exact Htail.
      rewrite string_app_assoc. simpl. do 2 f_equal. lia.
Qed.

(** Every text is the body of an unterminated literal, or a body, the
    closing quote and a remainder. *)
Lemma body_shape n : forall body,
  String.length body <= n ->
  exists v tail, body = (escapeQuotes v ++ tail)%string /\ closes tail.
Proof.
  induction n as [|n IH]; intros body Hlen.
  - destruct body; [|simpl in Hlen; lia]. exists "", "". split; auto.
    now left.
  - destruct body as [|c body]; [exists "", ""; split; auto; now left|].
    simpl in Hlen. destruct (isQuote c) eqn:Hq.
    + pose proof (isQuote_eq c Hq) as ->.
      destruct body as [|c' body'].
      * exists "", "'"%string. split; auto. right. exists "". auto.
      * destruct (isQuote c') eqn:Hq'.
        -- pose proof (isQuote_eq c' Hq') as ->.
           destruct (IH body') as [v [tail [-> Htail]]];
             [simpl in Hlen; lia|].
           exists (String "'" v), tail. split; auto.
        -- exists "", (String "'" (String c' body')). split; auto.
           right. exists (String c' body'). auto.
    + destruct (IH body) as [v [tail [-> Htail]]]; [lia|].
      exists (String c v), tail. split; auto. simpl. now rewrite Hq.
Qed.

(** C8: when a quote starts a lexeme, [tokenizeString] reads the body up
    to the first quote that is not doubled, taking every pair of quotes
    as one quote character of the value.  If that closing quote exists
    the result is a STRING token with the unescaped body as its value,
    placed at the opening quote, and the analysis goes on after the
    closing quote; if the input ends first, [tokenizeString] and the
    whole analysis fail with the unterminated-string error carrying the
    position of the opening quote.  Every input after an opening quote
    is of one of these two forms. *)
Theorem string_lexeme
  (v rest : string) (pos : nat) (tokens : list Token) :
  startsWith isQuote rest = false ->
  (tokenizeString (String "'" (escapeQuotes v ++ String "'" rest)) pos
     = Ok (mkToken STRING v pos,
           pos + String.length (escapeQuotes v) + 2, rest)
   /\ analyzeStep (String "'" (escapeQuotes v ++ String "'" rest)) pos
        tokens
      = Some (Ok (rest, pos + String.length (escapeQuotes v) + 2,
                  tokens ++ [mkToken STRING v pos])))
  /\ tokenizeString (String "'" (escapeQuotes v)) pos
     = Err (UnterminatedString pos)
  /\ (forall fuel,
        analyzeLoop fuel (String "'" (escapeQuotes v)) pos tokens
          = Err (UnterminatedString pos))
  /\ lexicalAnalysis (String "'" (escapeQuotes v))
     = Err (UnterminatedString 0)
  /\ (forall body, exists v' tail,
        body = (escapeQuotes v' ++ tail)%string /\ closes tail).
Proof.
  intros Hrest.
  assert (Hclosed :
            tokenizeString (String "'" (escapeQuotes v ++ String "'" rest)) pos
            = Ok (mkToken STRING v pos,
                  pos + String.length (escapeQuotes v) + 2, rest)).
  { unfold tokenizeString.
    rewrite stringLoop_body by (right; eauto). simpl.
    do 3 f_equal. lia. }
  assert (Hopen : forall p,
            tokenizeString (String "'" (escapeQuotes v)) p
            = Err (UnterminatedString p)).
  { intros p. unfold tokenizeString.
    rewrite <- (string_app_nil_r (escapeQuotes v)).
    rewrite stringLoop_body by now left. reflexivity. }
  assert (Hstep : forall p toks,
            analyzeStep (String "'" (escapeQuotes v)) p toks
            = Some (Err (UnterminatedString p))).
  { intros p toks. unfold analyzeStep.
    change (isWhitespace "'") with false. change (isLetter "'") with false.
    change (isDigit "'") with false. change (isQuote "'") with true.
    cbv iota. now rewrite Hopen. }
  split; [|split; [|split; [|split]]].
  - split; [exact Hclosed|].
    unfold analyzeStep.
    change (isWhitespace "'") with false. change (isLetter "'") with false.
    change (isDigit "'") with false. change (isQuote "'") with true.
    cbv iota. now rewrite Hclosed.
  - apply Hopen.
  - intros fuel. apply analyzeLoop_error, Hstep.
  - unfold lexicalAnalysis, analyze. apply analyzeLoop_error, Hstep.
  - intros body. apply (@body_shape (String.length body) body). lia.
Qed.

(** *** The fuel of [analyze] *)

Lemma skipWhitespace_le rem : forall pos,
  String.length (snd (skipWhitespace rem pos)) <= String.length rem.
Proof.
  induction rem as [|c rest IH]; intros pos; simpl; auto.
  destruct (isWhitespace c); simpl; [specialize (IH (S pos)); lia | lia].
Qed.

Lemma identifierLoop_le rem : forall val pos,
  String.length (snd (identifierLoop rem val pos)) <= String.length rem.
Proof.
  induction rem as [|c rest IH]; intros val pos; simpl; auto.
  destruct (isIdentifierChar c); simpl; [|lia].
  specialize (IH (val ++ strLit c)%string (S pos)). lia.
Qed.

Lemma numberLoop_le rem : forall val hdp pos,
  String.length (snd (numberLoop rem val hdp pos)) <= String.length rem.
Proof.
  induction rem as [|c rest IH]; intros val hdp pos; simpl; auto.
  destruct (isDigit c || isDot c); simpl; [|lia].
  destruct (isDot c); [destruct hdp|]; simpl; try lia.
  - specialize (IH (val ++ strLit c)%string true (S pos)). lia.
  - specialize (IH (val ++ strLit c)%string hdp (S pos)). lia.
Qed.

Lemma operatorLoop_le rem : forall val pos,
  String.length (snd (operatorLoop rem val pos)) <= String.length rem.
Proof.
  induction rem as [|c rest IH]; intros val pos; cbn [operatorLoop]; auto.
  destruct (has OPERATORS (val ++ strLit c)); simpl; [|lia].
  specialize (IH (val ++ strLit c)%string (S pos)). lia.
Qed.

Lemma stringLoop_le n : forall rem val pos,
  String.length rem <= n ->
  String.length (snd (stringLoop rem val pos)) <= String.length rem.
Proof.
  induction n as [|n IH]; intros rem val pos Hlen.
  - destruct rem; [simpl; auto | simpl in Hlen; lia].
  - destruct rem as [|c rest]; simpl; auto. simpl in Hlen.
    destruct (isQuote c).
    + destruct rest as [|c' rest']; simpl; [lia|].
      destruct (isQuote c'); simpl; [|lia].
      specialize (IH rest' (val ++ "'")%string (S (S pos))).
      simpl in Hlen. lia.
    + specialize (IH rest (val ++ strLit c)%string (S pos)). lia.
Qed.

(** Every iteration of the main loop consumes a character. *)
Lemma analyzeStep_consumes rem pos tokens rem' pos' tokens' :
  analyzeStep rem pos tokens = Some (Ok (rem', pos', tokens')) ->
  String.length rem' < String.length rem.
Proof.
  destruct rem as [|c rest]; [discriminate|]. unfold analyzeStep.
  destruct (isWhitespace c) eqn:Hw.
  { pose proof (skipWhitespace_le rest (S pos)) as Hle.
    simpl skipWhitespace. rewrite Hw.
    destruct (skipWhitespace rest (S pos)) as [p r]. simpl in Hle.
    intros [= <- _ _]. simpl. lia. }
  destruct (isLetter c) eqn:Hl.
  { pose proof (identifierLoop_le rest (strLit c) (S pos)) as Hle.
    unfold tokenizeIdentifier. simpl identifierLoop.
    assert (Hi : isIdentifierChar c = true)
      by (unfold isIdentifierChar; now rewrite Hl).
    rewrite Hi.
    destruct (identifierLoop rest _ (S pos)) as [[v p] r]. simpl in Hle.
    destruct (has KEYWORDS (toUpperCase v)); intros [= <- _ _]; simpl; lia. }
  destruct (isDigit c) eqn:Hd.
  { pose proof (numberLoop_le rest (strLit c) false (S pos)) as Hle.
    unfold tokenizeNumber. simpl numberLoop. rewrite Hd.
    assert (Hnd : isDot c = false).
    { destruct (isDot c) eqn:E; auto. apply isDot_not_digit in E. congruence. }
    rewrite Hnd. simpl.
    destruct (numberLoop rest _ false (S pos)) as [[v p] r]. simpl in Hle.
    intros [= <- _ _]. simpl. lia. }
  destruct (isQuote c) eqn:Hq.
  { pose proof (@stringLoop_le (String.length rest) rest "" (S pos)
                  (Nat.le_refl _)) as Hle.
    unfold tokenizeString.
    destruct (stringLoop rest "" (S pos)) as [[v p] r]. simpl in Hle.
    destruct r as [|c' r']; [discriminate|].
    destruct (isQuote c'); [|discriminate].
    intros [= <- _ _]. simpl in *. lia. }
  destruct (has OPERATORS (strLit c)) eqn:Ho.
  { pose proof (operatorLoop_le rest (strLit c) (S pos)) as Hle.
    unfold tokenizeOperator. cbn [operatorLoop].
    change ("" ++ strLit c)%string with (strLit c). rewrite Ho.
    destruct (operatorLoop rest _ (S pos)) as [[v p] r]. simpl in Hle.
    intros [= <- _ _]. simpl. lia. }
  destruct (has ["("; ")"; ","; ";"] (strLit c)); [|intros Hx; discriminate Hx].
  intros [= <- _ _]. simpl. lia.
Qed.

Lemma analyzeStep_error rem pos tokens e :
  analyzeStep rem pos tokens = Some (Err e) -> e <> LexOutOfFuel.
Proof.
  destruct rem as [|c rest]; [discriminate|]. unfold analyzeStep.
  destruct (isWhitespace c).
  { destruct (skipWhitespace _ _). discriminate. }
  destruct (isLetter c).
  { destruct (tokenizeIdentifier _ _) as [[? ?] ?]. discriminate. }
  destruct (isDigit c).
  { destruct (tokenizeNumber _ _) as [[? ?] ?]. discriminate. }
  destruct (isQuote c).
  { unfold tokenizeString.
    destruct (stringLoop _ _ _) as [[v p] r].
    destruct r as [|c' r']; [intros [= <-]; discriminate|].
    destruct (isQuote c'); [discriminate | intros [= <-]; discriminate]. }
  destruct (has OPERATORS (strLit c)).
  { destruct (tokenizeOperator _ _) as [[? ?] ?]. discriminate. }
  destruct (has ["("; ")"; ","; ";"] (strLit c)); [discriminate|].
  intros [= <-]. discriminate.
Qed.

Lemma analyzeLoop_fuel fuel : forall rem pos tokens,
  String.length rem <= fuel ->
  analyzeLoop fuel rem pos tokens <> Err LexOutOfFuel.
Proof.
  induction fuel as [|fuel IH]; intros rem pos tokens Hlen.
  - destruct rem; [discriminate | simpl in Hlen; lia].
  - cbn [analyzeLoop].
    destruct (analyzeStep rem pos tokens) as [[[[rem' pos'] tokens']|e]|] eqn:E.
    + apply IH. apply analyzeStep_consumes in E. lia.
    + apply analyzeStep_error in E. congruence.
    + discriminate.
Qed.

(** [analyze] never reports the artefact of its fuel. *)
Lemma analyze_fuel input : lexicalAnalysis input <> Err LexOutOfFuel.
Proof. unfold lexicalAnalysis, analyze. now apply analyzeLoop_fuel. Qed.

(** * The statements on sample inputs *)

Section OnTheMockDatabase.

Import IntHost Samples.

(** C1, as stated, fails on the mock database: [DELETE FROM users]
    reports two removed rows and leaves the table empty. *)
Lemma delete_without_where_counterexample :
  executeAST (DELETE "users" None) mockDatabase
    = (Ok (Deleted 2 "users"),
       [("users", []); ("orders", []); ("products", [])])
  /\ ~ (fst (executeAST (DELETE "users" None) mockDatabase)
          = Ok (Deleted 0 "users")
        /\ lookup "users" (snd (executeAST (DELETE "users" None) mockDatabase))
           = lookup "users" mockDatabase).
Proof.
  split; [reflexivity|]. intros [Hcount _]. discriminate Hcount.
Qed.

Lemma delete_without_where_witness :
  lookup "users" mockDatabase = Some usersRows
  /\ executeAST (DELETE "users" None) mockDatabase
       = (Ok (Deleted 2 "users"), assign mockDatabase "users" [])
  /\ lookup "users" (assign mockDatabase "users" []) = Some [].
Proof.
  split; [reflexivity|].
  apply (@delete_without_where_removes_all _ _ "users" mockDatabase usersRows).
  reflexivity.
Defined.

(** C2, as stated, fails on the mock database: [SELECT * FROM orders]
    fails, but with the host's TypeError, which is none of the errors
    the executor raises and says nothing about columns. *)
Lemma select_star_empty_counterexample :
  fst (executeAST (SELECT ["*"] "orders" None) mockDatabase)
    = Err (HostTypeError "Cannot convert undefined or null to object")
  /\ ~ (exists e,
          fst (executeAST (SELECT ["*"] "orders" None) mockDatabase) = Err e
          /\ raisedByExecutor e = true).
Proof.
  split; [reflexivity|]. intros [e [He Hraised]].
  cbn in He. injection He as <-. discriminate Hraised.
Qed.

Lemma select_star_empty_witness :
  lookup "orders" mockDatabase = Some []
  /\ includes ["*"] "*" = true
  /\ executeAST (SELECT ["*"] "orders" None) mockDatabase
       = (Err (HostTypeError "Cannot convert undefined or null to object"),
          mockDatabase).
Proof.
  split; [reflexivity|]. split; [reflexivity|].
  apply (@select_star_empty_table_fails _ _ ["*"] "orders" None mockDatabase);
    reflexivity.
Defined.

Lemma failing_statement_witness :
  assignsValues
    (UPDATE "users" [mkAssignment "email" (mkToken STRING "x@example.com" 0)]
       (Some nestedCondition)) = true
  /\ fst (executeAST
            (UPDATE "users"
               [mkAssignment "email" (mkToken STRING "x@example.com" 0)]
               (Some nestedCondition)) mockDatabase)
     = Err (UnsupportedOperandType "BinaryExpression")
  /\ snd (executeAST
            (UPDATE "users"
               [mkAssignment "email" (mkToken STRING "x@example.com" 0)]
               (Some nestedCondition)) mockDatabase)
     = mockDatabase.
Proof.
  split; [reflexivity|]. split; [reflexivity|].
  apply (@failing_statement_leaves_store _ _
           (UPDATE "users"
              [mkAssignment "email" (mkToken STRING "x@example.com" 0)]
              (Some nestedCondition))
           mockDatabase (UnsupportedOperandType "BinaryExpression"));
    reflexivity.
Defined.

(** Outside the grammar the hypothesis of C3 matters: a KEYWORD token in
    a value position makes [parseValue] throw after the first assignment
    has been written to the first row. *)
Example update_outside_grammar_writes :
  assignsValues updateWithKeywordValue = false
  /\ fst (executeAST updateWithKeywordValue mockDatabase)
     = Err (UnsupportedTokenType "KEYWORD")
  /\ lookup "users" (snd (executeAST updateWithKeywordValue mockDatabase))
     = Some [ [("id", VNumber 1%Z); ("name", VString "Alice");
               ("email", VString "x@example.com")];
              [("id", VNumber 2%Z); ("name", VString "Bob");
               ("email", VString "bob@example.com")] ].
Proof. repeat split. Qed.

(** C4, as stated, fails: the trees the parser builds for the
    specification's own example and for [id + 1] reach the
    unsupported-operand and the unsupported-operator branch. *)
Lemma grammar_tree_counterexample :
  parseExpression 14
    (tokensOf "id = 1 AND (name = 'Alice' OR name = 'Bob')") 0
    = Ok (nestedCondition, 13)
  /\ evaluateExpression aliceRow nestedCondition
     = Err (UnsupportedOperandType "BinaryExpression")
  /\ parseExpression 4 (tokensOf "id + 1") 0
     = Ok (BinaryExpression "+" (Identifier "id") (Literal "1" NUMBER), 3)
  /\ evaluateExpression aliceRow
       (BinaryExpression "+" (Identifier "id") (Literal "1" NUMBER))
     = Err (UnsupportedOperator "+").
Proof. split; [|split; [|split]]; reflexivity. Qed.

Lemma parsed_expression_witness :
  parseExpression 4 (tokensOf "id = 1") 0
    = Ok (BinaryExpression "=" (Identifier "id") (Literal "1" NUMBER), 3)
  /\ isShallow (BinaryExpression "=" (Identifier "id") (Literal "1" NUMBER))
     = true
  /\ exists v,
       evaluateExpression aliceRow
         (BinaryExpression "=" (Identifier "id") (Literal "1" NUMBER))
       = Ok v.
Proof.
  split; [reflexivity|]. split; [reflexivity|].
  apply (proj1 (@parsed_expression_evaluation _ _ 4 (tokensOf "id = 1") 0
                  (BinaryExpression "=" (Identifier "id")
                     (Literal "1" NUMBER))
                  3 aliceRow eq_refl)).
  reflexivity.
Defined.

Lemma insert_with_column_list_witness :
  lookup "users" mockDatabase = Some usersRows
  /\ Forall (Forall (fun t => isValueToken t = true)) [charlie]
  /\ Forall (fun values => List.length values = 3) [charlie]
  /\ exists newRecords,
       executeAST (INSERT "users" ["id"; "name"; "email"] [charlie])
         mockDatabase
       = (Ok (Inserted 1 "users"),
          assign mockDatabase "users" (usersRows ++ newRecords))
       /\ List.length newRecords = 1.
Proof.
  assert (Hvalues : Forall (Forall (fun t => isValueToken t = true)) [charlie])
    by (repeat constructor).
  assert (Hlengths : Forall (fun values => List.length values = 3) [charlie])
    by (repeat constructor).
  split; [reflexivity|]. split; [exact Hvalues|]. split; [exact Hlengths|].
  destruct (proj2 (@insert_with_column_list _ _ "users"
                     ["id"; "name"; "email"] [charlie] mockDatabase
                     usersRows eq_refl Hvalues) Hlengths)
    as [newRecords [Hrun [_ [Hlen _]]]].
  exists newRecords. split; [exact Hrun | exact Hlen].
Defined.

Lemma insert_without_column_list_witness :
  lookup "users" mockDatabase = Some usersRows
  /\ (exists values, In values [charlie] /\ values <> [])
  /\ executeAST (INSERT "users" [] [charlie]) mockDatabase
     = (Err ColumnCountMismatch, mockDatabase).
Proof.
  assert (Hne : exists values, In values [charlie] /\ values <> [])
    by (exists charlie; split; [now left | discriminate]).
  split; [reflexivity|]. split; [exact Hne|].
  apply (@insert_without_column_list_fails _ _ "users" [charlie]
           mockDatabase usersRows eq_refl Hne).
Defined.

End OnTheMockDatabase.

Section OnSampleQueries.

Import Samples.

Lemma parser_builds_the_grammar_tree_witness :
  Derives 0
    [mkToken IDENTIFIER "id" 0; mkToken OPERATOR "=" 3; mkToken NUMBER "2" 5]
    (BinaryExpression "=" (Identifier "id") (Literal "2" NUMBER))
  /\ stops 0 [mkToken PUNCTUATION ";" 6] = true
  /\ parseExpression 5
       ([] ++ [mkToken IDENTIFIER "id" 0; mkToken OPERATOR "=" 3;
               mkToken NUMBER "2" 5]
           ++ [mkToken PUNCTUATION ";" 6]) 0
     = Ok (BinaryExpression "=" (Identifier "id") (Literal "2" NUMBER), 3)
  /\ parseSQL (tokensOf "DELETE FROM users WHERE id = 2;")
     = Ok (DELETE "users"
             (Some (BinaryExpression "=" (Identifier "id")
                      (Literal "2" NUMBER)))).
Proof.
  assert (Hd : Derives 0
            [mkToken IDENTIFIER "id" 0; mkToken OPERATOR "=" 3;
             mkToken NUMBER "2" 5]
            (BinaryExpression "=" (Identifier "id") (Literal "2" NUMBER))).
  { do 2 (apply DerivesHigher; [lia|]).
    apply (@DerivesBinary 2 OPERATOR "=" (mkToken OPERATOR "=" 3)
             [mkToken IDENTIFIER "id" 0] [mkToken NUMBER "2" 5]
             (Identifier "id") (Literal "2" NUMBER));
      [simpl; auto | reflexivity | reflexivity | |].
    - do 4 (apply DerivesHigher; [lia|]).
      apply (DerivesIdentifier (mkToken IDENTIFIER "id" 0)). reflexivity.
    - do 3 (apply DerivesHigher; [lia|]).
      apply (DerivesLiteral (mkToken NUMBER "2" 5)). now left. }
  pose proof (@parser_builds_the_grammar_tree []
                [mkToken IDENTIFIER "id" 0; mkToken OPERATOR "=" 3;
                 mkToken NUMBER "2" 5]
                [mkToken PUNCTUATION ";" 6]
                (BinaryExpression "=" (Identifier "id") (Literal "2" NUMBER))
                5 Hd eq_refl ltac:(simpl; lia)) as [Hexpr [Hdelete _]].
  split; [exact Hd|]. split; [reflexivity|]. split; [exact Hexpr|].
  apply (Hdelete (mkToken KEYWORD "DELETE" 0) (mkToken KEYWORD "FROM" 7)
           (mkToken IDENTIFIER "users" 12) (mkToken KEYWORD "WHERE" 18));
    reflexivity.
Defined.

Lemma number_lexeme_witness :
  Lexer.isDigit "1" = true
  /\ Lexer.tokenizeNumber "1.5.2" 0 = (mkToken NUMBER "1.5" 0, 3, ".2")
  /\ Lexer.lexicalAnalysis "1.5.2" = Err (Lexer.InvalidCharacter "." 3).
Proof.
  split; [reflexivity|]. split; [reflexivity|].
  destruct (@number_lexeme "1" ".5.2" 0 [] eq_refl)
    as [lex [rem' [Htok [_ [_ [_ [_ [_ [_ Hdot]]]]]]]]].
  change (Lexer.tokenizeNumber "1.5.2" 0)
    with (mkToken NUMBER "1.5" 0, 3, ".2"%string) in Htok.
  injection Htok as Hlex _ Hrem. subst lex rem'.
  exact (proj2 (proj2 (Hdot eq_refl)) eq_refl eq_refl).
Defined.

Lemma string_lexeme_witness :
  startsWith Lexer.isQuote ")" = false
  /\ Lexer.tokenizeString "'O''Brien')" 40
     = Ok (mkToken STRING "O'Brien" 40, 50, ")")
  /\ Lexer.lexicalAnalysis "'O''Brien" = Err (Lexer.UnterminatedString 0).
Proof.
  split; [reflexivity|].
  pose proof (@string_lexeme "O'Brien" ")" 40 [] eq_refl)
    as [[Hclosed _] [_ [_ [Hopen _]]]].
  split; [exact Hclosed | exact Hopen].
Defined.



End OnSampleQueries.

(** * More of the executor *)

Unset Implicit Arguments.

Section MoreOfTheExecutor.

Context `{HostCompare}.

Lemma keys_assign_present {A} (obj : list (string * A)) key v w :
  lookup key obj = Some w -> keys (assign obj key v) = keys obj.
Proof.
  induction obj as [|[k x] rest IH]; simpl; [discriminate|].
  destruct (String.eqb k key) eqn:E; simpl; auto.
  intros Hl. unfold keys in *. simpl. f_equal. now apply IH.
Qed.

Lemma assign_assign {A} (obj : list (string * A)) key v v' :
  assign (assign obj key v) key v' = assign obj key v'.
Proof.
  induction obj as [|[k x] rest IH]; simpl.
  - now rewrite String.eqb_refl.
  - destruct (String.eqb k key) eqn:E; simpl; rewrite E; auto.
    now rewrite IH.
Qed.

Lemma filterRows_filter (callback : Row -> R bool) (f : Row -> bool) rows :
  (forall row, In row rows -> callback row = Ok (f row)) ->
  filterRows callback rows = Ok (filter f rows).
Proof.
  induction rows as [|row rest IH]; simpl; intros Hcb; auto.
  rewrite Hcb by auto. simpl. rewrite IH by auto. simpl.
  destruct (f row); reflexivity.
Qed.



Lemma retains_passes w table row :
  evaluable (Some w) table -> In row table ->
  retains (Some w) row = Ok (negb (holds w row)).
Proof.
  intros Hev Hin. destruct (Hev w row eq_refl Hin) as [v Hv].
  simpl. unfold holds. now rewrite Hv.
Qed.

Lemma evaluable_filter where_ table f :
  evaluable where_ table -> evaluable where_ (filter f table).
Proof.
  intros Hev w row Hw Hin. apply filter_In in Hin as [Hin _]. eauto.
Qed.

(** ** SELECT *)



(** ** DELETE *)


Lemma delete_filter w table :
  evaluable (Some w) table ->
  filterRows (retains (Some w)) table
    = Ok (filter (fun row => negb (holds w row)) table).
Proof.
  intros Hev. apply filterRows_filter. intros row Hin.
  now apply (retains_passes _ _ _ Hev Hin).
Qed.


Lemma filter_idempotent {A} (f : A -> bool) (l : list A) :
  filter f (filter f l) = filter f l.
Proof.
  induction l as [|x l IH]; simpl; auto.
  destruct (f x) eqn:E; simpl; rewrite ?E, IH; reflexivity.
Qed.

Lemma filter_none {A} (f : A -> bool) (l : list A) :
  filter f (filter (fun x => negb (f x)) l) = [].
Proof.
  induction l as [|x l IH]; simpl; auto.
  destruct (f x) eqn:E; simpl; rewrite ?E; auto.
Qed.

(** X3: running the same DELETE again removes nothing: after a DELETE
    whose WHERE clause evaluates on every row, the same statement
    reports zero rows and leaves the store as the first run left it. *)
Theorem delete_twice_removes_nothing
  (tableName : string) (w : Expr) (db : Store) (table : Table) :
  lookup tableName db = Some table ->
  evaluable (Some w) table ->
  executeAST (DELETE tableName (Some w))
    (snd (executeAST (DELETE tableName (Some w)) db))
  = (Ok (Deleted 0 tableName),
     snd (executeAST (DELETE tableName (Some w)) db)).
Proof.
  intros Hl Hev.
  set (kept := filter (fun row => negb (holds w row)) table).
  assert (Hfirst : snd (executeAST (DELETE tableName (Some w)) db)
                   = assign db tableName kept).
  { simpl. unfold executeDelete. now rewrite Hl, (delete_filter _ _ Hev). }
  rewrite Hfirst. simpl. unfold executeDelete.
  rewrite lookup_assign_same.
  rewrite (delete_filter w kept) by now apply evaluable_filter.
  unfold kept. rewrite filter_idempotent, Nat.sub_diag, assign_assign.
  reflexivity.
Qed.

(** ** UPDATE *)







(** ** Every statement *)

(** X6: no statement creates, drops, renames or reorders a table: after
    any statement, whether it returned or threw, the store has the same
    table names in the same order, and every table other than the one
    the statement names is as it was. *)
Theorem statements_keep_the_tables (ast : Statement) (db : Store) :
  keys (snd (executeAST ast db)) = keys db
  /\ (forall other,
        tableOf ast <> Some other ->
        lookup other (snd (executeAST ast db)) = lookup other db).
Proof.
  destruct ast as [cols t w|t cols vl|t asg w|t w|]; simpl;
    try (split; [reflexivity | intros; reflexivity]).
  - unfold executeInsert. destruct (lookup t db) as [table|] eqn:Hl;
      [|split; [reflexivity | intros; reflexivity]].
    destruct (buildRecords cols vl);
      [|split; [reflexivity | intros; reflexivity]].
    simpl. split; [eapply keys_assign_present; eauto|].
    intros other Hother. apply lookup_assign_other. congruence.
  - unfold executeUpdate. destruct (lookup t db) as [table|] eqn:Hl;
      [|split; [reflexivity | intros; reflexivity]].
    destruct (updateRows asg w table 0) as [[k|e] written]; simpl;
      (split; [eapply keys_assign_present; eauto|]);
      intros other Hother; apply lookup_assign_other; congruence.
  - unfold executeDelete. destruct (lookup t db) as [table|] eqn:Hl;
      [|split; [reflexivity | intros; reflexivity]].
    destruct (filterRows (retains w) table);
      [|split; [reflexivity | intros; reflexivity]].
    simpl. split; [eapply keys_assign_present; eauto|].
    intros other Hother. apply lookup_assign_other. congruence.
Qed.


(** X8: on a table without rows the WHERE clause and the assignments
    are never looked at: whatever they are, a SELECT of listed columns
    returns no rows, an UPDATE reports zero rows and a DELETE reports
    zero rows, and the store stays as it was. *)
Theorem empty_table_ignores_where
  (tableName : string) (db : Store) (columns : list string)
  (assignments : list Assignment) (where_ : option Expr) :
  lookup tableName db = Some [] ->
  (includes columns "*" = false ->
   executeAST (SELECT columns tableName where_) db
     = (Ok (RowSet columns []), db))
  /\ executeAST (UPDATE tableName assignments where_) db
     = (Ok (Updated 0 tableName), db)
  /\ executeAST (DELETE tableName where_) db
     = (Ok (Deleted 0 tableName), db).
Proof.
  intros Hl. split; [|split]; simpl.
  - intros Hstar. unfold executeSelect. rewrite Hl, Hstar.
    destruct where_; reflexivity.
  - unfold executeUpdate. rewrite Hl. simpl.
    now rewrite (assign_same _ _ Hl).
  - unfold executeDelete. rewrite Hl. simpl.
    now rewrite (assign_same _ _ Hl).
Qed.

(** ** INSERT, then SELECT *)



(** ** The evaluator *)

(** X10: whether the evaluator throws, and with which error, depends on
    the expression only: if it throws on one row it throws the same
    error on every row, and if it returns on one row it returns on every
    row. *)
Theorem evaluation_error_ignores_the_row
  (expression : Expr) (row row' : Row) :
  (forall x, evaluateExpression row expression = Err x ->
             evaluateExpression row' expression = Err x)
  /\ ((exists v, evaluateExpression row expression = Ok v) ->
      exists v', evaluateExpression row' expression = Ok v').
Proof.
  destruct (evaluateExpression_uniform expression) as [Hok|[y Herr]].
  - split.
    + intros x Hx. destruct (Hok row) as [v Hv]. congruence.
    + intros _. apply Hok.
  - split.
    + intros x Hx. rewrite Herr in Hx. injection Hx as <-. apply Herr.
    + intros [v Hv]. rewrite Herr in Hv. discriminate.
Qed.

Lemma getValue_convertible row (operand : Expr) :
  isConvertible operand = true ->
  exists v, getValue row operand = Ok v
            /\ evaluateExpression row operand = Ok v.
Proof.
  destruct operand as [op l r|name|text ty]; simpl; try discriminate; eauto.
  destruct ty; try discriminate; cbn; eauto.
Qed.

Lemma getValue_inconvertible row (operand : Expr) :
  isConvertible operand = false ->
  exists x, getValue row operand = Err x.
Proof.
  destruct operand as [op l r|name|text ty]; simpl; try discriminate; eauto.
  destruct ty; try discriminate; cbn; eauto.
Qed.

Lemma literal_inconvertible row text ty :
  isConvertible (Literal text ty) = false ->
  exists x, evaluateExpression row (Literal text ty) = Err x.
Proof. destruct ty; simpl; try discriminate; cbn; eauto. Qed.

(** X11: the expressions the evaluator accepts.  On any row, evaluation
    returns a value exactly when the expression is an identifier, a
    literal of kind NUMBER, STRING or IDENTIFIER, or one of
    [=], [<>], [>], [<], [>=], [<=], AND, OR applied to two of those;
    every other expression throws, among them every expression with a
    binary expression as an operand. *)
Theorem evaluation_returns_iff_supported (expression : Expr) (row : Row) :
  (exists v, evaluateExpression row expression = Ok v)
  <-> isSupported expression = true.
Proof.
  destruct expression as [op l r|name|text ty].
  - cbn [isSupported]. split.
    + intros [v Hv]. simpl in Hv.
      destruct (isConvertible l) eqn:Hl.
      2:{ destruct (getValue_inconvertible row l Hl) as [x Hx].
          rewrite Hx in Hv. discriminate. }
      destruct (getValue_convertible row l Hl) as [vl [Hgl El]].
      rewrite Hgl in Hv. simpl in Hv.
      destruct (isConvertible r) eqn:Hr.
      2:{ destruct (getValue_inconvertible row r Hr) as [x Hx].
          rewrite Hx in Hv. discriminate. }
      destruct (getValue_convertible row r Hr) as [vr [Hgr Er]].
      rewrite Hgr in Hv. simpl in Hv.
      rewrite !andb_true_r. unfold has, comparisonOrLogical. simpl.
      revert Hv.
      repeat (destruct (String.eqb op _); [reflexivity|]).
      discriminate.
    + intros Hs.
      apply andb_true_iff in Hs as [Hs Hr].
      apply andb_true_iff in Hs as [Hop Hl].
      destruct (getValue_convertible row l Hl) as [vl [Hgl El]].
      destruct (getValue_convertible row r Hr) as [vr [Hgr Er]].
      simpl. rewrite Hgl, Hgr. simpl. rewrite El, Er. simpl.
      revert Hop. unfold has, comparisonOrLogical. simpl.
      repeat (destruct (String.eqb op _)); simpl; intros Hop;
        try discriminate; try destruct (toBoolean vl); eauto.
  - simpl. split; eauto.
  - cbn [isSupported]. split.
    + intros [v Hv]. destruct (isConvertible (Literal text ty)) eqn:Hc; auto.
      destruct (literal_inconvertible row _ _ Hc) as [x Hx].
      rewrite Hx in Hv. discriminate.
    + intros Hc. destruct (getValue_convertible row _ Hc) as [v [_ Hv]].
      eauto.
Qed.

(** ** The whole pipeline *)

Lemma parsed_statement_error_unwritten tokens ast db e db' :
  parseSQL tokens = Ok ast ->
  executeAST ast db = (Err e, db') -> db' = db.
Proof.
  intros Hparse. apply parseSQL_assigns_values in Hparse.
  destruct ast as [cols t w|t cols vl|t asg w|t w|]; simpl.
  - now intros [= _ <-].
  - unfold executeInsert. destruct (lookup t db); [|now intros [= _ <-]].
    destruct (buildRecords cols vl); [discriminate | now intros [= _ <-]].
  - unfold executeUpdate.
    destruct (lookup t db) as [tableData|] eqn:Hl; [|now intros [= _ <-]].
    destruct (updateRows asg w tableData 0) as [[k|x] written] eqn:Hu;
      [discriminate|].
    intros [= _ <-].
    apply updateRows_error_unwritten in Hu; auto. subst written.
    now apply assign_same.
  - unfold executeDelete. destruct (lookup t db); [|now intros [= _ <-]].
    destruct (filterRows _ _); [discriminate | now intros [= _ <-]].
  - discriminate.
Qed.

(** X12: a query that fails leaves the store as it was, at whichever
    stage it fails: the analyzer and the parser do not see the store,
    and a parsed statement that throws in the executor has written to
    no row. *)
Theorem failing_query_leaves_store
  (query : string) (db : Store) (e : Editor.QueryError) (db' : Store) :
  Editor.executeQuery query db = (Err e, db') -> db' = db.
Proof.
  unfold Editor.executeQuery.
  destruct (Lexer.lexicalAnalysis query) as [tokens|le];
    [|now intros [= _ <-]].
  destruct (parseSQL tokens) as [ast|pe] eqn:Hparse;
    [|now intros [= _ <-]].
  destruct (executeAST ast db) as [[r|ee] db1] eqn:Hrun; [discriminate|].
  intros [= _ <-].
  eapply parsed_statement_error_unwritten; eauto.
Qed.

End MoreOfTheExecutor.

(** * More of the lexical analyzer *)

Section MoreOfTheAnalyzer.

Lemma letter_dispatch c : isLetter c = true -> isWhitespace c = false.
Proof.
  unfold isLetter, isWhitespace. generalize (charCode c). intros n Hl.
  apply orb_true_iff in Hl.
  repeat (apply orb_false_iff; split);
    try (apply Nat.eqb_neq);
    try (apply andb_false_iff);
    destruct Hl as [Hl|Hl]; apply andb_true_iff in Hl as [H1 H2];
    apply Nat.leb_le in H1; apply Nat.leb_le in H2;
    try lia;
    try (right; apply Nat.leb_gt; lia).
Qed.

(** *** Identifiers and keywords *)

Lemma identifierLoop_spec rem : forall val pos,
  exists lex rem',
    identifierLoop rem val pos
      = ((val ++ lex)%string, pos + String.length lex, rem')
    /\ rem = (lex ++ rem')%string
    /\ forallChars isIdentifierChar lex = true
    /\ startsWith isIdentifierChar rem' = false.
Proof.
  induction rem as [|c rest IH]; intros val pos.
  - exists ""%string, ""%string. simpl.
    rewrite string_app_nil_r, Nat.add_0_r. auto.
  - simpl. destruct (isIdentifierChar c) eqn:Hc.
    + destruct (IH (val ++ strLit c)%string (S pos))
        as [lex [rem' [Hrun [Hrem [Hall Hstop]]]]].
      exists (String c lex), rem'. rewrite Hrun. simpl.
      rewrite string_app_assoc, Hc, <- Hrem. simpl.
      repeat split; auto. do 2 f_equal. lia.
    + exists ""%string, (String c rest). simpl.
      rewrite string_app_nil_r, Nat.add_0_r, Hc. auto.
Qed.

(** X13: at a letter the analyzer takes the longest run of letters,
    digits and underscores as one token placed at the letter.  The token
    is a KEYWORD holding the upper-cased text when that text is one of
    the keywords, whatever the case it was written in, and otherwise an
    IDENTIFIER holding the text as written. *)
Theorem identifier_lexeme
  (c : ascii) (rest : string) (pos : nat) (tokens : list Token) :
  isLetter c = true ->
  exists lex rem',
    String c rest = (lex ++ rem')%string
    /\ startsWith (Ascii.eqb c) lex = true
    /\ forallChars isIdentifierChar lex = true
    /\ startsWith isIdentifierChar rem' = false
    /\ tokenizeIdentifier (String c rest) pos
       = (if has KEYWORDS (toUpperCase lex)
          then mkToken KEYWORD (toUpperCase lex) pos
          else mkToken IDENTIFIER lex pos,
          pos + String.length lex, rem')
    /\ analyzeStep (String c rest) pos tokens
       = Some (Ok (rem', pos + String.length lex,
                   tokens ++ [if has KEYWORDS (toUpperCase lex)
                              then mkToken KEYWORD (toUpperCase lex) pos
                              else mkToken IDENTIFIER lex pos])).
Proof.
  intros Hl.
  destruct (identifierLoop_spec (String c rest) "" pos)
    as [lex [rem' [Hrun [Hrem [Hall Hstop]]]]].
  simpl append in Hrun.
  assert (Hid : isIdentifierChar c = true)
    by (unfold isIdentifierChar; now rewrite Hl).
  assert (Hhead : startsWith (Ascii.eqb c) lex = true).
  { destruct lex as [|c0 lex0].
    - simpl in Hrem. subst rem'. simpl in Hstop. congruence.
    - simpl in Hrem. injection Hrem as <- _. simpl. apply Ascii.eqb_refl. }
  assert (Htok : tokenizeIdentifier (String c rest) pos
                 = (if has KEYWORDS (toUpperCase lex)
                    then mkToken KEYWORD (toUpperCase lex) pos
                    else mkToken IDENTIFIER lex pos,
                    pos + String.length lex, rem')).
  { unfold tokenizeIdentifier. rewrite Hrun.
    destruct (has KEYWORDS (toUpperCase lex)); reflexivity. }
  exists lex, rem'. repeat (split; [assumption|]).
  unfold analyzeStep. now rewrite (letter_dispatch c Hl), Hl, Htok.
Qed.

(** *** Whitespace *)

Lemma skipWhitespace_all rem : forall pos,
  forallChars isWhitespace rem = true ->
  skipWhitespace rem pos = (pos + String.length rem, ""%string).
Proof.
  induction rem as [|c rest IH]; intros pos; simpl.
  - now rewrite Nat.add_0_r.
  - intros Hall. apply andb_true_iff in Hall as [Hc Hrest].
    rewrite Hc, IH by exact Hrest. f_equal. lia.
Qed.

(** X14: a query that is empty or holds whitespace only has no tokens,
    and the editor reports it as an empty query without touching the
    store. *)
Theorem blank_query_is_empty
  `{HostCompare} (query : string) (db : Executor.Store) :
  forallChars isWhitespace query = true ->
  lexicalAnalysis query = Ok []
  /\ Editor.executeQuery query db
     = (Err (Editor.SyntaxFailure EmptyQuery), db).
Proof.
  intros Hall.
  assert (Hlex : lexicalAnalysis query = Ok []).
  { unfold lexicalAnalysis, analyze. destruct query as [|c rest]; auto.
    cbn [String.length analyzeLoop].
    assert (Hc : isWhitespace c = true)
      by (simpl in Hall; now apply andb_true_iff in Hall as [Hc _]).
    unfold analyzeStep at 1. rewrite Hc.
    rewrite (skipWhitespace_all (String c rest) 0 Hall).
    destruct (String.length rest); reflexivity. }
  split; [exact Hlex|].
  unfold Editor.executeQuery. now rewrite Hlex.
Qed.

(** *** Operators *)

Lemma operatorLoop_spec rem : forall val pos,
  exists lex rem',
    operatorLoop rem val pos
      = ((val ++ lex)%string, pos + String.length lex, rem')
    /\ rem = (lex ++ rem')%string
    /\ (lex = ""%string \/ has OPERATORS (val ++ lex) = true)
    /\ (forall c r, rem' = String c r ->
                    has OPERATORS ((val ++ lex) ++ strLit c) = false).
Proof.
  induction rem as [|c rest IH]; intros val pos.
  - exists ""%string, ""%string. cbn [operatorLoop].
    rewrite string_app_nil_r, Nat.add_0_r.
    repeat split; auto. discriminate.
  - cbn [operatorLoop].
    destruct (has OPERATORS (val ++ strLit c)) eqn:Hc.
    + destruct (IH (val ++ strLit c)%string (S pos))
        as [lex [rem' [Hrun [Hrem [Hin Hmax]]]]].
      exists (String c lex), rem'. rewrite Hrun.
      rewrite string_app_assoc in *. cbn [append strLit] in *.
      rewrite <- Hrem. repeat split; auto.
      * do 2 f_equal. simpl. lia.
      * right. destruct Hin as [->|Hin]; auto.
    + exists ""%string, (String c rest).
      rewrite string_app_nil_r, Nat.add_0_r. repeat split; auto.
      intros c' r [= <- <-]. exact Hc.
Qed.

Lemma operator_dispatch c :
  has OPERATORS (strLit c) = true ->
  isWhitespace c = false /\ isLetter c = false
  /\ isDigit c = false /\ isQuote c = false.
Proof.
  intros Hc. destruct c as [[] [] [] [] [] [] [] []];
    vm_compute in Hc; try discriminate Hc; repeat split.
Qed.

Lemma operator_length lex :
  has OPERATORS lex = true ->
  String.length lex = 1 \/ String.length lex = 2.
Proof.
  unfold has. intros Hc. apply existsb_exists in Hc as [op [Hin Hop]].
  apply String.eqb_eq in Hop. subst op.
  unfold OPERATORS in Hin. simpl in Hin.
  repeat (destruct Hin as [<-|Hin]; [auto|]). destruct Hin.
Qed.

(** X15: at an operator character the analyzer takes the longest text
    that is one of the operators: the OPERATOR token holds one or two
    characters, and the character after it, if any, would not extend it
    to an operator. *)
Theorem operator_lexeme
  (c : ascii) (rest : string) (pos : nat) (tokens : list Token) :
  has OPERATORS (strLit c) = true ->
  exists lex rem',
    String c rest = (lex ++ rem')%string
    /\ has OPERATORS lex = true
    /\ (String.length lex = 1 \/ String.length lex = 2)
    /\ (forall c' r, rem' = String c' r ->
                     has OPERATORS (lex ++ strLit c') = false)
    /\ tokenizeOperator (String c rest) pos
       = (mkToken OPERATOR lex pos, pos + String.length lex, rem')
    /\ analyzeStep (String c rest) pos tokens
       = Some (Ok (rem', pos + String.length lex,
                   tokens ++ [mkToken OPERATOR lex pos])).
Proof.
  intros Hc.
  destruct (operatorLoop_spec (String c rest) "" pos)
    as [lex [rem' [Hrun [Hrem [Hin Hmax]]]]].
  cbn [append] in Hrun, Hin, Hmax.
  assert (Hlex : has OPERATORS lex = true).
  { destruct Hin as [->|Hin]; auto.
    cbn [append] in Hrem. symmetry in Hrem.
    specialize (Hmax c rest Hrem). cbn [append] in Hmax. congruence. }
  assert (Htok : tokenizeOperator (String c rest) pos
                 = (mkToken OPERATOR lex pos, pos + String.length lex, rem'))
    by (unfold tokenizeOperator; now rewrite Hrun).
  exists lex, rem'.
  split; [exact Hrem|]. split; [exact Hlex|].
  split; [now apply operator_length|]. split; [exact Hmax|].
  split; [exact Htok|].
  destruct (operator_dispatch c Hc) as [Hw [Hl [Hd Hq]]].
  unfold analyzeStep. now rewrite Hw, Hl, Hd, Hq, Hc, Htok.
Qed.

(** *** Where the tokens are *)

Lemma skipWhitespace_position rem : forall pos,
  fst (skipWhitespace rem pos) + String.length (snd (skipWhitespace rem pos))
  = pos + String.length rem.
Proof.
  induction rem as [|c rest IH]; intros pos; simpl; auto.
  destruct (isWhitespace c); simpl; auto. rewrite IH. lia.
Qed.

Lemma stringLoop_position n : forall rem val pos,
  String.length rem <= n ->
  snd (fst (stringLoop rem val pos))
  + String.length (snd (stringLoop rem val pos))
  = pos + String.length rem.
Proof.
  induction n as [|n IH]; intros rem val pos Hlen.
  - destruct rem; [reflexivity | simpl in Hlen; lia].
  - destruct rem as [|c rest]; [reflexivity|]. simpl in Hlen.
    cbn [stringLoop]. destruct (isQuote c).
    + destruct rest as [|c' rest']; [reflexivity|].
      destruct (isQuote c'); [|reflexivity].
      rewrite IH by (simpl in Hlen; lia). simpl. lia.
    + rewrite IH by lia. simpl. lia.
Qed.

(** One iteration keeps the offset of the remainder right, and the
    token it adds, if any, is placed where the iteration started. *)
Lemma analyzeStep_placement rem pos tokens rem' pos' tokens' :
  analyzeStep rem pos tokens = Some (Ok (rem', pos', tokens')) ->
  pos' + String.length rem' = pos + String.length rem
  /\ (tokens' = tokens
      \/ exists t, tokens' = tokens ++ [t]
                   /\ position t = pos
                   /\ isLexicalKind (type t) = true).
Proof.
  destruct rem as [|c rest]; [discriminate|]. unfold analyzeStep.
  destruct (isWhitespace c) eqn:Hw.
  { pose proof (skipWhitespace_position (String c rest) pos) as Hp.
    destruct (skipWhitespace (String c rest) pos) as [p r].
    intros [= <- <- <-]. split; [exact Hp | now left]. }
  destruct (isLetter c) eqn:Hl.
  { destruct (identifierLoop_spec (String c rest) "" pos)
      as [lex [r [Hrun [Hrem [_ _]]]]].
    unfold tokenizeIdentifier. rewrite Hrun. cbn [append].
    destruct (has KEYWORDS (toUpperCase lex)); intros [= <- <- <-];
      (split; [rewrite Hrem, string_length_app; lia|]);
      right; eexists; repeat split. }
  destruct (isDigit c) eqn:Hd.
  { destruct (numberLoop_spec (String c rest) "" false pos)
      as [lex [r [Hrun [Hrem _]]]].
    unfold tokenizeNumber. rewrite Hrun. cbn [append].
    intros [= <- <- <-].
    split; [rewrite Hrem, string_length_app; lia|].
    right; eexists; repeat split. }
  destruct (isQuote c) eqn:Hq.
  { pose proof (stringLoop_position (String.length rest) rest "" (S pos)
                  (Nat.le_refl _)) as Hp.
    unfold tokenizeString.
    destruct (stringLoop rest "" (S pos)) as [[v p] r]. simpl in Hp.
    destruct r as [|c' r']; [discriminate|].
    destruct (isQuote c'); [|discriminate].
    intros [= <- <- <-]. simpl in *.
    split; [lia|]. right; eexists; repeat split. }
  destruct (has OPERATORS (strLit c)) eqn:Ho.
  { destruct (operatorLoop_spec (String c rest) "" pos)
      as [lex [r [Hrun [Hrem _]]]].
    unfold tokenizeOperator. rewrite Hrun. cbn [append].
    intros [= <- <- <-].
    split; [rewrite Hrem, string_length_app; lia|].
    right; eexists; repeat split. }
  destruct (has ["("; ")"; ","; ";"] (strLit c))%string;
    [|intros Hx; discriminate Hx].
  intros [= <- <- <-]. split; [simpl; lia|].
  right; eexists; repeat split.
Qed.

Lemma increasing_snoc l y :
  increasing l -> Forall (fun x => x < y) l -> increasing (l ++ [y]).
Proof.
  induction l as [|a l IH]; simpl; auto.
  intros Hinc Hall. inversion Hall as [|? ? Ha Hl]; subst.
  destruct l as [|b l].
  - simpl. auto.
  - destruct Hinc as [Hab Hinc]. simpl. split; [exact Hab|].
    now apply IH.
Qed.

Lemma analyzeLoop_placement fuel : forall rem pos tokens result,
  Forall (fun t => isLexicalKind (type t) = true /\ position t < pos)
    tokens ->
  increasing (map position tokens) ->
  analyzeLoop fuel rem pos tokens = Ok result ->
  Forall (fun t => isLexicalKind (type t) = true
                   /\ position t < pos + String.length rem) result
  /\ increasing (map position result).
Proof.
  induction fuel as [|fuel IH]; intros rem pos tokens result Hall Hinc;
    cbn [analyzeLoop];
    destruct (analyzeStep rem pos tokens)
      as [[[[rem' pos'] tokens']|e]|] eqn:Hstep; try discriminate.
  - intros [= <-]. split; auto.
    eapply Forall_impl; [|exact Hall]. intros t [Hk Hp]. split; auto. lia.
  - pose proof (analyzeStep_consumes _ _ _ Hstep) as Hshort.
    destruct (analyzeStep_placement _ _ _ _ _ _ Hstep) as [Hpos Htok].
    intros Hrun. rewrite <- Hpos. apply (IH _ _ _ _) in Hrun; auto.
    + destruct Htok as [->|[t [-> [Ht Hk]]]].
      * eapply Forall_impl; [|exact Hall].
        intros t [Hk Hp]. split; auto. lia.
      * apply Forall_app. split.
        -- eapply Forall_impl; [|exact Hall].
           intros t' [Hk' Hp']. split; auto. lia.
        -- constructor; [|constructor]. split; auto. lia.
    + destruct Htok as [->|[t [-> [Ht Hk]]]]; auto.
      rewrite map_app. apply increasing_snoc; auto.
      apply Forall_map. eapply Forall_impl; [|exact Hall].
      intros t' [_ Hp']. simpl. lia.
  - intros [= <-]. split; auto.
    eapply Forall_impl; [|exact Hall]. intros t [Hk Hp]. split; auto. lia.
Qed.

(** X16: in the tokens of a query the analyzer accepts, every token is
    of one of the six lexical kinds (never WHITESPACE or ERROR), is
    placed inside the query, and the tokens' positions increase
    strictly along the sequence. *)
Theorem tokens_are_placed (query : string) (tokens : list Token) :
  lexicalAnalysis query = Ok tokens ->
  Forall (fun t => isLexicalKind (type t) = true
                   /\ position t < String.length query) tokens
  /\ increasing (map position tokens).
Proof.
  unfold lexicalAnalysis, analyze. intros Hrun.
  apply (analyzeLoop_placement _ _ _ _ _) in Hrun; simpl; auto.
Qed.

End MoreOfTheAnalyzer.

(** * The parser against a printer *)

Section MoreOfTheParser.

Import Parser.

(** ** Composing runs over known tokens *)

Lemma Reads_weaken {A} n (P Q : list Token -> Prop) (p : M A) tokens x :
  (forall rest, P rest -> Q rest) ->
  Reads n Q p tokens x -> Reads n P p tokens x.
Proof. intros Himp Hp pre rest Hrest. apply Hp. now apply Himp. Qed.

Lemma Reads_ret {A} n P (a : A) : Reads n P (ret a) [] a.
Proof. intros pre rest _ _. unfold ret. simpl. now rewrite Nat.add_0_r. Qed.

Lemma Reads_bind {A B} n (P Q : list Token -> Prop) (p : M A)
  (f : A -> M B) tokens1 tokens2 a b :
  Reads n Q p tokens1 a ->
  (forall rest, P rest -> Q (tokens2 ++ rest)) ->
  Reads n P (f a) tokens2 b ->
  Reads n P (bind p f) (tokens1 ++ tokens2) b.
Proof.
  intros Hp Hq Hf pre rest Hrest Hlen. unfold bind.
  rewrite <- app_assoc in Hlen |- *.
  rewrite (Hp pre (tokens2 ++ rest) (Hq rest Hrest) Hlen).
  specialize (Hf (pre ++ tokens1) rest Hrest).
  rewrite <- app_assoc, !length_app in Hf. rewrite length_app, Nat.add_assoc.
  apply Hf. rewrite !length_app in Hlen. lia.
Qed.

Lemma Reads_expect n P ty val t :
  tokenIs ty val t = true -> Reads n P (expect ty val) [t] t.
Proof.
  intros Ht pre rest _ _. simpl.
  rewrite (@expect_at ty val _ _ t); [f_equal; f_equal; lia| |exact Ht].
  apply nth_error_middle.
Qed.

Lemma Reads_match n P ty val t :
  tokenIs ty val t = true -> Reads n P (matchToken ty val) [t] true.
Proof.
  intros Ht pre rest _ _. simpl.
  rewrite (@matchToken_true_at ty val _ _ t); [f_equal; f_equal; lia| |exact Ht].
  apply nth_error_middle.
Qed.

Lemma Reads_no_match n ty val :
  Reads n (notNext ty val) (matchToken ty val) [] false.
Proof.
  intros pre rest Hrest _. simpl. rewrite Nat.add_0_r.
  apply matchToken_false. intros t.
  rewrite nth_error_app2, Nat.sub_diag by lia.
  destruct rest as [|t' rest']; simpl; [discriminate|].
  now intros [= <-].
Qed.

Lemma Reads_parseValue n P t :
  isValueToken t = true -> Reads n P parseValue [t] t.
Proof.
  intros Ht pre rest _ _. simpl.
  unfold parseValue, bind, peek, consume, ret.
  rewrite nth_error_middle. unfold isValueToken in Ht.
  destruct (type t); try discriminate; f_equal; f_equal; lia.
Qed.

(** ** Lists separated by commas *)

Lemma separate_cons (item : list Token) others :
  others <> [] ->
  Printer.separate (item :: others)
  = item ++ Printer.comma :: Printer.separate others.
Proof. destruct others; [congruence | reflexivity]. Qed.

Lemma doWhileComma_separate {A} m (item : M A) :
  forall itoks xs,
    Forall2 (fun tokens x => Reads m (fun _ => True) item tokens x) itoks xs ->
    itoks <> [] ->
    forall fuel acc, fuel <= m ->
      Reads fuel (notNext PUNCTUATION (Some ","))
        (doWhileComma fuel item acc) (Printer.separate itoks) (acc ++ xs).
Proof.
  induction 1 as [|tokens x itoks xs Hitem Hrest IH]; [congruence|].
  intros _ fuel acc Hfuel pre rest Hnext Hlen.
  destruct fuel as [|fuel]; [rewrite !length_app in Hlen; lia|].
  cbn [doWhileComma]. unfold bind at 1.
  destruct itoks as [|tokens' itoks].
  - inversion Hrest; subst. cbn [Printer.separate] in *.
    rewrite (Hitem pre rest I) by (rewrite !length_app in *; lia).
    unfold bind.
    pose proof (@Reads_no_match m PUNCTUATION (Some ",") (pre ++ tokens) rest
                  Hnext) as Hno.
    cbn [app List.length] in Hno.
    rewrite <- app_assoc, !length_app, Nat.add_0_r in Hno.
    rewrite Hno by (rewrite !length_app in *; lia). reflexivity.
  - rewrite separate_cons in * by discriminate.
    set (others := Printer.separate (tokens' :: itoks)) in *.
    rewrite <- app_assoc in Hlen |- *.
    change ((Printer.comma :: others) ++ rest)
      with (Printer.comma :: others ++ rest) in Hlen |- *.
    rewrite (Hitem pre (Printer.comma :: others ++ rest) I)
      by (rewrite !length_app in *; cbn [List.length] in *;
          rewrite ?length_app in *; lia).
    unfold bind.
    rewrite (@matchToken_true_at PUNCTUATION (Some ",") _ _ Printer.comma);
      [| |reflexivity].
    + specialize (IH ltac:(discriminate) fuel (acc ++ [x]) ltac:(lia)
                    (pre ++ tokens ++ [Printer.comma]) rest Hnext).
      rewrite <- !app_assoc in IH. cbn [app] in IH.
      rewrite !length_app in IH. cbn [List.length] in IH.
      rewrite !length_app. cbn [List.length].
      replace (S (List.length pre + List.length tokens))
        with (List.length pre + (List.length tokens + 1)) by lia.
      rewrite length_app in IH.
      repeat first [rewrite length_app in Hlen
                   | progress cbn [List.length] in Hlen].
      rewrite IH by lia.
      f_equal. f_equal. lia.
    + replace (pre ++ tokens ++ Printer.comma :: others ++ rest)
        with ((pre ++ tokens) ++ Printer.comma :: others ++ rest)
        by now rewrite <- app_assoc.
      rewrite <- length_app. apply nth_error_middle.
Qed.

(** ** Expressions *)

Lemma Derives_level k tokens e : Derives k tokens e -> k <= 6.
Proof.
  induction 1; lia.
Qed.

Lemma Derives_lower k tokens e :
  Derives k tokens e -> forall j, j <= k -> Derives j tokens e.
Proof.
  intros Hd j Hj. revert Hd.
  induction Hj as [|k' Hj IH]; intros Hd; [exact Hd|].
  pose proof (Derives_level _ _ _ Hd) as Hk.
  apply IH. apply DerivesHigher; [lia | exact Hd].
Qed.

Lemma operatorToken_derives op :
  has grammarOperators op = true ->
  In (type (Printer.operatorToken op), op) (levelOperators (Printer.levelOf op))
  /\ value (Printer.operatorToken op) = op.
Proof.
  unfold has, grammarOperators. intros Hop.
  apply existsb_exists in Hop as [op' [Hin Heq]].
  apply String.eqb_eq in Heq. subst op'.
  cbn [In] in Hin.
  repeat (destruct Hin as [<-|Hin]; [vm_compute; tauto|]).
  destruct Hin.
Qed.

Lemma unparseExpression_derives e :
  grammarTree e = true ->
  forall lvl, lvl <= 6 ->
    Derives lvl (Printer.unparseExpression lvl e) e.
Proof.
  induction e as [op l IHl r IHr|name|text valueType]; intros Htree lvl Hlvl.
  - cbn [grammarTree] in Htree.
    apply andb_true_iff in Htree as [Htree Hr].
    apply andb_true_iff in Htree as [Hop Hl].
    destruct (operatorToken_derives op Hop) as [Hin Hval].
    pose proof (@levelOperators_lt _ _ Hin) as Hk.
    assert (Hbody :
      Derives (Printer.levelOf op)
        (Printer.unparseExpression (Printer.levelOf op) l
           ++ Printer.operatorToken op
              :: Printer.unparseExpression (S (Printer.levelOf op)) r)
        (BinaryExpression op l r)).
    { apply DerivesBinary with (ty := type (Printer.operatorToken op));
        [ exact Hin | reflexivity | exact Hval
        | apply IHl; [exact Hl | lia] | apply IHr; [exact Hr | lia] ]. }
    cbn [Printer.unparseExpression].
    destruct (lvl <=? Printer.levelOf op)%nat eqn:Hle.
    + apply Nat.leb_le in Hle. eapply Derives_lower; eauto.
    + apply (@Derives_lower 6); [|exact Hlvl].
      apply DerivesParenthesised; try reflexivity.
      eapply Derives_lower; [exact Hbody | lia].
  - apply (@Derives_lower 6); [|exact Hlvl].
    exact (DerivesIdentifier (Printer.identifier name) eq_refl).
  - apply (@Derives_lower 6); [|exact Hlvl].
    cbn [grammarTree] in Htree.
    change (Derives 6 [mkToken valueType text 0]
              (Literal (value (mkToken valueType text 0))
                 (type (mkToken valueType text 0)))).
    apply DerivesLiteral. destruct valueType; try discriminate; simpl; auto.
Qed.

Lemma Reads_parseWhere fuel where_ :
  whereFromGrammar where_ ->
  Reads fuel (fun rest => rest = []) (parseWhere fuel)
    (Printer.unparseWhere where_) where_.
Proof.
  intros Hwhere. unfold parseWhere. destruct where_ as [e|].
  - replace (Printer.unparseWhere (Some e))
      with ([Printer.keyword "WHERE"] ++ Printer.unparseExpression 0 e ++ [])
      by (simpl; now rewrite app_nil_r).
    eapply Reads_bind with (Q := fun _ => True);
      [apply Reads_match; reflexivity | auto |].
    eapply Reads_bind with (Q := fun rest => rest = []);
      [| intros rest ->; reflexivity | apply Reads_ret].
    intros pre rest -> Hlen.
    apply parseExpression_derives; auto.
    apply unparseExpression_derives; [now apply Hwhere | lia].
  - change (Printer.unparseWhere None) with ([] ++ @nil Token).
    eapply Reads_bind with (Q := notNext KEYWORD (Some "WHERE"));
      [apply Reads_no_match | intros rest ->; exact I | apply Reads_ret].
Qed.

(** ** Statements *)

Lemma Forall2_map_left {A B} (R : B -> A -> Prop) (P : A -> Prop)
  (f : A -> B) l :
  Forall P l -> (forall x, P x -> R (f x) x) -> Forall2 R (map f l) l.
Proof.
  intros Hall Hf. induction Hall; simpl; constructor; auto.
Qed.

Lemma map_not_nil {A B} (f : A -> B) l : l <> [] -> map f l <> [].
Proof. destruct l; [congruence | discriminate]. Qed.

Lemma notNext_where ty val where_ :
  ty <> KEYWORD ->
  notNext ty val (Printer.unparseWhere where_ ++ []).
Proof.
  intros Hty. destruct where_ as [e|]; simpl; auto.
  unfold tokenIs. destruct ty; try reflexivity. congruence.
Qed.

Lemma Reads_parseColumnList fuel columns :
  columns <> [] ->
  Reads fuel (notNext PUNCTUATION (Some ",")) (parseColumnList fuel)
    (Printer.separate (map (fun c => [Printer.columnToken c]) columns))
    columns.
Proof.
  intros Hcols. unfold parseColumnList.
  apply (doWhileComma_separate fuel _ _ columns) with (acc := []);
    [| now apply map_not_nil | lia].
  apply Forall2_map_left with (P := fun _ => True);
    [apply Forall_forall; auto|].
  intros c _. unfold Printer.columnToken.
  destruct (String.eqb c "*") eqn:Estar.
  - apply String.eqb_eq in Estar. subst c.
    change [Printer.operator "*"] with ([Printer.operator "*"] ++ []).
    eapply Reads_bind with (Q := fun _ => True);
      [apply Reads_match; reflexivity | auto | apply Reads_ret].
  - change [Printer.identifier c] with ([] ++ [Printer.identifier c] ++ []).
    eapply Reads_bind with (Q := notNext OPERATOR (Some "*"));
      [apply Reads_no_match | intros rest _; reflexivity |].
    eapply Reads_bind with (Q := fun _ => True);
      [apply Reads_expect; reflexivity | auto | apply Reads_ret].
Qed.

Lemma Reads_parseIdentifierList fuel columns :
  columns <> [] ->
  Reads fuel (notNext PUNCTUATION (Some ",")) (parseIdentifierList fuel)
    (Printer.separate (map (fun c => [Printer.identifier c]) columns))
    columns.
Proof.
  intros Hcols. unfold parseIdentifierList.
  apply (doWhileComma_separate fuel _ _ columns) with (acc := []);
    [| now apply map_not_nil | lia].
  apply Forall2_map_left with (P := fun _ => True);
    [apply Forall_forall; auto|].
  intros c _.
  change [Printer.identifier c] with ([Printer.identifier c] ++ []).
  eapply Reads_bind with (Q := fun _ => True);
    [apply Reads_expect; reflexivity | auto | apply Reads_ret].
Qed.

Lemma Reads_values fuel values :
  values <> [] -> Forall (fun t => isValueToken t = true) values ->
  Reads fuel (notNext PUNCTUATION (Some ","))
    (doWhileComma fuel parseValue [])
    (Printer.separate (map (fun v => [v]) values)) values.
Proof.
  intros Hne Hall.
  apply (doWhileComma_separate fuel _ _ values) with (acc := []);
    [| now apply map_not_nil | lia].
  apply Forall2_map_left with (P := fun t => isValueToken t = true); auto.
  intros t Ht. now apply Reads_parseValue.
Qed.

Lemma Reads_parseValuesList fuel valuesList :
  valuesList <> [] ->
  Forall (fun values =>
            values <> [] /\ Forall (fun t => isValueToken t = true) values)
    valuesList ->
  Reads fuel (notNext PUNCTUATION (Some ",")) (parseValuesList fuel)
    (Printer.separate (map Printer.tuple valuesList)) valuesList.
Proof.
  intros Hne Hall. unfold parseValuesList.
  apply (doWhileComma_separate fuel _ _ valuesList) with (acc := []);
    [| now apply map_not_nil | lia].
  eapply Forall2_map_left; [exact Hall|].
  intros values [Hvalues Htokens]. unfold Printer.tuple.
  change (Printer.punctuation "("
            :: Printer.separate (map (fun v => [v]) values)
            ++ [Printer.punctuation ")"])
    with ([Printer.punctuation "("]
            ++ Printer.separate (map (fun v => [v]) values)
            ++ [Printer.punctuation ")"] ++ []).
  eapply Reads_bind with (Q := fun _ => True);
    [apply Reads_expect; reflexivity | auto |].
  eapply Reads_bind with (Q := notNext PUNCTUATION (Some ","));
    [now apply Reads_values | intros rest _; reflexivity |].
  eapply Reads_bind with (Q := fun _ => True);
    [apply Reads_expect; reflexivity | auto | apply Reads_ret].
Qed.

Lemma Reads_parseAssignments fuel assignments :
  assignments <> [] ->
  Forall (fun a => isValueToken (assignedValue a) = true) assignments ->
  Reads fuel (notNext PUNCTUATION (Some ",")) (parseAssignments fuel)
    (Printer.separate (map Printer.assignment assignments)) assignments.
Proof.
  intros Hne Hall. unfold parseAssignments.
  apply (doWhileComma_separate fuel _ _ assignments) with (acc := []);
    [| now apply map_not_nil | lia].
  eapply Forall2_map_left; [exact Hall|].
  intros [col v] Hv. cbn [assignedValue] in Hv. unfold Printer.assignment.
  cbn [column assignedValue].
  change [Printer.identifier col; Printer.operator "="; v]
    with ([Printer.identifier col] ++ [Printer.operator "="] ++ [v] ++ []).
  eapply Reads_bind with (Q := fun _ => True);
    [apply Reads_expect; reflexivity | auto |].
  eapply Reads_bind with (Q := fun _ => True);
    [apply Reads_expect; reflexivity | auto |].
  eapply Reads_bind with (Q := fun _ => True);
    [now apply Reads_parseValue | auto | apply Reads_ret].
Qed.

Ltac reads_token :=
  eapply Reads_bind with (Q := fun _ => True);
  [apply Reads_expect; reflexivity | auto |].

Lemma Reads_parseSelect fuel columns table where_ :
  columns <> [] -> whereFromGrammar where_ ->
  Reads fuel (fun rest => rest = []) (parseSelect fuel)
    (Printer.unparse (SELECT columns table where_))
    (SELECT columns table where_).
Proof.
  intros Hcols Hwhere. unfold parseSelect, Printer.unparse.
  replace (Printer.keyword "SELECT"
             :: Printer.separate
                  (map (fun c => [Printer.columnToken c]) columns)
             ++ [Printer.keyword "FROM"; Printer.identifier table]
             ++ Printer.unparseWhere where_)
    with ([Printer.keyword "SELECT"]
            ++ Printer.separate
                 (map (fun c => [Printer.columnToken c]) columns)
            ++ [Printer.keyword "FROM"]
            ++ [Printer.identifier table]
            ++ Printer.unparseWhere where_ ++ [])
    by (simpl; now rewrite app_nil_r).
  reads_token.
  eapply Reads_bind with (Q := notNext PUNCTUATION (Some ","));
    [now apply Reads_parseColumnList | intros rest _; reflexivity |].
  reads_token. reads_token.
  eapply Reads_bind with (Q := fun rest => rest = []);
    [now apply Reads_parseWhere | auto | apply Reads_ret].
Qed.

Lemma Reads_parseInsert fuel table columns valuesList :
  Grammatical (INSERT table columns valuesList) ->
  Reads fuel (fun rest => rest = []) (parseInsert fuel)
    (Printer.unparse (INSERT table columns valuesList))
    (INSERT table columns valuesList).
Proof.
  intros [Hne Hall]. unfold parseInsert, Printer.unparse.
  assert (Hvalues :
    Reads fuel (fun rest => rest = [])
      (expect KEYWORD (Some "VALUES") ;;;
       valuesList0 <- parseValuesList fuel ;;
       ret (INSERT (value (Printer.identifier table)) columns valuesList0))
      ([Printer.keyword "VALUES"]
         ++ Printer.separate (map Printer.tuple valuesList) ++ [])
      (INSERT table columns valuesList)).
  { reads_token.
    eapply Reads_bind with (Q := notNext PUNCTUATION (Some ","));
      [now apply Reads_parseValuesList | intros rest ->; exact I
      | apply Reads_ret]. }
  rewrite app_nil_r in Hvalues.
  change ([Printer.keyword "INSERT"; Printer.keyword "INTO";
           Printer.identifier table] ++ ?tail)
    with ([Printer.keyword "INSERT"] ++ [Printer.keyword "INTO"]
            ++ [Printer.identifier table] ++ tail).
  reads_token. reads_token. reads_token.
  destruct columns as [|c columns].
  - change ([] ++ Printer.keyword "VALUES"
              :: Printer.separate (map Printer.tuple valuesList))
      with ([] ++ [] ++ [Printer.keyword "VALUES"]
              ++ Printer.separate (map Printer.tuple valuesList)).
    eapply Reads_bind with (Q := notNext PUNCTUATION (Some "("));
      [apply Reads_no_match | intros rest _; reflexivity |].
    eapply Reads_bind with (Q := fun _ => True);
      [apply Reads_ret | auto | exact Hvalues].
  - set (cs := c :: columns) in *.
    replace ((Printer.punctuation "("
               :: Printer.separate (map (fun c => [Printer.identifier c]) cs)
               ++ [Printer.punctuation ")"])
             ++ Printer.keyword "VALUES"
                :: Printer.separate (map Printer.tuple valuesList))
      with ([Printer.punctuation "("]
              ++ (Printer.separate
                    (map (fun c => [Printer.identifier c]) cs)
                    ++ [Printer.punctuation ")"] ++ [])
              ++ [Printer.keyword "VALUES"]
              ++ Printer.separate (map Printer.tuple valuesList))
      by (simpl; rewrite <- !app_assoc; reflexivity).
    eapply Reads_bind with (Q := fun _ => True);
      [apply Reads_match; reflexivity | auto |].
    eapply Reads_bind with (Q := fun _ => True); [| auto | exact Hvalues].
    eapply Reads_bind with (Q := notNext PUNCTUATION (Some ","));
      [apply Reads_parseIdentifierList; discriminate
      | intros rest _; reflexivity |].
    reads_token. apply Reads_ret.
Qed.

Lemma Reads_parseUpdate fuel table assignments where_ :
  assignments <> [] ->
  Forall (fun a => isValueToken (assignedValue a) = true) assignments ->
  whereFromGrammar where_ ->
  Reads fuel (fun rest => rest = []) (parseUpdate fuel)
    (Printer.unparse (UPDATE table assignments where_))
    (UPDATE table assignments where_).
Proof.
  intros Hne Hall Hwhere. unfold parseUpdate, Printer.unparse.
  replace ([Printer.keyword "UPDATE"; Printer.identifier table;
            Printer.keyword "SET"]
             ++ Printer.separate (map Printer.assignment assignments)
             ++ Printer.unparseWhere where_)
    with ([Printer.keyword "UPDATE"] ++ [Printer.identifier table]
            ++ [Printer.keyword "SET"]
            ++ Printer.separate (map Printer.assignment assignments)
            ++ Printer.unparseWhere where_ ++ [])
    by (simpl; now rewrite app_nil_r).
  reads_token. reads_token. reads_token.
  eapply Reads_bind with (Q := notNext PUNCTUATION (Some ","));
    [now apply Reads_parseAssignments
    | intros rest ->; rewrite app_nil_r; apply notNext_where; discriminate |].
  eapply Reads_bind with (Q := fun rest => rest = []);
    [now apply Reads_parseWhere | auto | apply Reads_ret].
Qed.

Lemma Reads_parseDelete fuel table where_ :
  whereFromGrammar where_ ->
  Reads fuel (fun rest => rest = []) (parseDelete fuel)
    (Printer.unparse (DELETE table where_)) (DELETE table where_).
Proof.
  intros Hwhere. unfold parseDelete, Printer.unparse.
  replace ([Printer.keyword "DELETE"; Printer.keyword "FROM";
            Printer.identifier table] ++ Printer.unparseWhere where_)
    with ([Printer.keyword "DELETE"] ++ [Printer.keyword "FROM"]
            ++ [Printer.identifier table]
            ++ Printer.unparseWhere where_ ++ [])
    by (simpl; now rewrite app_nil_r).
  reads_token. reads_token. reads_token.
  eapply Reads_bind with (Q := fun rest => rest = []);
    [now apply Reads_parseWhere | auto | apply Reads_ret].
Qed.

Lemma Reads_parseShow fuel :
  Reads fuel (fun rest => rest = []) parseShow
    (Printer.unparse SHOW_TABLES) SHOW_TABLES.
Proof.
  unfold parseShow, Printer.unparse.
  change [Printer.keyword "SHOW"; Printer.keyword "TABLES"]
    with ([Printer.keyword "SHOW"] ++ [Printer.keyword "TABLES"] ++ [] ++ []).
  reads_token.
  eapply Reads_bind with (Q := fun _ => True);
    [apply Reads_match; reflexivity | auto |].
  eapply Reads_bind with (Q := notNext PUNCTUATION (Some ";"));
    [apply Reads_no_match | intros rest ->; exact I | apply Reads_ret].
Qed.

Lemma Reads_parse fuel ast :
  FromGrammar ast ->
  Reads fuel (fun rest => rest = []) (parse fuel) (Printer.unparse ast) ast.
Proof.
  intros [Hvalues Hshape] pre rest Hrest Hlen.
  assert (Hstatement :
    match ast with
    | SELECT _ _ _ => parseSelect fuel
    | INSERT _ _ _ => parseInsert fuel
    | UPDATE _ _ _ => parseUpdate fuel
    | DELETE _ _ => parseDelete fuel
    | SHOW_TABLES => parseShow
    end (pre ++ Printer.unparse ast ++ rest) (List.length pre)
    = Ok (ast, List.length pre + List.length (Printer.unparse ast))).
  { destruct ast as [columns table where_|table columns valuesList
                    |table assignments where_|table where_|].
    - destruct Hshape. now apply Reads_parseSelect.
    - now apply Reads_parseInsert.
    - destruct Hshape. now apply Reads_parseUpdate.
    - now apply Reads_parseDelete.
    - exact (Reads_parseShow fuel pre rest Hrest Hlen). }
  rewrite <- Hstatement. unfold parse, bind, peek.
  destruct ast; cbn [Printer.unparse app];
    rewrite nth_error_middle; reflexivity.
Qed.

(** X17: the parser reads back what the printer writes.  For every
    statement the grammar can build (value positions hold value tokens,
    tuples and lists are not empty, WHERE expressions are grammar
    trees), [parseSQL] applied to the statement's tokens, written with
    the parentheses the tree needs and no others, returns the
    statement. *)
Theorem printed_statement_parses_back (ast : Statement) :
  FromGrammar ast -> parseSQL (Printer.unparse ast) = Ok ast.
Proof.
  intros Hast. unfold parseSQL, run.
  pose proof (Reads_parse (S (List.length (Printer.unparse ast))) ast Hast
                [] [] eq_refl) as Hrun.
  cbn [app List.length] in Hrun. rewrite app_nil_r in Hrun.
  rewrite Hrun by lia. reflexivity.
Qed.

(** ** What the parser returns *)

Lemma Post_and {A} (P Q : A -> Prop) (p : M A) :
  Post P p -> Post Q p -> Post (fun a => P a /\ Q a) p.
Proof. intros Hp Hq toks pos a pos' Hrun. split; eauto. Qed.

Lemma Post_parseWhere fuel : Post whereFromGrammar (parseWhere fuel).
Proof.
  unfold parseWhere. eapply Post_bind; [apply Post_any|]. intros [|] _.
  - eapply Post_bind; [apply Post_parseExpression|]. intros e He.
    apply Post_ret. now intros e' [= <-].
  - apply Post_ret. discriminate.
Qed.

Lemma Post_not_empty {A} fuel (item : M A) :
  Post (fun l => l <> []) (doWhileComma fuel item []).
Proof.
  intros toks pos l pos' Hrun.
  apply (Post_doWhileComma (P := fun _ => True)) in Hrun;
    [tauto | apply Post_any | constructor].
Qed.

Lemma Post_parse_shape fuel :
  Post (fun ast =>
          match ast with
          | SELECT columns _ where_ =>
              columns <> [] /\ whereFromGrammar where_
          | UPDATE _ assignments where_ =>
              assignments <> [] /\ whereFromGrammar where_
          | DELETE _ where_ => whereFromGrammar where_
          | _ => True
          end)
    (parse fuel).
Proof.
  unfold parse. eapply Post_bind; [apply Post_any|].
  intros [t|] _; [|apply Post_throw].
  repeat match goal with
         | |- Post _ (if ?b then _ else _) => destruct b
         end.
  - unfold parseSelect.
    eapply Post_bind; [apply Post_any|]. intros _ _.
    eapply Post_bind; [apply Post_not_empty|]. intros columns Hcolumns.
    do 2 (eapply Post_bind; [apply Post_any|]; intros ? _).
    eapply Post_bind; [apply Post_parseWhere|]. intros where_ Hwhere.
    now apply Post_ret.
  - unfold parseInsert.
    repeat (eapply Post_bind; [apply Post_any|]; intros ? _).
    now apply Post_ret.
  - unfold parseUpdate.
    do 3 (eapply Post_bind; [apply Post_any|]; intros ? _).
    eapply Post_bind; [apply Post_not_empty|]. intros assignments Hne.
    eapply Post_bind; [apply Post_parseWhere|]. intros where_ Hwhere.
    now apply Post_ret.
  - unfold parseDelete.
    do 3 (eapply Post_bind; [apply Post_any|]; intros ? _).
    eapply Post_bind; [apply Post_parseWhere|]. intros where_ Hwhere.
    now apply Post_ret.
  - intros toks pos ast pos' Hrun. apply parseShow_result in Hrun.
    now subst ast.
  - apply Post_throw.
Qed.

(** X18: every statement the parser returns is a statement of the
    grammar: a SELECT lists at least one column, an UPDATE has at least
    one assignment, an INSERT has at least one tuple and no empty tuple,
    every value position holds a STRING, NUMBER or IDENTIFIER token, and
    a WHERE expression is built from identifiers, NUMBER and STRING
    literals and the twelve binary operators. *)
Theorem parsed_statement_is_from_grammar
  (tokens : list Token) (ast : Statement) :
  parseSQL tokens = Ok ast -> FromGrammar ast.
Proof.
  unfold parseSQL, run.
  destruct (parse _ tokens 0) as [[ast' n]|e] eqn:E; [|discriminate].
  intros [= <-]. split.
  - eapply Post_parse; eauto.
  - eapply Post_parse_shape; eauto.
Qed.

(** ** Where an expression cannot start *)

Lemma level_error fuel toks pos e :
  level 6 fuel toks pos = Err e -> forall k, level k fuel toks pos = Err e.
Proof.
  intros Hprimary.
  assert (Hdown : forall d k, k + d = 6 -> level k fuel toks pos = Err e).
  { induction d as [|d IH]; intros k Hk.
    - replace k with 6 by lia. exact Hprimary.
    - rewrite level_unfold by lia. unfold bind.
      now rewrite (IH (S k)) by lia. }
  intros k. destruct (Nat.le_gt_cases k 6) as [Hle|Hgt].
  - apply (Hdown (6 - k)). lia.
  - do 7 (destruct k as [|k]; [lia|]). exact Hprimary.
Qed.

(** X19: an expression starts with an identifier, a NUMBER or STRING
    literal or an opening parenthesis, and with nothing else: at the
    end of the tokens [parseExpression] throws "Unexpected end of
    input", and at any other token (an operator such as a unary minus,
    a keyword such as NOT or NULL, a closing parenthesis)
    it throws "Unexpected token" with that token and its index, and so
    does a statement whose WHERE is followed by such a token. *)
Theorem expression_start (fuel : nat) (toks : list Token) (pos : nat) :
  match nth_error toks pos with
  | None => parseExpression (S fuel) toks pos = Err UnexpectedEndOfInput
  | Some t =>
      isValueToken t = false ->
      tokenIs PUNCTUATION (Some "(") t = false ->
      parseExpression (S fuel) toks pos = Err (UnexpectedToken t pos)
      /\ forall table rest,
           parseSQL (Printer.unparse (DELETE table None)
                       ++ Printer.keyword "WHERE" :: t :: rest)
           = Err (UnexpectedToken t 4)
  end.
Proof.
  assert (Hstart : forall fuel toks pos t,
            nth_error toks pos = Some t ->
            isValueToken t = false ->
            tokenIs PUNCTUATION (Some "(") t = false ->
            parseExpression (S fuel) toks pos = Err (UnexpectedToken t pos)).
  { clear. intros fuel toks pos t Et Hvalue Hparen.
    change (parseExpression (S fuel)) with (level 0 fuel).
    apply level_error. cbn [level]. rewrite parsePrimary_unfold, Et.
    unfold isValueToken in Hvalue.
    destruct (type t) eqn:Ety; try discriminate;
      unfold bind;
      rewrite matchToken_false
        by (intros t' Et'; rewrite Et in Et'; now injection Et' as <-);
      reflexivity. }
  destruct (nth_error toks pos) as [t|] eqn:Et.
  - intros Hvalue Hparen. split; [now apply Hstart|].
    intros table rest. unfold parseSQL, run.
    generalize (List.length (Printer.unparse (DELETE table None)
                               ++ Printer.keyword "WHERE" :: t :: rest)).
    intros n. cbn [Printer.unparse Printer.unparseWhere app].
    assert (Hrun :
      parseDelete (S n)
        (Printer.keyword "DELETE" :: Printer.keyword "FROM"
           :: Printer.identifier table :: Printer.keyword "WHERE"
           :: t :: rest) 0
      = Err (UnexpectedToken t 4)).
    { unfold parseDelete, bind.
      rewrite (@expect_at _ _ _ 0 (Printer.keyword "DELETE")) by reflexivity.
      rewrite (@expect_at _ _ _ 1 (Printer.keyword "FROM")) by reflexivity.
      rewrite (@expect_at _ _ _ 2 (Printer.identifier table)) by reflexivity.
      unfold parseWhere, bind.
      rewrite (@matchToken_true_at _ _ _ 3 (Printer.keyword "WHERE"))
        by reflexivity.
      rewrite (Hstart _ _ 4 t); auto. }
    change (parse (S n)
              (Printer.keyword "DELETE" :: Printer.keyword "FROM"
                 :: Printer.identifier table :: Printer.keyword "WHERE"
                 :: t :: rest) 0)
      with (parseDelete (S n)
              (Printer.keyword "DELETE" :: Printer.keyword "FROM"
                 :: Printer.identifier table :: Printer.keyword "WHERE"
                 :: t :: rest) 0).
    now rewrite Hrun.
  - change (parseExpression (S fuel)) with (level 0 fuel).
    apply level_error. cbn [level]. now rewrite parsePrimary_unfold, Et.
Qed.

End MoreOfTheParser.

(** * The further properties on sample inputs *)

Section MoreOnSampleInputs.

Import IntHost Samples MoreSamples.

Lemma idIsOne_evaluable : evaluable (Some idIsOne) usersRows.
Proof.
  intros w row [= <-] Hin. simpl in Hin.
  destruct Hin as [<-|[<-|[]]]; eexists; reflexivity.
Defined.



Lemma delete_twice_removes_nothing_witness :
  lookup "users" mockDatabase = Some usersRows
  /\ evaluable (Some idIsOne) usersRows
  /\ executeAST (DELETE "users" (Some idIsOne))
       [("users", [bobRow]); ("orders", []); ("products", [])]
     = (Ok (Deleted 0 "users"),
        [("users", [bobRow]); ("orders", []); ("products", [])]).
Proof.
  split; [reflexivity|]. split; [exact idIsOne_evaluable|].
  exact (delete_twice_removes_nothing "users" idIsOne mockDatabase
           usersRows eq_refl idIsOne_evaluable).
Defined.



Lemma statements_keep_the_tables_witness :
  keys (snd (executeAST (DELETE "users" None) mockDatabase))
    = ["users"; "orders"; "products"]
  /\ lookup "orders" (snd (executeAST (DELETE "users" None) mockDatabase))
     = Some [].
Proof.
  destruct (statements_keep_the_tables (DELETE "users" None) mockDatabase)
    as [Hkeys Hother].
  split; [exact Hkeys|].
  apply (Hother "orders"). discriminate.
Defined.


Lemma empty_table_ignores_where_witness :
  lookup "orders" mockDatabase = Some []
  /\ executeAST (SELECT ["id"] "orders" (Some nestedCondition)) mockDatabase
     = (Ok (RowSet ["id"] []), mockDatabase)
  /\ executeAST (DELETE "orders" (Some nestedCondition)) mockDatabase
     = (Ok (Deleted 0 "orders"), mockDatabase).
Proof.
  split; [reflexivity|].
  destruct (empty_table_ignores_where "orders" mockDatabase ["id"]
              renameToAl (Some nestedCondition) eq_refl)
    as [Hselect [_ Hdelete]].
  split; [exact (Hselect eq_refl) | exact Hdelete].
Defined.


Lemma evaluation_error_ignores_the_row_witness :
  evaluateExpression aliceRow nestedCondition
    = Err (UnsupportedOperandType "BinaryExpression")
  /\ evaluateExpression [] nestedCondition
     = Err (UnsupportedOperandType "BinaryExpression")
  /\ exists v, evaluateExpression [] idIsOne = Ok v.
Proof.
  destruct (evaluation_error_ignores_the_row nestedCondition aliceRow [])
    as [Hthrows _].
  destruct (evaluation_error_ignores_the_row idIsOne aliceRow [])
    as [_ Hreturns].
  split; [reflexivity|]. split.
  - apply Hthrows. reflexivity.
  - apply Hreturns. eexists. reflexivity.
Defined.

Lemma failing_query_leaves_store_witness :
  Editor.executeQuery "UPDATE users SET name = 'Al' WHERE id = 1 AND (id = 2 OR id = 3);"
    mockDatabase
    = (Err (Editor.RuntimeFailure (UnsupportedOperandType "BinaryExpression")),
       snd (Editor.executeQuery
              "UPDATE users SET name = 'Al' WHERE id = 1 AND (id = 2 OR id = 3);"
              mockDatabase))
  /\ snd (Editor.executeQuery
            "UPDATE users SET name = 'Al' WHERE id = 1 AND (id = 2 OR id = 3);"
            mockDatabase)
     = mockDatabase.
Proof.
  split; [reflexivity|].
  apply (failing_query_leaves_store
           "UPDATE users SET name = 'Al' WHERE id = 1 AND (id = 2 OR id = 3);"
           mockDatabase
           (Editor.RuntimeFailure (UnsupportedOperandType "BinaryExpression"))).
  reflexivity.
Defined.

Lemma identifier_lexeme_witness :
  Lexer.isLetter "s" = true
  /\ exists lex rem',
       "select_1 *"%string = (lex ++ rem')%string
       /\ forallChars Lexer.isIdentifierChar lex = true
       /\ startsWith Lexer.isIdentifierChar rem' = false
       /\ Lexer.tokenizeIdentifier "select_1 *" 7
          = (if has KEYWORDS (toUpperCase lex)
             then mkToken KEYWORD (toUpperCase lex) 7
             else mkToken IDENTIFIER lex 7,
             7 + String.length lex, rem').
Proof.
  split; [reflexivity|].
  destruct (identifier_lexeme "s" "elect_1 *" 7 [] eq_refl)
    as [lex [rem' [Hsplit [_ [Hchars [Hnext [Htoken _]]]]]]].
  exists lex, rem'. auto.
Defined.

Lemma blank_query_is_empty_witness :
  forallChars Lexer.isWhitespace "   " = true
  /\ Lexer.lexicalAnalysis "   " = Ok []
  /\ Editor.executeQuery "   " mockDatabase
     = (Err (Editor.SyntaxFailure EmptyQuery), mockDatabase).
Proof.
  split; [reflexivity|].
  exact (blank_query_is_empty "   " mockDatabase eq_refl).
Defined.

Lemma operator_lexeme_witness :
  has OPERATORS (strLit "<") = true
  /\ exists lex rem',
       "<=> 1"%string = (lex ++ rem')%string
       /\ has OPERATORS lex = true
       /\ Lexer.tokenizeOperator "<=> 1" 3
          = (mkToken OPERATOR lex 3, 3 + String.length lex, rem').
Proof.
  split; [reflexivity|].
  destruct (operator_lexeme "<" "=> 1" 3 [] eq_refl)
    as [lex [rem' [Hsplit [Hop [_ [_ [Htoken _]]]]]]].
  exists lex, rem'. auto.
Defined.

Lemma tokens_are_placed_witness :
  Lexer.lexicalAnalysis "SELECT * FROM users;"
    = Ok (tokensOf "SELECT * FROM users;")
  /\ Forall (fun t => isLexicalKind (type t) = true /\ position t < 20)
       (tokensOf "SELECT * FROM users;")
  /\ increasing (map position (tokensOf "SELECT * FROM users;")).
Proof.
  split; [reflexivity|].
  exact (tokens_are_placed "SELECT * FROM users;"
           (tokensOf "SELECT * FROM users;") eq_refl).
Defined.

Lemma productCondition_from_grammar :
  FromGrammar (UPDATE "users" renameToAl (Some productCondition)).
Proof.
  split; [repeat constructor|].
  split; [discriminate|]. intros e [= <-]. reflexivity.
Defined.

Lemma printed_statement_parses_back_witness :
  FromGrammar (UPDATE "users" renameToAl (Some productCondition))
  /\ map value
       (Printer.unparse (UPDATE "users" renameToAl (Some productCondition)))
     = [ "UPDATE"; "users"; "SET"; "name"; "="; "Al"; "WHERE";
         "("; "a"; "+"; "b"; ")"; "*"; "c"; "="; "d"; "AND"; "e"; "<"; "1" ]
  /\ Parser.parseSQL
       (Printer.unparse (UPDATE "users" renameToAl (Some productCondition)))
     = Ok (UPDATE "users" renameToAl (Some productCondition)).
Proof.
  split; [exact productCondition_from_grammar|]. split; [reflexivity|].
  exact (printed_statement_parses_back
           (UPDATE "users" renameToAl (Some productCondition))
           productCondition_from_grammar).
Defined.

Lemma parsed_statement_is_from_grammar_witness :
  Parser.parseSQL (tokensOf "SELECT name, email FROM users WHERE id = 1;")
    = Ok (SELECT ["name"; "email"] "users" (Some idIsOne))
  /\ FromGrammar (SELECT ["name"; "email"] "users" (Some idIsOne)).
Proof.
  split; [reflexivity|].
  exact (parsed_statement_is_from_grammar
           (tokensOf "SELECT name, email FROM users WHERE id = 1;")
           (SELECT ["name"; "email"] "users" (Some idIsOne)) eq_refl).
Defined.

Lemma expression_start_witness :
  isValueToken (mkToken OPERATOR "-" 0) = false
  /\ Parser.parseExpression 3 (tokensOf "- 1") 0
     = Err (Parser.UnexpectedToken (mkToken OPERATOR "-" 0) 0)
  /\ Parser.parseSQL
       (Printer.unparse (DELETE "users" None)
          ++ Printer.keyword "WHERE" :: mkToken OPERATOR "-" 0
          :: [mkToken NUMBER "1" 0])
     = Err (Parser.UnexpectedToken (mkToken OPERATOR "-" 0) 4)
  /\ Parser.parseExpression 3 (tokensOf "1 +") 2
     = Err Parser.UnexpectedEndOfInput.
Proof.
  split; [reflexivity|].
  destruct (expression_start 2 (tokensOf "- 1") 0 eq_refl eq_refl)
    as [Hexpression Hstatement].
  split; [exact Hexpression|].
  split; [exact (Hstatement "users" [mkToken NUMBER "1" 0])|].
  exact (expression_start 2 (tokensOf "1 +") 2).
Defined.

End MoreOnSampleInputs.
